(** * Traffic agent model: the vehicle decision model and the road manager

    A shallow embedding of [src/Agent.py] (class [VehicleAgent]), of
    [src/track_interface.py] (class [Track]) and of the time-step loop of
    [src/model.py] ([Model.run]), with the properties of the
    specification, and further properties of the code, stated and proved
    over it.

    Numbers.  The program computes with Python numbers (ints and floats,
    among them [np.inf]).  They are modelled by the rationals extended with
    the three special values of the floats, with exact arithmetic: rounding
    is abstracted away, the behaviour of the special values is kept, a
    zero divisor raises [ZeroDivisionError] as it does for Python numbers,
    and a square [x ** 2] beyond the largest float raises [OverflowError]
    as it does for Python floats.  The decision tree of a vehicle, whose
    branches are taken on the sign of computed numbers, is given over an
    arbitrary arithmetic, of which the exact one is an instance.

    Effects.  A method is a computation over the object it mutates that
    either returns or raises; the object keeps the writes made before a
    raise.  The global generator behind [np.random.rand] is a stream of
    numbers read through a cursor that is part of the state. *)

From Stdlib Require Import ZArith QArith Qround Lqa Bool List Lia Permutation.
From stdpp Require Import base list gmap functions.
From Stdlib Require Import Sorted.

Set Default Proof Using "Type".
Open Scope Z_scope.

(** ** Python numbers *)

Inductive num : Type :=
  | Fin (q : Q)
  | PInf
  | NInf
  | NaN.

Inductive exn : Type :=
  | ZeroDivisionError
  | UnboundLocalError
  | AttributeError
  | AssertionError
  | ValueError
  | IndexError
  | KeyError
  | TypeError
  | OverflowError.

Inductive result (A : Type) : Type :=
  | Ok (a : A)
  | Raise (e : exn).
Arguments Ok {A} a.
Arguments Raise {A} e.

Module Num.

Definition is_fin (a : num) : bool :=
  match a with Fin _ => true | _ => false end.

Definition is_nan (a : num) : bool :=
  match a with NaN => true | _ => false end.

Definition neg (a : num) : num :=
  match a with
  | Fin x => Fin (- x)
  | PInf => NInf
  | NInf => PInf
  | NaN => NaN
  end.

Definition add (a b : num) : num :=
  match a, b with
  | NaN, _ | _, NaN => NaN
  | Fin x, Fin y => Fin (x + y)
  | PInf, NInf | NInf, PInf => NaN
  | PInf, _ | _, PInf => PInf
  | NInf, _ | _, NInf => NInf
  end.

Definition sub (a b : num) : num := add a (neg b).

(** An infinity scaled by a finite factor: the sign of the factor
    decides, and a zero factor gives no number. *)
Definition scale_inf (positive : bool) (y : Q) : num :=
  match (y ?= 0)%Q with
  | Eq => NaN
  | Gt => if positive then PInf else NInf
  | Lt => if positive then NInf else PInf
  end.

Definition mul (a b : num) : num :=
  match a, b with
  | NaN, _ | _, NaN => NaN
  | Fin x, Fin y => Fin (x * y)
  | PInf, Fin y => scale_inf true y
  | NInf, Fin y => scale_inf false y
  | Fin x, PInf => scale_inf true x
  | Fin x, NInf => scale_inf false x
  | PInf, PInf | NInf, NInf => PInf
  | PInf, NInf | NInf, PInf => NInf
  end.

(** The largest float, [sys.float_info.max]. *)
Definition float_max : Q := inject_Z (2 ^ 1024 - 2 ^ 971).

(** [x ** 2]: the square of a real number raises [OverflowError] when it
    is beyond the floats; the square of an infinity is an infinity. *)
Definition sqr (a : num) : result num :=
  match a with
  | Fin x =>
      if Qle_bool (x * x) float_max then Ok (Fin (x * x))
      else Raise OverflowError
  | _ => Ok (mul a a)
  end.

(** [a / b]: a zero divisor raises, whatever the dividend. *)
Definition div (a b : num) : result num :=
  match b with
  | Fin y =>
      if Qeq_bool y 0 then Raise ZeroDivisionError
      else Ok (mul a (Fin (/ y)))
  | NaN => Ok NaN
  | PInf | NInf =>
      match a with
      | Fin _ => Ok (Fin 0)
      | _ => Ok NaN
      end
  end.

(** [a % b] on floats: the result takes the sign of the divisor. *)
Definition mod_ (a b : num) : result num :=
  match b with
  | Fin y =>
      if Qeq_bool y 0 then Raise ZeroDivisionError
      else match a with
           | Fin x => Ok (Fin (x - y * inject_Z (Qfloor (x / y))))
           | _ => Ok NaN
           end
  | NaN => Ok NaN
  | PInf =>
      match a with
      | Fin x => if Qle_bool 0 x then Ok (Fin x) else Ok PInf
      | _ => Ok NaN
      end
  | NInf =>
      match a with
      | Fin x => if Qle_bool x 0 then Ok (Fin x) else Ok NInf
      | _ => Ok NaN
      end
  end.

(** Comparisons: every comparison with [NaN] is false. *)
Definition eqb (a b : num) : bool :=
  match a, b with
  | Fin x, Fin y => Qeq_bool x y
  | PInf, PInf | NInf, NInf => true
  | _, _ => false
  end.

Definition leb (a b : num) : bool :=
  match a, b with
  | NaN, _ | _, NaN => false
  | Fin x, Fin y => Qle_bool x y
  | NInf, _ | _, PInf => true
  | _, _ => false
  end.

Definition ltb (a b : num) : bool :=
  match a, b with
  | NaN, _ | _, NaN => false
  | Fin x, Fin y => negb (Qle_bool y x)
  | PInf, _ | _, NInf => false
  | _, _ => true
  end.

Definition gtb (a b : num) : bool := ltb b a.
Definition geb (a b : num) : bool := leb b a.

(** The built-ins [min] and [max] keep their first argument unless a
    later one compares strictly below (above) the current choice. *)
Definition min (a b : num) : num := if ltb b a then b else a.
Definition max (a b : num) : num := if gtb b a then b else a.
Definition min3 (a b c : num) : num := min (min a b) c.

Definition of_Z (z : Z) : num := Fin (inject_Z z).
Definition of_nat (n : nat) : num := of_Z (Z.of_nat n).

End Num.

Declare Scope num_scope.
Delimit Scope num_scope with num.
Bind Scope num_scope with num.
Infix "+" := Num.add : num_scope.
Infix "-" := Num.sub : num_scope.
Infix "*" := Num.mul : num_scope.
Infix "<?" := Num.ltb : num_scope.
Infix "<=?" := Num.leb : num_scope.
Infix ">?" := Num.gtb : num_scope.
Infix ">=?" := Num.geb : num_scope.
Infix "==?" := Num.eqb (at level 70, no associativity) : num_scope.

(** ** Arithmetic

    The decision tree of a vehicle branches on computed numbers: on the
    sign of a difference, on a gap compared with a product.  It is given
    over an arbitrary arithmetic: a sum, a difference and a product
    return a number, which may be rounded; a quotient may raise, and so
    may a square.  The comparisons are those of the numbers. *)

Module Arithmetic.

Record arith : Type := mkArith {
  add : num -> num -> num;
  sub : num -> num -> num;
  mul : num -> num -> num;
  div : num -> num -> result num;
  sqr : num -> result num
}.

(** The arithmetic of [Num]. *)
Definition exact : arith :=
  {| add := Num.add; sub := Num.sub; mul := Num.mul; div := Num.div;
     sqr := Num.sqr |}.

(** The difference [x - y] compares with zero as [x] compares with [y]. *)
Definition sub_sign (A : arith) (x y : num) : bool :=
  eqb (sub A x y <? Fin 0)%num (x <? y)%num
  && eqb (sub A x y ==? Fin 0)%num (x ==? y)%num
  && eqb (sub A x y >? Fin 0)%num (x >? y)%num.

End Arithmetic.

(** ** Computations that mutate an object, draw random numbers and may raise *)

Record env (St : Type) : Type := Env { obj : St; cursor : nat }.
Arguments Env {St} obj cursor.
Arguments obj {St} e.
Arguments cursor {St} e.

Definition M (St A : Type) : Type := env St -> env St * result A.

Definition raise {St A} (x : exn) : M St A := fun e => (e, Raise x).

#[global] Instance M_ret {St} : MRet (M St) :=
  fun A (a : A) e => (e, Ok a).

#[global] Instance M_bind {St} : MBind (M St) :=
  fun A B (k : A -> M St B) (c : M St A) e =>
    match c e with
    | (e', Ok a) => k a e'
    | (e', Raise x) => (e', Raise x)
    end.

Definition get {St} : M St St := fun e => (e, Ok (obj e)).

Definition modify {St} (f : St -> St) : M St unit :=
  fun e => (Env (f (obj e)) (cursor e), Ok tt).

Definition lift {St A} (r : result A) : M St A := fun e => (e, r).

Definition py_assert {St} (c : bool) : M St unit :=
  if c then mret tt else raise AssertionError.

Section Random.

(** The numbers the generator returns, in the order of the calls. *)
Variable rand : nat -> num.

(** [np.random.rand()] *)
Definition np_random_rand {St} : M St num :=
  fun e => (Env (obj e) (S (cursor e)), Ok (rand (cursor e))).

End Random.

Section RandomInt.

(** What the calls of [np.random.randint(0, 2)] return, by the position of
    the call among the calls of the generator: [1] or [0]. *)
Variable coin : nat -> bool.

(** [np.random.randint(0, 2)] *)
Definition np_random_randint {St} : M St Z :=
  fun e => (Env (obj e) (S (cursor e)),
            Ok (if coin (cursor e) then 1 else 0)).

End RandomInt.

(** ** [Agent.py]: class [VehicleAgent] *)

Module Agent.

(** The attributes of a vehicle.  [next_speed] is not set by the
    constructor: it is an attribute only once a decision step has run. *)
Record VehicleAgent : Type := mkVehicleAgent {
  position : num;
  current_speed : num;
  desired_speed : num;
  max_speed : num;
  length : num;
  a_normal : num;
  a_max : num;
  b : num;
  TP : num;
  acceleration : num;
  AC : num;
  speed_list : list num;
  position_list : list num;
  lane_list : list Z;
  next_speed : option num
}.

Abbreviation Method := (M VehicleAgent).

(** [VehicleAgent(position, current_speed, ...)] *)
Definition init (position current_speed desired_speed max_speed length
    a_normal a_max b TP AC : num) : VehicleAgent :=
  {| position := position;
     current_speed := current_speed;
     desired_speed := desired_speed;
     max_speed := max_speed;
     length := length;
     a_normal := a_normal;
     a_max := a_max;
     b := b;
     TP := TP;
     acceleration := Fin 0;
     AC := AC;
     speed_list := [Fin 0];
     position_list := [Fin 0];
     lane_list := [0];
     next_speed := None |}.

(** The constructor with its default arguments. *)
Definition init_default (position current_speed : num) : VehicleAgent :=
  init position current_speed (Fin 30) (Fin 35) (Fin 5) (Fin 3.05)
    (Fin 6.04) (Fin 0.2) (Fin 1.2) (Fin 0.5).

(** Attribute writes. *)
Definition set_acceleration (a : num) (v : VehicleAgent) : VehicleAgent :=
  {| position := position v; current_speed := current_speed v;
     desired_speed := desired_speed v; max_speed := max_speed v;
     length := length v; a_normal := a_normal v; a_max := a_max v;
     b := b v; TP := TP v; acceleration := a; AC := AC v;
     speed_list := speed_list v; position_list := position_list v;
     lane_list := lane_list v; next_speed := next_speed v |}.

Definition set_next_speed (s : num) (v : VehicleAgent) : VehicleAgent :=
  {| position := position v; current_speed := current_speed v;
     desired_speed := desired_speed v; max_speed := max_speed v;
     length := length v; a_normal := a_normal v; a_max := a_max v;
     b := b v; TP := TP v; acceleration := acceleration v; AC := AC v;
     speed_list := speed_list v; position_list := position_list v;
     lane_list := lane_list v; next_speed := Some s |}.

Definition set_current_speed (s : num) (v : VehicleAgent) : VehicleAgent :=
  {| position := position v; current_speed := s;
     desired_speed := desired_speed v; max_speed := max_speed v;
     length := length v; a_normal := a_normal v; a_max := a_max v;
     b := b v; TP := TP v; acceleration := acceleration v; AC := AC v;
     speed_list := speed_list v; position_list := position_list v;
     lane_list := lane_list v; next_speed := next_speed v |}.

Definition set_position (p : num) (v : VehicleAgent) : VehicleAgent :=
  {| position := p; current_speed := current_speed v;
     desired_speed := desired_speed v; max_speed := max_speed v;
     length := length v; a_normal := a_normal v; a_max := a_max v;
     b := b v; TP := TP v; acceleration := acceleration v; AC := AC v;
     speed_list := speed_list v; position_list := position_list v;
     lane_list := lane_list v; next_speed := next_speed v |}.

Definition set_lists (sl pl : list num) (ll : list Z) (v : VehicleAgent)
    : VehicleAgent :=
  {| position := position v; current_speed := current_speed v;
     desired_speed := desired_speed v; max_speed := max_speed v;
     length := length v; a_normal := a_normal v; a_max := a_max v;
     b := b v; TP := TP v; acceleration := acceleration v; AC := AC v;
     speed_list := sl; position_list := pl; lane_list := ll;
     next_speed := next_speed v |}.

(** [reset_data] *)
Definition reset_data : Method unit :=
  modify (set_lists [Fin 0] [Fin 0] [0]).

(** [acceleration_rate]: [aF] is bound by neither branch when [vF]
    compares with nothing, and the [return] then fails. *)
Definition acceleration_rate (vF : num) : Method num :=
  if (vF <=? Fin 12.19)%num then mret (Fin 1.1)
  else if (vF >? Fin 12.19)%num then mret (Fin 0.37)
  else raise UnboundLocalError.

Definition accelerate (vF : num) : Method unit :=
  a ← acceleration_rate vF; modify (set_acceleration a).

Definition cruise : Method unit := modify (set_acceleration (Fin 0)).

Section Arithmetic.

Variable A : Arithmetic.arith.

Local Notation "x ⊕ y" := (Arithmetic.add A x y)
  (at level 50, left associativity).
Local Notation "x ⊖ y" := (Arithmetic.sub A x y)
  (at level 50, left associativity).
Local Notation "x ⊗ y" := (Arithmetic.mul A x y)
  (at level 40, left associativity).

(** [decceleration_rate]: in [(vF**2 - vL**2) / (2 * gap)] the squares
    are taken first, [vF**2] before [vL**2], then the product, then the
    quotient. *)
Definition decceleration_rate_with (vF vL aL gap gap_desire : num)
    : Method num :=
  self ← get;
  (* case 1: free flowing case *)
  if (vF >? desired_speed self)%num then
    q ← lift (Arithmetic.div A (vF ⊖ desired_speed self) (Fin 3));
    mret (Num.min q (a_normal self))
  (* case 2: car-following regime, normal decceleration *)
  else if (gap ⊖ gap_desire ==? Fin 0)%num && negb (vL >=? vF)%num then
    x ← lift (Arithmetic.sqr A vF);
    y ← lift (Arithmetic.sqr A vL);
    lift (Arithmetic.div A (x ⊖ y) (Fin 2 ⊗ gap))
  (* case 3: emergency decceleration *)
  else if (gap ⊖ gap_desire <? Fin 0)%num && negb (vL >? vF)%num then
    mret (aL ⊖ Fin 0.25 ⊗ a_normal self)
  (* case 4: near-collision decceleration *)
  else if (gap ⊖ gap_desire >? Fin 0)%num
          && negb (vL >=? vF)%num
          && negb (gap >? Fin 3 ⊗ vF)%num
          && negb ((gap >? Fin 2 ⊗ vF)%num && (gap >? Fin 7.5)%num) then
    x ← lift (Arithmetic.sqr A (vF ⊖ vL));
    q ← lift (Arithmetic.div A x (Fin 2 ⊗ gap));
    mret (Num.min (aL ⊕ q) (a_max self))
  else mret (Fin 0).

Definition deccelerate_with (vF vL aL gap gap_desire : num)
    : Method unit :=
  a ← decceleration_rate_with vF vL aL gap gap_desire;
  modify (set_acceleration a).

(** [compute_decision]: the decision tree.  Each [if ... elif ... elif]
    chain of the source has no final [else]: when none of its tests
    holds nothing is written.

    The arm taken when [gap < 6 * vF]. *)
Definition car_following_with (gap vL leader_acceleration : num)
    : Method unit :=
  self ← get;
  let vF := current_speed self in
  let gap_desire := vF ⊗ TP self in
  let delta := gap ⊖ gap_desire in
  if (delta >? Fin 0)%num then
    if (vL >=? vF)%num then accelerate vF
    else if (gap >? Fin 3 ⊗ vF)%num then accelerate vF
    else if (gap >? Fin 2 ⊗ vF)%num && (gap >? Fin 7.5)%num then cruise
    else deccelerate_with vF vL leader_acceleration gap gap_desire
  else if (delta ==? Fin 0)%num then
    if (vL >=? vF)%num then cruise
    else deccelerate_with vF vL leader_acceleration gap gap_desire
  else if (delta <? Fin 0)%num then
    if (vL >? vF)%num then cruise
    else deccelerate_with vF vL leader_acceleration gap gap_desire
  else mret tt.

(** The [else] arm: the speed is compared with the desired speed. *)
Definition free_flow_with (gap vL leader_acceleration : num)
    : Method unit :=
  self ← get;
  let vF := current_speed self in
  let gap_desire := vF ⊗ TP self in
  let delta := vF ⊖ desired_speed self in
  if (delta <? Fin 0)%num then accelerate vF
  else if (delta ==? Fin 0)%num then cruise
  else if (delta >? Fin 0)%num then
    deccelerate_with vF vL leader_acceleration gap gap_desire
  else mret tt.

Definition compute_decision_with
    (gap leader_speed leader_acceleration : num) : Method unit :=
  self ← get;
  let vF := current_speed self in
  let vL := leader_speed in
  if (gap <? Fin 6 ⊗ vF)%num then
    car_following_with gap vL leader_acceleration
  else
    free_flow_with gap vL leader_acceleration.

End Arithmetic.

(** The decision tree in the arithmetic of [Num]. *)
Definition decceleration_rate (vF vL aL gap gap_desire : num)
    : Method num :=
  decceleration_rate_with Arithmetic.exact vF vL aL gap gap_desire.

Definition deccelerate (vF vL aL gap gap_desire : num) : Method unit :=
  deccelerate_with Arithmetic.exact vF vL aL gap gap_desire.

Definition car_following (gap vL leader_acceleration : num)
    : Method unit :=
  car_following_with Arithmetic.exact gap vL leader_acceleration.

Definition free_flow (gap vL leader_acceleration : num) : Method unit :=
  free_flow_with Arithmetic.exact gap vL leader_acceleration.

Definition compute_decision (gap leader_speed leader_acceleration : num)
    : Method unit :=
  compute_decision_with Arithmetic.exact gap leader_speed
    leader_acceleration.

(** [compute_safe_speed] *)
Definition compute_safe_speed (gap leader_speed : num) : Method num :=
  self ← get;
  let reaction_time := Fin 1 in
  h ← lift (Num.div (current_speed self + leader_speed)
                    (Fin 2 * a_max self));
  q ← lift (Num.div (gap - leader_speed * reaction_time)
                    (reaction_time + h));
  mret (leader_speed + q)%num.

(** Reading [self.next_speed]. *)
Definition get_next_speed : Method num :=
  self ← get;
  match next_speed self with
  | Some s => mret s
  | None => raise AttributeError
  end.

Section Random.

Variable rand : nat -> num.

(** [calculate_next_state]; [mean_speed = None] means no centralized
    control. *)
Definition calculate_next_state (gap leader_speed leader_acceleration
    dt : num) (mean_speed : option num) (max_accel speed_push : num)
    : Method unit :=
  compute_decision gap leader_speed leader_acceleration;;
  v_safe ← compute_safe_speed gap leader_speed;
  self ← get;
  let v_ideal :=
    Num.min3 (max_speed self)
             (current_speed self + acceleration self * dt) v_safe in
  (* eta is only random when no centralized control *)
  eta ← match mean_speed with
        | None => np_random_rand rand
        | Some _ => mret (Fin 0.5)
        end;
  modify (set_next_speed (Num.max (Fin 0) (v_ideal - b self * eta)));;
  match mean_speed with
  | None => mret tt
  | Some mean =>
      next ← get_next_speed;
      let dif_speed := (mean - next)%num in
      (* normalized dif_speed *)
      let dif_speed :=
        Num.max (Num.neg max_accel) (Num.min max_accel dif_speed) in
      modify (set_next_speed (next + dif_speed));;
      next ← get_next_speed;
      if (Fin 0 <? gap + Fin 3 * (leader_speed - next))%num then
        u ← np_random_rand rand;
        self ← get;
        if (u <? AC self)%num then
          next ← get_next_speed;
          modify (set_next_speed (next + speed_push))
        else mret tt
      else mret tt
  end.

End Random.

(** [update_state]: reading [next_speed] fails on a vehicle for which
    no decision step has run. *)
Definition update_state (dt : num) (lane : Z) : Method unit :=
  next ← get_next_speed;
  modify (set_current_speed next);;
  self ← get;
  modify (set_position (position self + current_speed self * dt));;
  (* update data *)
  self ← get;
  modify (set_lists (speed_list self ++ [current_speed self])
                    (position_list self ++ [position self])
                    (lane_list self ++ [lane])).

(** *** Lane-change intent

    The neighbours are other vehicle objects: references into the store
    [heap], compared by identity ([VehicleAgent] defines no [__eq__]).
    [cars] is [None] where the road has no lane, and otherwise the pair
    (front, behind), both [None] in an empty lane. *)

Abbreviation ref := nat.
Abbreviation cars := (option (option ref * option ref)).

Section Neighbours.

Variable heap : ref -> VehicleAgent.

(** An attribute of a neighbour; [None] has no attributes. *)
Definition attr {A} (f : VehicleAgent -> A) (r : option ref)
    : Method A :=
  match r with
  | Some r => mret (f (heap r))
  | None => raise AttributeError
  end.

(** [can_switch_lane] *)
Definition can_switch_lane (c : cars) : Method bool :=
  self ← get;
  match c with
  | None => mret false                 (* No lane here *)
  | Some (None, None) => mret true     (* Lane is empty *)
  | Some (car_front, car_behind) =>
      if decide (car_front = car_behind) then
        fp ← attr position car_front;
        fl ← attr length car_front;
        mret ((position self <? fp - fl)%num
              || (position self - length self >? fp)%num)
      else
        fp ← attr position car_front;
        fl ← attr length car_front;
        if (position self >? fp - fl)%num then mret false
        else
          bp ← attr position car_behind;
          if (position self - length self <? bp)%num then mret false
          else mret true
  end.

(** [can_switch_lanes] *)
Definition can_switch_lanes (cars_left cars_right : cars)
    : Method (bool * bool) :=
  py_assert (bool_decide (cars_left ≠ cars_right));;
  l ← can_switch_lane cars_left;
  r ← can_switch_lane cars_right;
  mret (l, r).

(** [traditional_lane_switch] *)
Definition traditional_lane_switch (car_front : option ref)
    (cars_left cars_right : cars) (road_length : num) : Method Z :=
  self ← get;
  '(can_go_left, can_go_right) ← can_switch_lanes cars_left cars_right;
  if negb can_go_left && negb can_go_right then mret 0
  else
    fs ← attr current_speed car_front;
    let speed_difference := (fs - current_speed self)%num in
    fp ← attr position car_front;
    gap ← lift (Num.mod_ (fp - position self) road_length);
    if (speed_difference <? Fin (-5.0))%num
       && (gap <? current_speed self * Fin 5.0)%num then
      (* Car in front is close and slow enough the passing lane is
         preferred. *)
      if can_go_left then mret 1 else mret 0
    else if can_go_right then
      match cars_right with
      | None => raise TypeError
      | Some (None, _) => mret (-1)    (* Slow lane is empty *)
      | Some (car_front_right, _) =>
          rp ← attr position car_front_right;
          gap_fr ← lift (Num.mod_ (rp - position self) road_length);
          if (gap_fr >? Fin 200)%num then mret (-1) else mret 0
      end
    else mret 0.

(** [greedy_lane_switch] *)
Definition greedy_lane_switch (car_front : option ref)
    (cars_left cars_right : cars) (road_length : num) : Method Z :=
  self ← get;
  '(can_go_left, can_go_right) ← can_switch_lanes cars_left cars_right;
  if negb can_go_left && negb can_go_right then mret 0
  else
    fs ← attr current_speed car_front;
    let speed_difference := (fs - current_speed self)%num in
    fp ← attr position car_front;
    gap ← lift (Num.mod_ (fp - position self) road_length);
    if (speed_difference <? Fin (-5.0))%num
       && (gap <? current_speed self * Fin 5.0)%num then
      (* Car in front is close and slow enough that another lane is
         preferred.  These cases are ordered such that the left lane
         takes priority. *)
      if can_go_left then mret 1
      else if can_go_right then mret (-1)
      else mret 0
    else mret 0.

(** [lane_switch] *)
Definition lane_switch (car_front : option ref)
    (cars_left cars_right : cars) (road_length : num) : Method Z :=
  traditional_lane_switch car_front cars_left cars_right road_length.

End Neighbours.

End Agent.

(** ** [track_interface.py]: class [Track] *)

Module Track.

Import Agent.

(** The road.  A lane is a Python list of vehicle objects; the objects
    themselves live in the store [vehicles], so that a vehicle reached
    through two lists, or as a neighbour and as the current vehicle, is
    one object. *)
Record Track : Type := mkTrack {
  lanes_count : Z;
  lanes_list : list (list ref);
  length : num;
  dt : num;
  central_control : bool;
  max_accel : num;
  speed_push : num;
  vehicles : ref -> VehicleAgent
}.

Abbreviation Method := (M Track).

(** [Track(lane_count, length, dt, central_control, max_accel,
    speed_push)], over a store of vehicles. *)
Definition init (lane_count : Z) (length dt : num) (central_control : bool)
    (max_accel speed_push : num) (vehicles : ref -> VehicleAgent)
    : Track :=
  {| lanes_count := lane_count;
     lanes_list := replicate (Z.to_nat lane_count) [];
     length := length;
     dt := dt;
     central_control := central_control;
     max_accel := max_accel;
     speed_push := speed_push;
     vehicles := vehicles |}.

Definition set_lanes_list (ll : list (list ref)) (t : Track) : Track :=
  {| lanes_count := lanes_count t; lanes_list := ll; length := length t;
     dt := dt t; central_control := central_control t;
     max_accel := max_accel t; speed_push := speed_push t;
     vehicles := vehicles t |}.

Definition set_vehicles (h : ref -> VehicleAgent) (t : Track) : Track :=
  {| lanes_count := lanes_count t; lanes_list := lanes_list t;
     length := length t; dt := dt t;
     central_control := central_control t; max_accel := max_accel t;
     speed_push := speed_push t; vehicles := h |}.

(** A method call on the vehicle object [r]: it runs on the object in
    the store, and the store keeps what it wrote, also when it raises. *)
Definition call {A} (r : ref) (m : Agent.Method A) : Method A :=
  fun e =>
    let t := obj e in
    let '(e', res) := m (Env (vehicles t r) (cursor e)) in
    (Env (set_vehicles (<[r := obj e']> (vehicles t)) t) (cursor e'), res).

(** Reading an attribute of the object [r]. *)
Definition read {A} (f : VehicleAgent -> A) (r : ref) : Method A :=
  t ← get; mret (f (vehicles t r)).

(** [l[i]] for a Python list and a Python int: a negative index counts
    from the end. *)
Definition py_index (n : nat) (i : Z) : option nat :=
  if (0 <=? i) && (i <? Z.of_nat n) then Some (Z.to_nat i)
  else if (- Z.of_nat n <=? i) && (i <? 0) then
    Some (Z.to_nat (Z.of_nat n + i))
  else None.

(** [self.lanes_list[lane]] *)
Definition get_lane (lane : Z) : Method (list ref) :=
  t ← get;
  match py_index (List.length (lanes_list t)) lane
        ≫= (lanes_list t !!.) with
  | Some l => mret l
  | None => raise IndexError
  end.

(** An in-place update of the list object [self.lanes_list[lane]]. *)
Definition update_lane (lane : Z) (f : list ref -> list ref)
    : Method unit :=
  t ← get;
  match py_index (List.length (lanes_list t)) lane with
  | Some i => modify (set_lanes_list (alter f i (lanes_list t)))
  | None => raise IndexError
  end.

(** [lane.sort()]: the vehicles are compared by [__lt__], that is by
    position.  The sort is stable; this insertion sort gives the order
    [list.sort] gives whenever the positions are comparable. *)
Section Sort.

Variable h : ref -> VehicleAgent.

Definition lt (x y : ref) : bool :=
  (position (h x) <? position (h y))%num.

Fixpoint insert (x : ref) (l : list ref) : list ref :=
  match l with
  | [] => [x]
  | y :: l' => if lt y x then y :: insert x l' else x :: y :: l'
  end.

Fixpoint sort (l : list ref) : list ref :=
  match l with
  | [] => []
  | x :: l' => insert x (sort l')
  end.

End Sort.

Definition sort_lane (lane : Z) : Method unit :=
  t ← get; update_lane lane (sort (vehicles t)).

(** [list.remove]: the first occurrence of the object goes. *)
Fixpoint remove (x : ref) (l : list ref) : list ref :=
  match l with
  | [] => []
  | y :: l' => if decide (x = y) then l' else y :: remove x l'
  end.

(** [car_in_front] *)
Definition car_in_front (lane : Z) (position : num)
    : Method (option ref) :=
  t ← get;
  lane ← get_lane lane;
  match lane with
  | [] => mret None
  | first :: _ =>
      match List.find (fun veh => (Agent.position (vehicles t veh)
                                   >? position)%num) lane with
      | Some veh => mret (Some veh)
      | None => mret (Some first)
      end
  end.

(** [car_in_back] *)
Definition car_in_back (lane : Z) (position : num)
    : Method (option ref) :=
  t ← get;
  lane ← get_lane lane;
  match lane with
  | [] => mret None
  | _ :: _ =>
      match List.find (fun veh => (Agent.position (vehicles t veh)
                                   <? position)%num) (rev lane) with
      | Some veh => mret (Some veh)
      | None => mret (list.last lane)
      end
  end.

(** [closest_cars_sides]: the dictionary from the two adjacent lane
    numbers to the neighbours there. *)
Definition closest_cars_sides (cur_lane : Z) (position : num)
    : Method (gmap Z cars) :=
  t ← get;
  let left_lane := cur_lane + 1 in
  let right_lane := cur_lane - 1 in
  right ← (if (0 <=? right_lane) && (right_lane <? lanes_count t) then
             f ← car_in_front right_lane position;
             k ← car_in_back right_lane position;
             mret (Some (f, k))
           else mret None);
  left ← (if (0 <=? left_lane) && (left_lane <? lanes_count t) then
            f ← car_in_front left_lane position;
            k ← car_in_back left_lane position;
            mret (Some (f, k))
          else mret None);
  mret (<[right_lane := right]> (<[left_lane := left]> ∅)).

(** [d[k]] for a dictionary. *)
Definition dict_get {A} (d : gmap Z A) (k : Z) : Method A :=
  match d !! k with
  | Some a => mret a
  | None => raise KeyError
  end.

(** [switch_lane] *)
Definition switch_lane (lane : Z) (position : num) (count : Z)
    : Method unit :=
  t ← get;
  let new_lane := lane + count in
  py_assert ((0 <=? new_lane) && (new_lane <? lanes_count t));;
  if count =? 0 then mret tt
  else
    l ← get_lane lane;
    match l with
    | [] => mret tt
    | _ :: _ =>
        match List.find (fun veh => (Agent.position (vehicles t veh)
                                     ==? position)%num) l with
        | Some veh =>
            update_lane lane (remove veh);;
            update_lane new_lane (fun l' => l' ++ [veh])
        | None => raise ValueError
        end
    end.

(** The body of the loop of [lane_switches] for one vehicle: first the
    statements that compute [count], *)
Definition lane_switches_count (i : Z) (vehicle : ref) : Method Z :=
  p ← read position vehicle;
  front ← car_in_front i p;
  p ← read position vehicle;
  sides ← closest_cars_sides i p;
  left ← dict_get sides (i + 1);
  right ← dict_get sides (i - 1);
  t ← get;
  call vehicle (lane_switch (vehicles t) front left right (length t)).

(** then the call of [switch_lane]. *)
Definition lane_switches_body (i : Z) (vehicle : ref) : Method unit :=
  count ← lane_switches_count i vehicle;
  p ← read position vehicle;
  switch_lane i p count.

(** [for vehicle in lane: ...] while the body removes vehicles from the
    very list: the iterator holds an index [k] into the list as it is
    now, and stops when the index reaches its end.  The list never
    grows during the loop, so its length at the start bounds the number
    of rounds. *)
Fixpoint lane_switches_loop (fuel : nat) (i : nat) (k : nat)
    : Method unit :=
  match fuel with
  | O => mret tt
  | S fuel =>
      t ← get;
      match lanes_list t !! i ≫= (.!! k) with
      | None => mret tt
      | Some vehicle =>
          lane_switches_body (Z.of_nat i) vehicle;;
          lane_switches_loop fuel i (S k)
      end
  end.

(** A [for] loop over a list that the body leaves alone. *)
Fixpoint for_each {St A} (l : list A) (body : A -> M St unit)
    : M St unit :=
  match l with
  | [] => mret tt
  | x :: l' => body x;; for_each l' body
  end.

(** A list comprehension whose element expression is a computation. *)
Fixpoint map_m {St A B} (l : list A) (f : A -> M St B) : M St (list B) :=
  match l with
  | [] => mret []
  | x :: l' => y ← f x; ys ← map_m l' f; mret (y :: ys)
  end.

(** [lane_switches] *)
Definition lane_switches : Method unit :=
  t ← get;
  for_each (seq 0 (List.length (lanes_list t))) (fun i =>
    sort_lane (Z.of_nat i);;
    lane ← get_lane (Z.of_nat i);
    lane_switches_loop (List.length lane) i 0).

(** [can_switch_central] *)
Definition can_switch_central (vehicle : ref) (lane : Z)
    : Method (bool * bool) :=
  p ← read position vehicle;
  front ← car_in_front lane p;
  p ← read position vehicle;
  sides ← closest_cars_sides lane p;
  left ← dict_get sides (lane + 1);
  right ← dict_get sides (lane - 1);
  t ← get;
  call vehicle (can_switch_lanes (vehicles t) left right).

(** [l[i]] for a Python list of ints. *)
Definition list_get (l : list Z) (i : Z) : Method Z :=
  match py_index (List.length l) i ≫= (l !!.) with
  | Some x => mret x
  | None => raise IndexError
  end.

Section RandomInt.

Variable coin : nat -> bool.

(** The body of the inner loop of [lane_switches_central], in the branch
    where the lane holds more vehicles than preferred. *)
Definition lane_switches_central_body (lane_i : Z) (veh : ref)
    : Method unit :=
  switch_posible ← can_switch_central veh lane_i;
  if switch_posible.1 || switch_posible.2 then
    choice ← (if switch_posible.1 && switch_posible.2
              then np_random_randint coin
              else if switch_posible.1 then mret 0
              else mret 1);
    p ← read position veh;
    switch_lane lane_i p
      ((if choice =? 0 then 1 else 0) - (if choice =? 1 then 1 else 0))
  else mret tt.

(** [for veh in self.lanes_list[lane_i]: ... else: break], the body
    removing vehicles from the list it iterates on; [lane_count] is the
    length the list had before the loop. *)
Fixpoint lane_switches_central_loop (fuel : nat) (lane_i : nat)
    (lane_count : nat) (prefered_per_lane : list Z) (k : nat)
    : Method unit :=
  match fuel with
  | O => mret tt
  | S fuel =>
      t ← get;
      match lanes_list t !! lane_i ≫= (.!! k) with
      | None => mret tt
      | Some veh =>
          prefered ← list_get prefered_per_lane (Z.of_nat lane_i);
          if Z.of_nat lane_count >? prefered then
            lane_switches_central_body (Z.of_nat lane_i) veh;;
            lane_switches_central_loop fuel lane_i lane_count
              prefered_per_lane (S k)
          else mret tt
      end
  end.

(** [lane_switches_central] *)
Definition lane_switches_central (prefered_per_lane : list Z)
    : Method unit :=
  t ← get;
  for_each (seq 0 (Z.to_nat (lanes_count t))) (fun lane_i =>
    (* sort every lane *)
    t ← get;
    for_each (seq 0 (List.length (lanes_list t)))
      (fun i => sort_lane (Z.of_nat i));;
    lane ← get_lane (Z.of_nat lane_i);
    let lane_count := List.length lane in
    lane_switches_central_loop lane_count lane_i lane_count
      prefered_per_lane 0).

End RandomInt.

Section Random.

Variable rand : nat -> num.

(** The mean speed of a lane under centralized control, [None] on an
    empty lane (the [ZeroDivisionError] is caught). *)
Definition mean_speed_lane (lane : list ref) : Method (option num) :=
  t ← get;
  if central_control t then
    let total := foldl Num.add (Fin 0)
                   (map (fun veh => current_speed (vehicles t veh))
                        lane) in
    match Num.div total (Num.of_nat (List.length lane)) with
    | Ok m => mret (Some m)
    | Raise ZeroDivisionError => mret None
    | Raise x => raise x
    end
  else mret None.

(** The body of the inner loop of [calculate_next_state]. *)
Definition calculate_next_state_body (i : Z) (mean : option num)
    (vehicle : ref) : Method unit :=
  p ← read position vehicle;
  leader ← car_in_front i p;
  t ← get;
  lp ← lift (match leader with
             | Some r => Ok (position (vehicles t r))
             | None => Raise AttributeError
             end);
  let leader := default vehicle leader in
  gap ← lift (Num.mod_ (lp - position (vehicles t vehicle))
                       (length t));
  let gap := Num.max (Fin 0) (gap - Agent.length (vehicles t leader)) in
  if negb (bool_decide (leader = vehicle)) then
    call vehicle
      (Agent.calculate_next_state rand gap
         (current_speed (vehicles t leader))
         (acceleration (vehicles t leader))
         (dt t) mean (max_accel t) (speed_push t))
  else
    call vehicle
      (Agent.calculate_next_state rand PInf PInf PInf
         (dt t) mean (max_accel t) (speed_push t)).

(** [calculate_next_state] *)
Definition calculate_next_state : Method unit :=
  t ← get;
  for_each (seq 0 (List.length (lanes_list t))) (fun i =>
    sort_lane (Z.of_nat i);;
    lane ← get_lane (Z.of_nat i);
    mean ← mean_speed_lane lane;
    for_each lane (calculate_next_state_body (Z.of_nat i) mean)).

End Random.

(** [update_state] *)
Definition update_state : Method unit :=
  t ← get;
  for_each (seq 0 (List.length (lanes_list t))) (fun lane_numb =>
    lane ← get_lane (Z.of_nat lane_numb);
    for_each lane (fun vehicle =>
      t ← get;
      call vehicle (Agent.update_state (dt t) (Z.of_nat lane_numb)))).

(** *** The first vehicles of a lane *)

Section Populate.

Variable rand : nat -> num.

(** [np.random.uniform(low, high, n)]: [n] draws of the generator, each
    scaled to the interval. *)
Fixpoint np_random_uniform (low high : num) (n : nat)
    : Method (list num) :=
  match n with
  | O => mret []
  | S n =>
      u ← np_random_rand rand;
      us ← np_random_uniform low high n;
      mret ((low + (high - low) * u)%num :: us)
  end.

(** [np.sort] on floats: ascending, with NaN last. *)
Definition np_lt (a c : num) : bool :=
  (a <? c)%num || (Num.is_nan c && negb (Num.is_nan a)).

Fixpoint np_insert (x : num) (l : list num) : list num :=
  match l with
  | [] => [x]
  | y :: l' => if np_lt x y then x :: y :: l' else y :: np_insert x l'
  end.

Definition np_sort (l : list num) : list num := foldr np_insert [] l.

(** [a += np.arange(len(a)) * 5], from the index [i] on. *)
Fixpoint add_arange (i : nat) (l : list num) : list num :=
  match l with
  | [] => []
  | x :: l' => (x + Num.of_nat i * Fin 5)%num :: add_arange (S i) l'
  end.

(** [populate_lane]: the new vehicle objects, in the order of the list
    returned.  A negative [N] is refused by [np.random.uniform]. *)
Definition populate_lane (N : Z) : Method (list VehicleAgent) :=
  t ← get;
  if N <? 0 then raise ValueError
  else
    let n := Z.to_nat N in
    initial_positions ←
      np_random_uniform (Fin 0) (length t - Num.of_Z N * Fin 5) n;
    let initial_positions := add_arange 0 (np_sort initial_positions) in
    initial_speeds ← np_random_uniform (Fin 0) (Fin 35) n;
    mret (zip_with init_default initial_positions initial_speeds).

End Populate.

End Track.

(** ** [model.py]: the timestep loop of [Model.run] *)

Module Model.

Import Agent.

(** [a // b] and [a % b] on ints: a zero divisor raises. *)
Definition floordiv (a c : Z) : result Z :=
  if c =? 0 then Raise ZeroDivisionError else Ok (a / c).

Definition modulo (a c : Z) : result Z :=
  if c =? 0 then Raise ZeroDivisionError else Ok (a mod c).

(** [prefered_per_lane[i] += 1] for each [i] of [range(n)]. *)
Fixpoint increment_first (n : nat) (i : nat) (l : list Z)
    : result (list Z) :=
  match n with
  | O => Ok l
  | S n =>
      match l !! i with
      | Some x => increment_first n (S i) (<[i := x + 1]> l)
      | None => Raise IndexError
      end
  end.

(** The preferred number of cars per lane under centralized control, as
    [run] computes it from the lanes of the track: the quotient for every
    lane (the division is evaluated once per lane, so not at all without
    lanes), then one more for the first lanes, as many as the remainder. *)
Definition prefered_per_lane (t : Track.Track) : result (list Z) :=
  let total_cars :=
    foldl Z.add 0 (map (fun lane : list ref => Z.of_nat (List.length lane))
                       (Track.lanes_list t)) in
  let n := List.length (Track.lanes_list t) in
  match (match n with
         | O => Ok 0
         | S _ => floordiv total_cars (Track.lanes_count t)
         end) with
  | Raise x => Raise x
  | Ok q =>
      match modulo total_cars (Track.lanes_count t) with
      | Raise x => Raise x
      | Ok r => increment_first (Z.to_nat r) 0 (replicate n q)
      end
  end.

(** The periodic boundary condition on one vehicle; the result is the
    number of crossings it adds. *)
Definition periodic_boundary (road_length : num) : Agent.Method Z :=
  self ← get;
  if (position self >=? road_length)%num then
    modify (set_position (position self - road_length));;
    mret 1
  else mret 0.

(** The loop of [run] over the vehicles after the commit pass; the result
    is the number of crossings. *)
Definition boundary_pass (road_length : num) : Track.Method Z :=
  t ← get;
  crossings ← Track.map_m (concat (Track.lanes_list t)) (fun vehicle =>
    Track.call vehicle (periodic_boundary road_length));
  mret (foldl Z.add 0 crossings).

Section Steps.

Variable rand : nat -> num.
Variable coin : nat -> bool.

(** One round of the loop of [run] over the time steps, for a model with
    the given [lane_count], [central_control] and [road_length]; the
    result is the number of crossings of the round.  The list
    [time_data], which the round extends and nothing here reads, is left
    out. *)
Definition timestep (lane_count : Z) (central_control : bool)
    (road_length : num) (prefered_per_lane : list Z) : Track.Method Z :=
  (* We don't need to run code that won't do anything *)
  (if lane_count >? 1 then
     if central_control then
       Track.lane_switches_central coin prefered_per_lane
     else Track.lane_switches
   else mret tt);;
  Track.calculate_next_state rand;;
  Track.update_state;;
  boundary_pass road_length.

(** [n] rounds of that loop; the result is [total_crossings]. *)
Fixpoint timesteps (n : nat) (lane_count : Z) (central_control : bool)
    (road_length : num) (prefered_per_lane : list Z) : Track.Method Z :=
  match n with
  | O => mret 0
  | S n =>
      crossings ← timestep lane_count central_control road_length
                    prefered_per_lane;
      total ← timesteps n lane_count central_control road_length
                prefered_per_lane;
      mret (crossings + total)
  end.

End Steps.

End Model.

(** ** The statements of the specification *)

Module Spec.

Import Agent.

(** The three actions of the decision tree. *)
Inductive action : Type := Accelerate | Cruise | Decelerate.

Section Arithmetic.

Variable A : Arithmetic.arith.

Local Notation "x ⊕ y" := (Arithmetic.add A x y)
  (at level 50, left associativity).
Local Notation "x ⊖ y" := (Arithmetic.sub A x y)
  (at level 50, left associativity).
Local Notation "x ⊗ y" := (Arithmetic.mul A x y)
  (at level 40, left associativity).

(** The action the specification prescribes, branch by branch; [None]
    where none of its branches applies. *)
Definition decision (self : VehicleAgent) (gap v_L : num)
    : option action :=
  let v_F := current_speed self in
  if (gap <? Fin 6 ⊗ v_F)%num then
    let gap_desire := v_F ⊗ TP self in
    let delta := gap ⊖ gap_desire in
    if (delta >? Fin 0)%num then
      if (v_L >=? v_F)%num || (gap >? Fin 3 ⊗ v_F)%num
      then Some Accelerate
      else if (gap >? Fin 2 ⊗ v_F)%num && (gap >? Fin 7.5)%num
      then Some Cruise
      else Some Decelerate
    else if (delta ==? Fin 0)%num then
      if (v_L >=? v_F)%num then Some Cruise else Some Decelerate
    else if (delta <? Fin 0)%num then
      if (v_L >? v_F)%num then Some Cruise else Some Decelerate
    else None
  else if (gap >=? Fin 6 ⊗ v_F)%num then
    if (v_F <? desired_speed self)%num then Some Accelerate
    else if (v_F ==? desired_speed self)%num then Some Cruise
    else if (v_F >? desired_speed self)%num then Some Decelerate
    else None
  else None.

(** What an action writes to [acceleration]. *)
Definition perform (a : action) (v_L a_L gap : num) : Method unit :=
  self ← get;
  let v_F := current_speed self in
  match a with
  | Accelerate =>
      r ← acceleration_rate v_F; modify (set_acceleration r)
  | Cruise => modify (set_acceleration (Fin 0))
  | Decelerate =>
      r ← decceleration_rate_with A v_F v_L a_L gap (v_F ⊗ TP self);
      modify (set_acceleration r)
  end.

(** The ordered cases of the deceleration rate, first match wins. *)
Definition decceleration_cases (self : VehicleAgent)
    (vF vL aL gap gap_desire : num) : result num :=
  if (vF >? desired_speed self)%num then
    match Arithmetic.div A (vF ⊖ desired_speed self) (Fin 3) with
    | Ok q => Ok (Num.min q (a_normal self))
    | Raise x => Raise x
    end
  else if (gap ==? gap_desire)%num && negb (vL >=? vF)%num then
    match Arithmetic.sqr A vF with
    | Ok x =>
        match Arithmetic.sqr A vL with
        | Ok y => Arithmetic.div A (x ⊖ y) (Fin 2 ⊗ gap)
        | Raise e => Raise e
        end
    | Raise e => Raise e
    end
  else if (gap <? gap_desire)%num && negb (vL >? vF)%num then
    Ok (aL ⊖ Fin 0.25 ⊗ a_normal self)
  else if (gap >? gap_desire)%num && negb (vL >=? vF)%num
          && negb (gap >? Fin 3 ⊗ vF)%num
          && negb ((gap >? Fin 2 ⊗ vF)%num && (gap >? Fin 7.5)%num) then
    match Arithmetic.sqr A (vF ⊖ vL) with
    | Ok x =>
        match Arithmetic.div A x (Fin 2 ⊗ gap) with
        | Ok q => Ok (Num.min (aL ⊕ q) (a_max self))
        | Raise e => Raise e
        end
    | Raise e => Raise e
    end
  else Ok (Fin 0).

End Arithmetic.

(** The attributes a decision step has to leave alone: all of them but
    [acceleration] and [next_speed]. *)
Definition kept (v : VehicleAgent) :=
  (position v, current_speed v, desired_speed v, max_speed v, length v,
   a_normal v, a_max v, b v, TP v, AC v,
   speed_list v, position_list v, lane_list v).

(** The calls a vehicle receives during a run. *)
Inductive op : Type :=
  | Calc (gap leader_speed leader_acceleration dt : num)
         (mean_speed : option num) (max_accel speed_push : num)
  | Update (dt : num) (lane : Z).

Definition run_op (rand : nat -> num) (o : op) : Method unit :=
  match o with
  | Calc gap ls la dt mean ma sp =>
      calculate_next_state rand gap ls la dt mean ma sp
  | Update dt lane => update_state dt lane
  end.

(** The calls are made in order, up to the first that raises. *)
Fixpoint run_ops (rand : nat -> num) (ops : list op) : Method unit :=
  match ops with
  | [] => mret tt
  | o :: ops' => run_op rand o;; run_ops rand ops'
  end.

(** What the calls of [update_state] that returned have committed, in
    order: the speed, the position and the lane. *)
Fixpoint commits (rand : nat -> num) (ops : list op)
    (e : env VehicleAgent) : list (num * num * Z) :=
  match ops with
  | [] => []
  | o :: ops' =>
      match run_op rand o e with
      | (e', Ok _) =>
          match o with
          | Update _ lane =>
              (current_speed (obj e'), position (obj e'), lane)
              :: commits rand ops' e'
          | Calc _ _ _ _ _ _ _ => commits rand ops' e'
          end
      | (_, Raise _) => []
      end
  end.

(** The number of calls of [update_state] among the calls. *)
Definition is_update (o : op) : bool :=
  match o with Update _ _ => true | _ => false end.

Definition updates (ops : list op) : nat :=
  List.length (List.filter is_update ops).

(** The histories hold the one entry they are created with. *)
Definition fresh (v : VehicleAgent) : Prop :=
  speed_list v = [Fin 0] /\ position_list v = [Fin 0] /\ lane_list v = [0].

(** The lanes after the vehicle [veh] has left lane [src] and joined the
    end of lane [dst]. *)
Definition move (veh : ref) (src dst : nat) (ll : list (list ref))
    : list (list ref) :=
  alter (fun l => l ++ [veh]) dst (alter (Track.remove veh) src ll).

(** The lane count of a track is the number of its lanes, as the
    constructor sets them. *)
Definition wf (t : Track.Track) : Prop :=
  Track.lanes_count t = Z.of_nat (List.length (Track.lanes_list t)).

(** The specification's sentence on a missing vehicle: a request with a
    non-zero count for a position at which the source lane holds no
    vehicle ends in an error. *)
Definition raises_when_no_vehicle (t : Track.Track) (lane : Z)
    (position : num) (count : Z) (k : nat) : Prop :=
  count <> 0 ->
  (forall src l veh,
      Track.py_index (List.length (Track.lanes_list t)) lane = Some src ->
      Track.lanes_list t !! src = Some l ->
      veh ∈ l ->
      (Agent.position (Track.vehicles t veh) ==? position)%num = false) ->
  exists x, (Track.switch_lane lane position count (Env t k)).2 = Raise x.

(** The specification's sentence on passing: a leader at least 5 m/s
    slower and closer than [5 * current_speed], with the left switch
    permitted, means move left. *)
Definition passes_slower_leader (heap : ref -> VehicleAgent)
    (self : VehicleAgent) (front : ref) (cars_left cars_right : cars)
    (road_length : num) (k : nat) : Prop :=
  forall (r : bool) (gap : num),
    can_switch_lanes heap cars_left cars_right (Env self k)
    = (Env self k, Ok (true, r)) ->
    Num.mod_ (position (heap front) - position self) road_length = Ok gap ->
    (current_speed (heap front) <=? current_speed self - Fin 5)%num = true ->
    (gap <? Fin 5 * current_speed self)%num = true ->
    traditional_lane_switch heap (Some front) cars_left cars_right
      road_length (Env self k)
    = (Env self k, Ok 1).

(** The trigger of the passing manoeuvre, as the code tests it. *)
Definition slow_and_close (heap : ref -> VehicleAgent)
    (self : VehicleAgent) (front : ref) (gap : num) : bool :=
  (current_speed (heap front) - current_speed self <? Fin (-5.0))%num
  && (gap <? current_speed self * Fin 5.0)%num.

(** The right lane has no leader, or one more than 200 m ahead. *)
Definition right_clear (heap : ref -> VehicleAgent) (self : VehicleAgent)
    (cars_right : cars) (road_length : num) : bool :=
  match cars_right with
  | Some (None, _) => true
  | Some (Some fr, _) =>
      match Num.mod_ (position (heap fr) - position self) road_length with
      | Ok gap_fr => (gap_fr >? Fin 200)%num
      | Raise _ => false
      end
  | None => false
  end.

(** The specification's sentence on yielding: when the vehicle does not
    move left, a permitted right switch into a lane that is clear means
    move right. *)
Definition yields_right (heap : ref -> VehicleAgent)
    (self : VehicleAgent) (front : ref) (cars_left cars_right : cars)
    (road_length : num) (k : nat) : Prop :=
  forall l : bool,
    can_switch_lanes heap cars_left cars_right (Env self k)
    = (Env self k, Ok (l, true)) ->
    right_clear heap self cars_right road_length = true ->
    traditional_lane_switch heap (Some front) cars_left cars_right
      road_length (Env self k)
    <> (Env self k, Ok 1) ->
    traditional_lane_switch heap (Some front) cars_left cars_right
      road_length (Env self k)
    = (Env self k, Ok (-1)).

(** The intent: [1] to the left, [-1] to the right, [0] to stay. *)
Definition intent (slow_close can_go_left can_go_right clear : bool) : Z :=
  if slow_close then (if can_go_left then 1 else 0)
  else if can_go_right && clear then -1
  else 0.

(** *** The two-phase readings of the passes *)

Section Reference.

Import Track.

Variable rand : nat -> num.

(** The states of the vehicles at the start of the pass. *)
Variable snapshot : ref -> VehicleAgent.

(** Whether the acceleration of the leader is read from the snapshot, or
    from the vehicle as it is now. *)
Variable snapshot_acceleration : bool.

(** The decision step of one vehicle, the speed of its leader read from
    the snapshot. *)
Definition decision_body (i : Z) (mean : option num) (vehicle : ref)
    : Track.Method unit :=
  p ← read position vehicle;
  leader ← car_in_front i p;
  t ← get;
  lp ← lift (match leader with
             | Some r => Ok (position (vehicles t r))
             | None => Raise AttributeError
             end);
  let leader := default vehicle leader in
  gap ← lift (Num.mod_ (lp - position (vehicles t vehicle))
                       (Track.length t));
  let gap := Num.max (Fin 0) (gap - Agent.length (vehicles t leader)) in
  let leader_speed := current_speed (snapshot leader) in
  let leader_acceleration :=
    if snapshot_acceleration then acceleration (snapshot leader)
    else acceleration (vehicles t leader) in
  if negb (bool_decide (leader = vehicle)) then
    call vehicle
      (Agent.calculate_next_state rand gap leader_speed
         leader_acceleration (dt t) mean (max_accel t) (speed_push t))
  else
    call vehicle
      (Agent.calculate_next_state rand PInf PInf PInf
         (dt t) mean (max_accel t) (speed_push t)).

Definition decision_loops : Track.Method unit :=
  t ← get;
  for_each (seq 0 (List.length (lanes_list t))) (fun i =>
    sort_lane (Z.of_nat i);;
    lane ← get_lane (Z.of_nat i);
    mean ← mean_speed_lane lane;
    for_each lane (decision_body (Z.of_nat i) mean)).

End Reference.

(** The decision pass in two phases: the snapshot is taken, then every
    vehicle decides on what the snapshot says of its leader. *)
Definition two_phase_decisions (rand : nat -> num)
    (snapshot_acceleration : bool) : Track.Method unit :=
  t ← get;
  decision_loops rand (Track.vehicles t) snapshot_acceleration.

(** Two runs of a pass that end alike. *)
Definition same_outcome (o1 o2 : env Track.Track * result unit) : Prop :=
  o1.2 = o2.2
  /\ Track.lanes_list (obj o1.1) = Track.lanes_list (obj o2.1)
  /\ forall r, Track.vehicles (obj o1.1) r = Track.vehicles (obj o2.1) r.

(** The specification's sentence on the decision pass: leader speed and
    leader acceleration both come from the snapshot. *)
Definition reads_snapshot (rand : nat -> num) (t : Track.Track) (k : nat)
    : Prop :=
  same_outcome (Track.calculate_next_state rand (Env t k))
               (two_phase_decisions rand true (Env t k)).

(** The lane changes in two phases: every lane is sorted and every
    vehicle decides, no vehicle being moved; then the decisions are
    applied, one per vehicle. *)
Definition lane_switches_two_phase : Track.Method unit :=
  t ← get;
  decisions ← Track.map_m (seq 0 (List.length (Track.lanes_list t)))
    (fun i =>
       Track.sort_lane (Z.of_nat i);;
       lane ← Track.get_lane (Z.of_nat i);
       Track.map_m lane (fun vehicle =>
         count ← Track.lane_switches_count (Z.of_nat i) vehicle;
         p ← Track.read position vehicle;
         mret (Z.of_nat i, p, count)));
  Track.for_each (concat decisions) (fun d =>
    Track.switch_lane d.1.1 d.1.2 d.2).

(** The specification's sentence on the lane-change pass, first part: the
    pass ends as the two-phase pass does. *)
Definition decides_on_snapshot (t : Track.Track) (k : nat) : Prop :=
  same_outcome (Track.lane_switches (Env t k))
               (lane_switches_two_phase (Env t k)).

(** Second part: no vehicle is moved twice; as a move is by one lane, no
    vehicle ends more than one lane from where it started. *)
Definition moved_at_most_once (t : Track.Track) (k : nat) : Prop :=
  forall (veh : ref) (i j : nat) (l l' : list ref),
    Track.lanes_list t !! i = Some l -> veh ∈ l ->
    Track.lanes_list (obj (Track.lane_switches (Env t k)).1) !! j = Some l' ->
    veh ∈ l' ->
    (i <= j + 1 /\ j <= i + 1)%nat.

(** What a pass over the lanes may change of a track: the order of the
    vehicles within the lanes and their distribution over the lanes. *)
Definition rearranged (t t' : Track.Track) : Prop :=
  Track.lanes_count t' = Track.lanes_count t
  /\ Track.length t' = Track.length t
  /\ Track.dt t' = Track.dt t
  /\ Track.central_control t' = Track.central_control t
  /\ Track.max_accel t' = Track.max_accel t
  /\ Track.speed_push t' = Track.speed_push t
  /\ (forall r, Track.vehicles t' r = Track.vehicles t r)
  /\ List.length (Track.lanes_list t') = List.length (Track.lanes_list t)
  /\ Permutation (concat (Track.lanes_list t'))
                 (concat (Track.lanes_list t)).

(** One vehicle has moved, by one lane, or nothing has. *)
Definition one_move (i : Z) (ll ll' : list (list ref)) : Prop :=
  ll' = ll
  \/ exists (veh : ref) (src dst : nat) (l : list ref),
      Z.of_nat src = i
      /\ (Z.of_nat dst = i + 1 \/ Z.of_nat dst = i - 1)
      /\ ll !! src = Some l /\ veh ∈ l /\ (dst < List.length ll)%nat
      /\ ll' = move veh src dst ll.

(** The intent is one of [-1], [0] and [1]. *)
Definition is_intent (c : Z) : Prop := c = 0 \/ c = 1 \/ c = -1.

(** The vehicles are, but for [acceleration] and [next_speed], as in the
    snapshot. *)
Definition agrees (snapshot : ref -> VehicleAgent) (t : Track.Track)
    : Prop :=
  forall r, kept (Track.vehicles t r) = kept (snapshot r).

(** The tracks a pass can reach from the well-formed track [t0]. *)
Definition reached (t0 t : Track.Track) : Prop :=
  wf t /\ rearranged t0 t.

(** The decision pass of a road whose lane [i] holds the vehicle [r]
    alone, as the specification has it: the round of lane [i] is one
    call of [calculate_next_state] of that vehicle, with an infinite gap,
    leader speed and leader acceleration; the rounds of the other lanes
    are those of the code. *)
Definition lone_vehicle_pass (rand : nat -> num) (i : nat) (r : ref)
    : Track.Method unit :=
  t ← get;
  Track.for_each (seq 0 (List.length (Track.lanes_list t))) (fun j =>
    if (j =? i)%nat then
      mean ← Track.mean_speed_lane [r];
      t ← get;
      Track.call r
        (Agent.calculate_next_state rand PInf PInf PInf
           (Track.dt t) mean (Track.max_accel t) (Track.speed_push t))
    else
      Track.sort_lane (Z.of_nat j);;
      lane ← Track.get_lane (Z.of_nat j);
      mean ← Track.mean_speed_lane lane;
      Track.for_each lane
        (Track.calculate_next_state_body rand (Z.of_nat j) mean)).

End Spec.

(** ** Predicates on computations *)

Module Logic.

Import Agent.

(** A computation that only reads. *)
Definition pure {St A} (m : M St A) : Prop := forall e, (m e).1 = e.

(** From a state in [P] the computation returns a value and a state in
    [Q], or raises in a state in [E]. *)
Definition triple {St A} (P : St -> Prop) (m : M St A)
    (Q : A -> St -> Prop) (E : St -> Prop) : Prop :=
  forall e, P (obj e) ->
    match m e with
    | (e', Ok a) => Q a (obj e')
    | (e', Raise _) => E (obj e')
    end.

(** A computation that leaves the kept attributes alone, whether it
    returns or raises. *)
Definition keeps {A} (m : Method A) : Prop :=
  forall e, Spec.kept (obj (m e).1) = Spec.kept (obj e).

(** A computation after which [next_speed] is set, once it was. *)
Definition staged (v : VehicleAgent) : Prop := is_Some (next_speed v).

Definition stages {A} (m : Method A) : Prop :=
  forall e, staged (obj e) -> staged (obj (m e).1).

(** A computation that has set [next_speed] whenever it returns. *)
Definition lands {A} (m : Method A) : Prop :=
  forall e a, (m e).2 = Ok a -> staged (obj (m e).1).

(** The three histories of a vehicle, and their extension by commits. *)
Definition lists (v : VehicleAgent) : list num * list num * list Z :=
  (speed_list v, position_list v, lane_list v).

Definition extend (l : list num * list num * list Z)
    (cs : list (num * num * Z)) : list num * list num * list Z :=
  (l.1.1 ++ map (fun c => c.1.1) cs,
   l.1.2 ++ map (fun c => c.1.2) cs,
   l.2 ++ map snd cs).

End Logic.

(** ** Further predicates *)

Module Inv.

Import Agent.

(** A computation that draws at most [n] random numbers. *)
Definition draws {St A} (n : nat) (m : M St A) : Prop :=
  forall e, (cursor e <= cursor (m e).1 <= cursor e + n)%nat.

(** What the commit leaves alone: the parameters of the vehicle, its
    last decision and the staged speed. *)
Definition settings (v : VehicleAgent) :=
  (desired_speed v, max_speed v, length v, a_normal v, a_max v, b v, TP v,
   AC v, acceleration v, next_speed v).

(** The intent of the greedy policy. *)
Definition greedy_intent (slow_close can_go_left can_go_right : bool) : Z :=
  if slow_close then
    if can_go_left then 1 else if can_go_right then -1 else 0
  else 0.

(** A vehicle for which a decision step has staged a speed. *)
Definition has_next_speed (v : VehicleAgent) : bool :=
  match next_speed v with
  | Some _ => true
  | None => false
  end.

(** Every vehicle of every lane has a staged speed. *)
Definition all_staged (t : Track.Track) : bool :=
  forallb (forallb (fun r => has_next_speed (Track.vehicles t r)))
          (Track.lanes_list t).

(** What the commit pass leaves alone: the lanes, the parameters of the
    track, and the settings of every vehicle. *)
Definition commit_frame (t t' : Track.Track) : Prop :=
  Track.lanes_list t' = Track.lanes_list t
  /\ Track.lanes_count t' = Track.lanes_count t
  /\ Track.length t' = Track.length t
  /\ Track.dt t' = Track.dt t
  /\ Track.central_control t' = Track.central_control t
  /\ Track.max_accel t' = Track.max_accel t
  /\ Track.speed_push t' = Track.speed_push t
  /\ forall r, settings (Track.vehicles t' r) = settings (Track.vehicles t r).

(** A lane in which no vehicle compares below the one listed before
    it. *)
Definition ordered (h : ref -> VehicleAgent) (l : list ref) : Prop :=
  Sorted (fun x y => Track.lt h y x = false) l.

(** A side of a vehicle as [closest_cars_sides] describes it: no lane,
    an empty lane, or a lane with a leader and a follower. *)
Definition side_shape (c : cars) : Prop :=
  match c with
  | Some (Some _, None) | Some (None, Some _) => False
  | _ => True
  end.

(** A road on which vehicles can be compared and gaps computed: the lane
    count is the number of lanes, the length is not zero, and no position
    is NaN. *)
Definition drivable (t : Track.Track) : Prop :=
  Track.lanes_count t = Z.of_nat (List.length (Track.lanes_list t))
  /\ (Track.length t ==? Fin 0)%num = false
  /\ forall r, Num.is_nan (position (Track.vehicles t r)) = false.

(** A real number of the closed interval from [lo] to [hi]. *)
Definition real_between (lo hi : Q) (x : num) : Prop :=
  exists q : Q, x = Fin q /\ (lo <= q <= hi)%Q.

(** The generator returns numbers of [[0, 1)]. *)
Definition unit_draws (rand : nat -> num) : Prop :=
  forall j : nat, exists u : Q, rand j = Fin u /\ (0 <= u < 1)%Q.

(** A vehicle whose numbers are real: a position, a speed that is not
    negative, a desired speed, a maximum speed and a noise coefficient
    that are not negative, a positive [a_max] and a headway [TP] of one
    at least. *)
Definition healthy_numbers (p c d m a bq tp : num) : bool :=
  Num.is_fin p
  && (Num.is_fin c && (Fin 0 <=? c)%num)
  && Num.is_fin d
  && (Num.is_fin m && (Fin 0 <=? m)%num)
  && (Num.is_fin a && (Fin 0 <? a)%num)
  && (Num.is_fin bq && (Fin 0 <=? bq)%num)
  && (Num.is_fin tp && (Fin 1 <=? tp)%num).

(** A speed whose square is well within the floats. *)
Definition speed_limit : Q := inject_Z (10 ^ 150).

(** The speed and the maximum speed of the vehicle are at most [w]. *)
Definition below (w : Q) (v : VehicleAgent) : bool :=
  (current_speed v <=? Fin w)%num && (max_speed v <=? Fin w)%num.

Definition healthy_vehicle (w : Q) (v : VehicleAgent) : bool :=
  healthy_numbers (position v) (current_speed v) (desired_speed v)
    (max_speed v) (a_max v) (b v) (TP v)
  && below w v.

(** A staged speed that is a real number, not negative and at most
    [w]. *)
Definition good_next (w : Q) (v : VehicleAgent) : bool :=
  match next_speed v with
  | Some s => Num.is_fin s && (Fin 0 <=? s)%num && (s <=? Fin w)%num
  | None => false
  end.

(** A mean speed as the decision pass computes it: none, or a real
    number that is not negative and at most [w]. *)
Definition mean_ok (w : Q) (mean : option num) : Prop :=
  mean = None
  \/ exists mu : Q, mean = Some (Fin mu) /\ (0 <= mu)%Q /\ (mu <= w)%Q.

(** A road on which a time step can run: the lane count is the number
    of lanes, the length is a real number other than zero, the time step
    is a real number, [max_accel] and [speed_push] are real numbers that
    are not negative, and every vehicle is healthy, with speeds of at
    most [w]. *)
Definition healthy (w : Q) (t : Track.Track) : Prop :=
  Track.lanes_count t = Z.of_nat (List.length (Track.lanes_list t))
  /\ Num.is_fin (Track.length t) = true
  /\ (Track.length t ==? Fin 0)%num = false
  /\ Num.is_fin (Track.dt t) = true
  /\ Num.is_fin (Track.max_accel t) && (Fin 0 <=? Track.max_accel t)%num
     = true
  /\ Num.is_fin (Track.speed_push t) && (Fin 0 <=? Track.speed_push t)%num
     = true
  /\ forall r, healthy_vehicle w (Track.vehicles t r) = true.

(** A healthy road with the lane count, the length and the [speed_push]
    of [t0]. *)
Definition healthy_from (w : Q) (t0 t : Track.Track) : Prop :=
  healthy w t
  /\ Track.lanes_count t = Track.lanes_count t0
  /\ Track.length t = Track.length t0
  /\ Track.speed_push t = Track.speed_push t0.

(** A road of two lanes for the examples: in lane 0 a vehicle at 400 m
    listed before one at 100 m, in lane 1 a vehicle at 50 m. *)
Definition two_lanes : Track.Track :=
  Track.set_lanes_list [[1%nat; 0%nat]; [2%nat]]
    (Track.init 2 (Fin 2000) (Fin 1) false (Fin 1) (Fin 0.5)
       (fun r : ref =>
          match r with
          | O => init_default (Fin 100) (Fin 25)
          | S O => init_default (Fin 400) (Fin 20)
          | _ => init_default (Fin 50) (Fin 30)
          end)).

(** Lane [i] of the road holds the vehicle [r] alone, and the road has a
    length other than zero. *)
Definition lone (i : nat) (r : ref) (t : Track.Track) : Prop :=
  Track.lanes_list t !! i = Some [r]
  /\ (Track.length t ==? Fin 0)%num = false.

End Inv.

(** * Properties *)

(** ** Numbers *)

Lemma Qle_bool_sub_l (x y : Q) : Qle_bool 0 (x + - y) = Qle_bool y x.
Proof.
  apply eq_true_iff_eq. rewrite !Qle_bool_iff. split; intros; lra.
Qed.

Lemma Qle_bool_sub_r (x y : Q) : Qle_bool (x + - y) 0 = Qle_bool x y.
Proof.
  apply eq_true_iff_eq. rewrite !Qle_bool_iff. split; intros; lra.
Qed.

Lemma Qeq_bool_sub (x y : Q) : Qeq_bool (x + - y) 0 = Qeq_bool x y.
Proof.
  apply eq_true_iff_eq. rewrite !Qeq_bool_iff. split; intros; lra.
Qed.

Lemma Qle_bool_total (x y : Q) : Qle_bool x y = false -> Qle_bool y x = true.
Proof.
  intros H. apply Qle_bool_iff.
  destruct (Qlt_le_dec x y) as [Hlt | Hle]; [| exact Hle].
  apply Qlt_le_weak in Hlt. apply Qle_bool_iff in Hlt. congruence.
Qed.

Lemma Qeq_bool_le (x y : Q) :
  Qeq_bool x y = Qle_bool x y && Qle_bool y x.
Proof.
  apply eq_true_iff_eq.
  rewrite andb_true_iff, !Qle_bool_iff, Qeq_bool_iff.
  split; [intros | intros []]; try split; lra.
Qed.

(** Comparing a difference with zero compares its terms, but for the
    difference of two equal infinities. *)
Lemma sub_ltb_0 (a : num) (y : Q) :
  (a - Fin y <? Fin 0)%num = (a <? Fin y)%num.
Proof.
  destruct a as [x | | |]; simpl; try reflexivity.
  now rewrite Qle_bool_sub_l.
Qed.

Lemma sub_gtb_0 (a : num) (y : Q) :
  (a - Fin y >? Fin 0)%num = (a >? Fin y)%num.
Proof.
  destruct a as [x | | |]; simpl; try reflexivity.
  unfold Num.gtb; simpl. now rewrite Qle_bool_sub_r.
Qed.

Lemma sub_eqb_0 (a : num) (y : Q) :
  (a - Fin y ==? Fin 0)%num = (a ==? Fin y)%num.
Proof.
  destruct a as [x | | |]; simpl; try reflexivity.
  now rewrite Qeq_bool_sub.
Qed.

(** Two numbers that are not [NaN] compare one way or the other. *)
Lemma num_trichotomy (a c : num) :
  Num.is_nan a = false -> Num.is_nan c = false ->
  (a <? c)%num = false -> (a ==? c)%num = false -> (a >? c)%num = true.
Proof.
  destruct a as [x | | |], c as [y | | |]; simpl; try congruence.
  unfold Num.gtb; simpl. intros _ _ H1 H2.
  apply negb_false_iff in H1.
  rewrite Qeq_bool_le, H1, andb_true_r in H2. now rewrite H2.
Qed.

Lemma num_ltb_geb (a c : num) :
  Num.is_nan a = false -> Num.is_nan c = false ->
  (a <? c)%num = false -> (a >=? c)%num = true.
Proof.
  destruct a as [x | | |], c as [y | | |]; simpl; try congruence.
  unfold Num.geb; simpl. intros _ _ H. now apply negb_false_iff in H.
Qed.

(** ** The decision model of a vehicle *)

Import Logic.

Ltac run_method :=
  unfold py_assert, mbind, M_bind, mret, M_ret, lift, get, modify, raise;
  cbn [obj cursor fst snd].

Ltac exact_arith :=
  cbn [Arithmetic.add Arithmetic.sub Arithmetic.mul Arithmetic.div
       Arithmetic.sqr Arithmetic.exact].

Ltac unfold_decision :=
  unfold Agent.compute_decision, Agent.car_following, Agent.free_flow,
    Agent.deccelerate, Agent.decceleration_rate;
  unfold Agent.compute_decision_with, Agent.car_following_with,
    Agent.free_flow_with, Agent.deccelerate_with,
    Agent.decceleration_rate_with;
  exact_arith.

Ltac fold_decceleration_rate :=
  repeat match goal with
         | |- context [Agent.decceleration_rate_with Arithmetic.exact
                         ?vF ?vL ?aL ?gap ?gd] =>
             change (Agent.decceleration_rate_with Arithmetic.exact
                       vF vL aL gap gd)
               with (Agent.decceleration_rate vF vL aL gap gd)
         end.

Section Decision.

Import Agent.

Lemma sub_sign_true (A : Arithmetic.arith) (x y : num) :
  Arithmetic.sub_sign A x y = true ->
  (Arithmetic.sub A x y <? Fin 0)%num = (x <? y)%num
  /\ (Arithmetic.sub A x y ==? Fin 0)%num = (x ==? y)%num
  /\ (Arithmetic.sub A x y >? Fin 0)%num = (x >? y)%num.
Proof.
  unfold Arithmetic.sub_sign. rewrite !andb_true_iff.
  intros [[H1 H2] H3]. apply eqb_prop in H1, H2, H3. auto.
Qed.

(** In the arithmetic of [Num] a difference with a real number has the
    sign of the comparison. *)
Lemma sub_sign_exact (x : num) (y : Q) :
  Arithmetic.sub_sign Arithmetic.exact x (Fin y) = true.
Proof.
  unfold Arithmetic.sub_sign. exact_arith.
  now rewrite sub_ltb_0, sub_eqb_0, sub_gtb_0, !eqb_reflx.
Qed.



(** The action of the tree is the one [compute_decision] takes. *)
Lemma compute_decision_performs (A : Arithmetic.arith)
    (self : VehicleAgent) (gap v_L a_L : num) (k : nat) :
  Num.is_nan gap = false ->
  Num.is_nan (current_speed self) = false ->
  Num.is_nan (desired_speed self) = false ->
  Num.is_nan (Arithmetic.mul A (Fin 6) (current_speed self)) = false ->
  Num.is_nan (Arithmetic.sub A gap
                (Arithmetic.mul A (current_speed self) (TP self))) = false ->
  Arithmetic.sub_sign A (current_speed self) (desired_speed self) = true ->
  exists a : Spec.action,
    Spec.decision A self gap v_L = Some a
    /\ compute_decision_with A gap v_L a_L (Env self k)
       = Spec.perform A a v_L a_L gap (Env self k).
Proof.
  intros Hgap Hv Hd Hsix Hdelta Hsign.
  destruct (sub_sign_true A _ _ Hsign) as (Hlt & Heq & Hgt).
  unfold compute_decision_with, Spec.decision, Spec.perform. run_method.
  destruct (gap <? Arithmetic.mul A (Fin 6) (current_speed self))%num
    eqn:Hnear;
    unfold car_following_with, free_flow_with, accelerate, cruise,
      deccelerate_with;
    run_method.
  + destruct (Arithmetic.sub A gap _ >? Fin 0)%num eqn:Hpos.
    { destruct (v_L >=? current_speed self)%num;
        [now exists Spec.Accelerate |].
      destruct (gap >? Arithmetic.mul A (Fin 3) (current_speed self))%num;
        [now exists Spec.Accelerate |].
      destruct ((gap >? Arithmetic.mul A (Fin 2) (current_speed self))%num
                && (gap >? Fin 7.5)%num);
        [now exists Spec.Cruise | now exists Spec.Decelerate]. }
    destruct (Arithmetic.sub A gap _ ==? Fin 0)%num eqn:Hzero.
    { destruct (v_L >=? current_speed self)%num;
        [now exists Spec.Cruise | now exists Spec.Decelerate]. }
    destruct (Arithmetic.sub A gap _ <? Fin 0)%num eqn:Hneg.
    { destruct (v_L >? current_speed self)%num;
        [now exists Spec.Cruise | now exists Spec.Decelerate]. }
    pose proof (num_trichotomy _ (Fin 0) Hdelta eq_refl Hneg Hzero).
    congruence.
  + rewrite (num_ltb_geb gap _ Hgap Hsix Hnear).
    rewrite Hlt, Heq, Hgt.
    destruct (current_speed self <? desired_speed self)%num eqn:Hlt';
      [now exists Spec.Accelerate |].
    destruct (current_speed self ==? desired_speed self)%num eqn:Heq';
      [now exists Spec.Cruise |].
    rewrite (num_trichotomy _ _ Hv Hd Hlt' Heq').
    now exists Spec.Decelerate.
Qed.

Lemma sub_fin_not_nan (a : num) (y : Q) :
  Num.is_nan a = false -> Num.is_nan (a - Fin y) = false.
Proof. now destruct a. Qed.

(** In the arithmetic of [Num]: real speed, headway and desired speed,
    and a gap that is a number. *)
Lemma compute_decision_performs_exact (self : VehicleAgent)
    (gap v_L a_L : num) (k : nat) :
  Num.is_fin (current_speed self) = true ->
  Num.is_fin (TP self) = true ->
  Num.is_fin (desired_speed self) = true ->
  Num.is_nan gap = false ->
  exists a : Spec.action,
    Spec.decision Arithmetic.exact self gap v_L = Some a
    /\ compute_decision gap v_L a_L (Env self k)
       = Spec.perform Arithmetic.exact a v_L a_L gap (Env self k).
Proof.
  intros Hv Htp Hd Hgap.
  destruct (current_speed self) as [c | | |] eqn:Ec; try discriminate.
  destruct (TP self) as [tp | | |] eqn:Etp; try discriminate.
  destruct (desired_speed self) as [d | | |] eqn:Ed; try discriminate.
  apply compute_decision_performs; rewrite ?Ec, ?Etp, ?Ed; exact_arith;
    try reflexivity; try assumption.
  - now apply sub_fin_not_nan.
  - apply sub_sign_exact.
Qed.

(** The two regimes of [acceleration_rate]. *)
Lemma acceleration_rate_regimes (c : Q) (e : env VehicleAgent) :
  acceleration_rate (Fin c) e
  = (e, Ok (if Qle_bool c 12.19 then Fin 1.1 else Fin 0.37)).
Proof.
  unfold acceleration_rate, Num.gtb, Num.leb, Num.ltb.
  now destruct (Qle_bool c 12.19).
Qed.

Lemma div_ok (a : num) (y : Q) :
  ~ (y == 0)%Q -> exists q, Num.div a (Fin y) = Ok q.
Proof.
  intros Hy. unfold Num.div.
  destruct (Qeq_bool y 0) eqn:H; [| eexists; reflexivity].
  now apply Qeq_bool_iff in H.
Qed.

(** A square within the floats. *)
Lemma sqr_ok (x : Q) :
  (x * x <= Num.float_max)%Q -> Num.sqr (Fin x) = Ok (Fin (x * x)).
Proof.
  intros H. unfold Num.sqr. apply Qle_bool_iff in H. now rewrite H.
Qed.

(** A leader that is not at least as fast is a real number below. *)
Lemma slower_leader (v_L : num) (c : Q) :
  v_L = PInf \/ (exists vl, v_L = Fin vl /\ (0 <= vl)%Q) ->
  (v_L >=? Fin c)%num = false ->
  exists vl, v_L = Fin vl /\ (0 <= vl)%Q /\ (vl < c)%Q.
Proof.
  intros [-> | (vl & -> & Hvl)]; [discriminate |].
  unfold Num.geb. simpl. intros H. exists vl. repeat split; try assumption.
  destruct (Qlt_le_dec vl c) as [Hlt | Hle]; [exact Hlt |].
  apply Qle_bool_iff in Hle. congruence.
Qed.

(** [decceleration_rate] returns when the vehicle is above its desired
    speed; and when the gap is a real number, the desired gap a positive
    one, the square of the speed is within the floats and the leader
    does not drive backwards: no quotient then has a zero divisor and no
    square overflows. *)
Lemma decceleration_rate_returns (self : VehicleAgent) (c d : Q)
    (v_L a_L gap gap_desire : num) (k : nat) :
  desired_speed self = Fin d ->
  (Fin c >? Fin d)%num = true
  \/ ((exists g y, gap = Fin g /\ gap_desire = Fin y /\ (0 < y)%Q)
      /\ (0 <= c)%Q /\ (c * c <= Num.float_max)%Q
      /\ (v_L = PInf \/ (exists vl, v_L = Fin vl /\ (0 <= vl)%Q))) ->
  exists r,
    decceleration_rate (Fin c) v_L a_L gap gap_desire (Env self k)
    = (Env self k, Ok r).
Proof.
  intros Ed H. unfold_decision. run_method. rewrite Ed.
  destruct (Fin c >? Fin d)%num eqn:Hover.
  { eexists. reflexivity. }
  destruct H as [H | ((g & y & -> & -> & Hy) & Hc & Hcc & HvL)];
    [discriminate |].
  destruct ((Fin g - Fin y ==? Fin 0)%num && _) eqn:H2.
  { apply andb_true_iff in H2 as [H2 Hslow]. simpl in H2.
    apply Qeq_bool_iff in H2. apply negb_true_iff in Hslow.
    destruct (slower_leader v_L c HvL Hslow) as (vl & -> & Hvl & Hlt).
    rewrite (sqr_ok c Hcc), (sqr_ok vl) by nra.
    destruct (div_ok (Fin (c * c) - Fin (vl * vl)) (2 * g)) as [q Hq];
      [lra |].
    change (Fin 2 * Fin g)%num with (Fin (2 * g)). rewrite Hq.
    eexists. reflexivity. }
  destruct ((Fin g - Fin y <? Fin 0)%num && _).
  { eexists. reflexivity. }
  destruct ((Fin g - Fin y >? Fin 0)%num && _ && _ && _) eqn:H4;
    [| eexists; reflexivity].
  apply andb_true_iff in H4 as [H4 _]. apply andb_true_iff in H4 as [H4 _].
  apply andb_true_iff in H4 as [H4 Hslow]. apply negb_true_iff in Hslow.
  destruct (slower_leader v_L c HvL Hslow) as (vl & -> & Hvl & Hlt).
  unfold Num.gtb in H4. simpl in H4. apply negb_true_iff in H4.
  assert (Hg : ~ (2 * g == 0)%Q).
  { intros Hz. assert (Hle : (g + - y <= 0)%Q) by lra.
    apply Qle_bool_iff in Hle. congruence. }
  change (Fin c - Fin vl)%num with (Fin (c + - vl)).
  rewrite sqr_ok by nra.
  destruct (div_ok (Fin ((c + - vl) * (c + - vl))) (2 * g) Hg) as [q Hq].
  change (Fin 2 * Fin g)%num with (Fin (2 * g)). rewrite Hq.
  eexists. reflexivity.
Qed.

(** Where the tree says decelerate the deceleration rate is defined. *)
Lemma decelerate_defined (self : VehicleAgent) (gap v_L : num)
    (c tp d : Q) :
  current_speed self = Fin c -> (0 <= c)%Q ->
  TP self = Fin tp -> (0 < tp)%Q ->
  desired_speed self = Fin d ->
  gap = PInf \/ (exists g, gap = Fin g /\ (0 <= g)%Q) ->
  Spec.decision Arithmetic.exact self gap v_L = Some Spec.Decelerate ->
  (Fin c >? Fin d)%num = true
  \/ (exists g y, gap = Fin g /\ (Fin c * Fin tp)%num = Fin y /\ (0 < y)%Q).
Proof.
  intros Ec Hc Etp Htp Ed Hgap. unfold Spec.decision. exact_arith.
  rewrite Ec, Etp, Ed.
  destruct (gap <? Fin 6 * Fin c)%num eqn:Hnear.
  - intros _. right.
    destruct Hgap as [-> | (g & -> & Hg)]; [discriminate |].
    exists g, (c * tp)%Q. repeat split.
    simpl in Hnear. apply negb_true_iff in Hnear.
    assert (Hpos : (0 < c)%Q).
    { destruct (Qlt_le_dec 0 c) as [H | H]; [exact H |].
      assert (Hle : (6 * c <= g)%Q) by lra.
      apply Qle_bool_iff in Hle. congruence. }
    now apply Qmult_lt_0_compat.
  - destruct (gap >=? Fin 6 * Fin c)%num; [| discriminate].
    destruct (Fin c <? Fin d)%num; [discriminate |].
    destruct (Fin c ==? Fin d)%num; [discriminate |].
    destruct (Fin c >? Fin d)%num; [now left | discriminate].
Qed.

(** On a vehicle with a speed that is not negative and whose square is
    within the floats, and a positive headway, for a gap that is not
    negative or infinite and a leader that does not drive backwards,
    [compute_decision] returns and has written [acceleration]. *)
Lemma compute_decision_returns (self : VehicleAgent) (gap v_L a_L : num)
    (k : nat) (c tp d : Q) :
  current_speed self = Fin c -> (0 <= c)%Q ->
  (c * c <= Num.float_max)%Q ->
  TP self = Fin tp -> (0 < tp)%Q ->
  desired_speed self = Fin d ->
  gap = PInf \/ (exists g, gap = Fin g /\ (0 <= g)%Q) ->
  v_L = PInf \/ (exists vl, v_L = Fin vl /\ (0 <= vl)%Q) ->
  exists a,
    compute_decision gap v_L a_L (Env self k)
    = (Env (set_acceleration a self) k, Ok tt).
Proof.
  intros Ec Hc Hcc Etp Htp Ed Hgap HvL.
  destruct (compute_decision_performs_exact self gap v_L a_L k)
    as (act & Hact & ->).
  { now rewrite Ec. } { now rewrite Etp. } { now rewrite Ed. }
  { destruct Hgap as [-> | (g & -> & _)]; reflexivity. }
  unfold Spec.perform. run_method. rewrite Ec.
  fold_decceleration_rate.
  destruct act.
  - rewrite acceleration_rate_regimes. eexists. reflexivity.
  - eexists. reflexivity.
  - destruct (decelerate_defined self gap v_L c tp d Ec Hc Etp Htp Ed
                Hgap Hact) as [H | (g & y & Hg & Hy & Hpos)].
    + destruct (decceleration_rate_returns self c d v_L a_L gap
                  (Arithmetic.mul Arithmetic.exact (Fin c) (TP self)) k Ed
                  (or_introl H)) as [r ->].
      eexists. reflexivity.
    + rewrite Etp. exact_arith.
      destruct (decceleration_rate_returns self c d v_L a_L gap
                  (Fin c * Fin tp) k Ed) as [r ->].
      { right. split; [| now repeat split]. now exists g, y. }
      eexists. reflexivity.
Qed.



End Decision.

(** ** What a decision step writes *)

Section Frame.

Import Agent.


Lemma keeps_ret {A} (a : A) : keeps (mret a).
Proof. intros e. reflexivity. Qed.

Lemma keeps_raise {A} (x : exn) : keeps (raise x : Method A).
Proof. intros e. reflexivity. Qed.

Lemma keeps_lift {A} (r : result A) : keeps (lift r).
Proof. intros e. reflexivity. Qed.

Lemma keeps_get : keeps get.
Proof. intros e. reflexivity. Qed.

Lemma keeps_rand (rand : nat -> num) : keeps (np_random_rand rand).
Proof. intros e. reflexivity. Qed.

Lemma keeps_modify (f : VehicleAgent -> VehicleAgent) :
  (forall v, Spec.kept (f v) = Spec.kept v) -> keeps (modify f).
Proof. intros Hf e. apply Hf. Qed.

Lemma keeps_bind {A B} (m : Method A) (k : A -> Method B) :
  keeps m -> (forall a, keeps (k a)) -> keeps (m ≫= k).
Proof.
  intros Hm Hk e. unfold mbind, M_bind.
  specialize (Hm e). destruct (m e) as [e' [a | x]]; [| exact Hm].
  rewrite (Hk a e'). exact Hm.
Qed.

Ltac keeps_step :=
  first
    [ apply keeps_ret | apply keeps_raise | apply keeps_lift
    | apply keeps_get | apply keeps_rand
    | apply keeps_modify; intros; reflexivity
    | apply keeps_bind; [| intros ]
    | match goal with
      | |- keeps (if ?c then _ else _) => destruct c
      | |- keeps (match ?x with _ => _ end) => destruct x
      end ].

Lemma keeps_acceleration_rate vF : keeps (acceleration_rate vF).
Proof. unfold acceleration_rate. repeat keeps_step. Qed.

Lemma keeps_decceleration_rate vF vL aL gap gap_desire :
  keeps (decceleration_rate vF vL aL gap gap_desire).
Proof. unfold_decision. repeat keeps_step. Qed.

Lemma keeps_compute_decision gap vL aL : keeps (compute_decision gap vL aL).
Proof.
  unfold compute_decision, compute_decision_with, car_following_with,
    free_flow_with.
  unfold accelerate, cruise, deccelerate_with.
  fold_decceleration_rate. exact_arith.
  repeat first [ apply keeps_acceleration_rate
               | apply keeps_decceleration_rate | keeps_step ].
Qed.

Lemma keeps_compute_safe_speed gap vL : keeps (compute_safe_speed gap vL).
Proof. unfold compute_safe_speed. repeat keeps_step. Qed.

Lemma keeps_get_next_speed : keeps get_next_speed.
Proof. unfold get_next_speed. repeat keeps_step. Qed.

Lemma keeps_calculate_next_state rand gap ls la dt mean ma sp :
  keeps (calculate_next_state rand gap ls la dt mean ma sp).
Proof.
  unfold calculate_next_state.
  repeat first [ apply keeps_compute_decision
               | apply keeps_compute_safe_speed
               | apply keeps_get_next_speed | keeps_step ].
Qed.


Lemma stages_bind {A B} (m : Method A) (k : A -> Method B) :
  stages m -> (forall a, stages (k a)) -> stages (m ≫= k).
Proof.
  intros Hm Hk e He. unfold mbind, M_bind.
  specialize (Hm e He). destruct (m e) as [e' [a | x]]; [| exact Hm].
  now apply Hk.
Qed.

Lemma stages_pure {A} (m : Method A) :
  (forall e, (m e).1 = e) -> stages m.
Proof. intros Hm e He. now rewrite Hm. Qed.

Lemma stages_set_next_speed s : stages (modify (set_next_speed s)).
Proof. intros e _. now exists s. Qed.

Lemma stages_rand (rand : nat -> num) : stages (np_random_rand rand).
Proof. intros e He. exact He. Qed.

Lemma stages_get_next_speed : stages get_next_speed.
Proof.
  intros e He. unfold get_next_speed. run_method.
  now destruct (next_speed (obj e)).
Qed.

Lemma stages_ret {A} (a : A) : stages (mret a).
Proof. intros e He. exact He. Qed.

Lemma stages_get : stages get.
Proof. intros e He. exact He. Qed.


Lemma lands_bind_r {A B} (m : Method A) (k : A -> Method B) :
  (forall a, lands (k a)) -> lands (m ≫= k).
Proof.
  intros Hk e r. unfold mbind, M_bind.
  destruct (m e) as [e' [a | x]]; [| discriminate].
  apply Hk.
Qed.

Lemma lands_bind_l {A B} (m : Method A) (k : A -> Method B) :
  lands m -> (forall a, stages (k a)) -> lands (m ≫= k).
Proof.
  intros Hm Hk e r. unfold mbind, M_bind.
  specialize (Hm e). destruct (m e) as [e' [a | x]]; [| discriminate].
  intros _. apply Hk. now apply (Hm a).
Qed.

Lemma lands_set_next_speed s : lands (modify (set_next_speed s)).
Proof. intros e a _. now exists s. Qed.

Ltac stages_step :=
  first
    [ apply stages_ret | apply stages_get | apply stages_rand
    | apply stages_get_next_speed | apply stages_set_next_speed
    | apply stages_bind; [| intros ]
    | match goal with
      | |- stages (if ?c then _ else _) => destruct c
      | |- stages (match ?x with _ => _ end) => destruct x
      end ].

Lemma lands_calculate_next_state rand gap ls la dt mean ma sp :
  lands (calculate_next_state rand gap ls la dt mean ma sp).
Proof.
  unfold calculate_next_state.
  do 4 (apply lands_bind_r; intros).
  apply lands_bind_l; [apply lands_set_next_speed |].
  intros _. repeat stages_step.
Qed.

(** [update_state] on a vehicle with a staged speed. *)
Lemma update_state_staged dt lane (v : VehicleAgent) (k : nat) (s : num) :
  next_speed v = Some s ->
  exists v',
    update_state dt lane (Env v k) = (Env v' k, Ok tt)
    /\ current_speed v' = s
    /\ position v' = (position v + s * dt)%num
    /\ speed_list v' = speed_list v ++ [s]
    /\ position_list v' = position_list v ++ [(position v + s * dt)%num]
    /\ lane_list v' = lane_list v ++ [lane].
Proof.
  intros Hs. unfold update_state, get_next_speed. run_method.
  rewrite Hs. eexists. split; [reflexivity |]. simpl. tauto.
Qed.

(** C9.  Whatever the vehicle, the arguments and the random draws, and
    whether it returns or raises, [calculate_next_state] leaves the
    position, the current speed, the three histories and every parameter
    as they were: it writes [acceleration] and [next_speed] only.  When it
    returns, [next_speed] holds the staged speed, which [update_state]
    then commits as the current speed. *)
Theorem calculate_next_state_frame (rand : nat -> num)
    (gap ls la dt : num) (mean : option num) (ma sp : num)
    (self : VehicleAgent) (k : nat) :
  let out := calculate_next_state rand gap ls la dt mean ma sp (Env self k) in
  Spec.kept (obj out.1) = Spec.kept self
  /\ (out.2 = Ok tt ->
      exists s, next_speed (obj out.1) = Some s
        /\ forall dt' lane,
            exists v', update_state dt' lane out.1
                       = (Env v' (cursor out.1), Ok tt)
                       /\ current_speed v' = s).
Proof.
  intros out. split.
  - apply (keeps_calculate_next_state rand gap ls la dt mean ma sp
             (Env self k)).
  - intros Hok.
    destruct (lands_calculate_next_state rand gap ls la dt mean ma sp
                (Env self k) tt Hok) as [s Hs].
    fold out in Hs. exists s. split; [exact Hs |].
    intros dt' lane. destruct out.1 as [v' k'] eqn:Hout. simpl in Hs |- *.
    destruct (update_state_staged dt' lane v' k' s Hs) as (v'' & H1 & H2 & _).
    now exists v''.
Qed.

(** A decision step on the vehicle of the unit tests returns. *)
Lemma calculate_next_state_frame_witness :
  exists s,
    next_speed
      (obj (calculate_next_state (fun _ => Fin 0.5) (Fin 100) (Fin 25)
              (Fin 0.37) (Fin 1) None (Fin 1) (Fin 0.5)
              (Env (init_default (Fin 1000) (Fin 25)) 0)).1) = Some s
    /\ forall dt' lane,
        exists v',
          update_state dt' lane
            (calculate_next_state (fun _ => Fin 0.5) (Fin 100) (Fin 25)
               (Fin 0.37) (Fin 1) None (Fin 1) (Fin 0.5)
               (Env (init_default (Fin 1000) (Fin 25)) 0)).1
          = (Env v'
               (cursor
                  (calculate_next_state (fun _ => Fin 0.5) (Fin 100)
                     (Fin 25) (Fin 0.37) (Fin 1) None (Fin 1) (Fin 0.5)
                     (Env (init_default (Fin 1000) (Fin 25)) 0)).1), Ok tt)
          /\ current_speed v' = s.
Proof.
  apply (calculate_next_state_frame (fun _ => Fin 0.5) (Fin 100) (Fin 25)
           (Fin 0.37) (Fin 1) None (Fin 1) (Fin 0.5)
           (init_default (Fin 1000) (Fin 25)) 0).
  reflexivity.
Defined.

(** ** The histories *)


Lemma extend_nil l : extend l [] = l.
Proof.
  destruct l as [[sl pl] ll]. unfold extend. simpl.
  now rewrite !app_nil_r.
Qed.

Lemma extend_cons l c cs :
  extend l (c :: cs) = extend (extend l [c]) cs.
Proof.
  destruct l as [[sl pl] ll]. unfold extend. simpl.
  now rewrite <- !app_assoc.
Qed.

Lemma kept_lists v v' : Spec.kept v' = Spec.kept v -> lists v' = lists v.
Proof. unfold Spec.kept, lists. intros H. now inversion H. Qed.

(** A call of [update_state] either raises at its first line, before any
    write, or returns with one entry added to each history: the speed and
    the position it has just committed and the lane it was given. *)
Lemma update_state_cases dt lane (e : env VehicleAgent) :
  update_state dt lane e = (e, Raise AttributeError)
  \/ exists v',
      update_state dt lane e = (Env v' (cursor e), Ok tt)
      /\ lists v'
         = extend (lists (obj e)) [(current_speed v', position v', lane)].
Proof.
  destruct e as [v k].
  destruct (next_speed v) as [s |] eqn:Hs.
  - right. destruct (update_state_staged dt lane v k s Hs)
      as (v' & H & Hc & Hp & Hsl & Hpl & Hll).
    exists v'. split; [exact H |].
    unfold lists, extend. simpl. now rewrite Hsl, Hpl, Hll, Hc, Hp.
  - left. unfold update_state, get_next_speed. run_method.
    now rewrite Hs.
Qed.

Lemma run_ops_lists rand ops : forall e,
  lists (obj (Spec.run_ops rand ops e).1)
  = extend (lists (obj e)) (Spec.commits rand ops e).
Proof.
  induction ops as [| o ops IH]; intros e; simpl.
  - now rewrite extend_nil.
  - unfold mbind, M_bind.
    destruct o as [gap ls la dt mean ma sp | dt lane]; simpl.
    + pose proof (keeps_calculate_next_state rand gap ls la dt mean ma sp e)
        as Hk.
      destruct (calculate_next_state rand gap ls la dt mean ma sp e)
        as [e' [[] | x]]; simpl in Hk.
      * rewrite IH. now rewrite (kept_lists _ _ Hk).
      * rewrite extend_nil. now apply kept_lists.
    + destruct (update_state_cases dt lane e) as [-> | (v' & -> & Hl)].
      * now rewrite extend_nil.
      * rewrite IH. simpl. rewrite Hl. now rewrite <- extend_cons.
Qed.

Lemma run_ops_commits rand ops : forall e,
  (Spec.run_ops rand ops e).2 = Ok tt ->
  List.length (Spec.commits rand ops e) = Spec.updates ops.
Proof.
  unfold Spec.updates.
  induction ops as [| o ops IH]; intros e; simpl; [reflexivity |].
  unfold mbind, M_bind.
  destruct (Spec.run_op rand o e) as [e' [[] | x]]; [| discriminate].
  intros Hok. destruct o; simpl; now rewrite (IH e' Hok).
Qed.

(** C10.  The constructor and [reset_data] leave the one entry [0] in each
    of the three histories, whatever the position, speed and lane of the
    vehicle.  From there, after any calls of [calculate_next_state] and
    [update_state], each history is that entry followed, in order, by what
    the calls of [update_state] that returned have committed (the speed,
    the position, the lane); so when the [T] calls of [update_state] have
    all returned each history has [T + 1] entries, entry [0] is [0] and
    entry [i] is the value the [i]-th call committed. *)
Theorem histories_record_commits :
  (forall position current_speed desired_speed max_speed length
          a_normal a_max b TP AC,
      Spec.fresh (init position current_speed desired_speed max_speed
                    length a_normal a_max b TP AC))
  /\ (forall e : env VehicleAgent, Spec.fresh (obj (reset_data e).1))
  /\ (forall (rand : nat -> num) (ops : list Spec.op)
             (self : VehicleAgent) (k : nat),
         Spec.fresh self ->
         let out := Spec.run_ops rand ops (Env self k) in
         let cs := Spec.commits rand ops (Env self k) in
         speed_list (obj out.1) = Fin 0 :: map (fun c => c.1.1) cs
         /\ position_list (obj out.1) = Fin 0 :: map (fun c => c.1.2) cs
         /\ lane_list (obj out.1) = 0 :: map snd cs
         /\ (out.2 = Ok tt ->
             List.length cs = Spec.updates ops
             /\ List.length (speed_list (obj out.1)) = S (Spec.updates ops)
             /\ List.length (position_list (obj out.1))
                = S (Spec.updates ops)
             /\ List.length (lane_list (obj out.1))
                = S (Spec.updates ops))).
Proof.
  split; [| split].
  - intros. repeat split.
  - intros e. repeat split.
  - intros rand ops self k (Hs & Hp & Hl) out cs.
    pose proof (run_ops_lists rand ops (Env self k)) as H.
    fold out cs in H. unfold lists, extend in H. simpl in H.
    rewrite Hs, Hp, Hl in H. inversion H as [[H1 H2 H3]].
    split; [reflexivity |]. split; [reflexivity |].
    split; [reflexivity |].
    intros Hok. pose proof (run_ops_commits rand ops _ Hok) as Hn.
    fold cs in Hn. rewrite H1, H2, H3. simpl.
    rewrite !length_map, Hn. auto.
Qed.

(** A vehicle of the unit tests over two timesteps. *)
Lemma histories_record_commits_witness :
  let v := init_default (Fin 1000) (Fin 25) in
  let ops := [Spec.Calc (Fin 100) (Fin 25) (Fin 0.37) (Fin 1) None
                (Fin 1) (Fin 0.5);
              Spec.Update (Fin 1) 0;
              Spec.Calc (Fin 100) (Fin 25) (Fin 0.37) (Fin 1) None
                (Fin 1) (Fin 0.5);
              Spec.Update (Fin 1) 1] in
  let out := Spec.run_ops (fun _ => Fin 0.5) ops (Env v 0) in
  let cs := Spec.commits (fun _ => Fin 0.5) ops (Env v 0) in
  Spec.fresh v
  /\ out.2 = Ok tt
  /\ speed_list (obj out.1) = Fin 0 :: map (fun c => c.1.1) cs
  /\ List.length (lane_list (obj out.1)) = 3%nat.
Proof.
  intros v ops out cs.
  assert (Hfresh : Spec.fresh v) by (repeat split).
  assert (Hok : out.2 = Ok tt) by (vm_compute; reflexivity).
  destruct (proj2 (proj2 histories_record_commits) (fun _ => Fin 0.5) ops
              v 0%nat Hfresh) as (Hs & _ & _ & Hlen).
  destruct (Hlen Hok) as (_ & _ & _ & Hl).
  split; [exact Hfresh |]. split; [exact Hok |].
  split; [exact Hs | exact Hl].
Defined.

End Frame.

(** ** The road: indexing and neighbours *)

Section Road.

Import Agent Track.

Lemma py_index_nat (n i : nat) :
  (i < n)%nat -> py_index n (Z.of_nat i) = Some i.
Proof.
  intros Hi. unfold py_index.
  replace (0 <=? Z.of_nat i) with true by (symmetry; apply Z.leb_le; lia).
  replace (Z.of_nat i <? Z.of_nat n) with true
    by (symmetry; apply Z.ltb_lt; lia).
  simpl. now rewrite Nat2Z.id.
Qed.

Lemma py_index_lt (n : nat) (i : Z) (j : nat) :
  py_index n i = Some j -> (j < n)%nat.
Proof.
  unfold py_index.
  destruct ((0 <=? i) && (i <? Z.of_nat n)) eqn:H1.
  - apply andb_true_iff in H1 as [H1 H2].
    apply Z.leb_le in H1. apply Z.ltb_lt in H2.
    intros [= <-]. lia.
  - destruct ((- Z.of_nat n <=? i) && (i <? 0)) eqn:H2; [| discriminate].
    apply andb_true_iff in H2 as [H2 H3].
    apply Z.leb_le in H2. apply Z.ltb_lt in H3.
    intros [= <-]. lia.
Qed.

Lemma get_lane_nat (t : Track) (i : nat) (l : list ref) (k : nat) :
  lanes_list t !! i = Some l ->
  get_lane (Z.of_nat i) (Env t k) = (Env t k, Ok l).
Proof.
  intros Hl. unfold get_lane. run_method.
  rewrite (py_index_nat _ i) by (eapply lookup_lt_Some; exact Hl).
  simpl. now rewrite Hl.
Qed.

Lemma mod_ok (a c : num) :
  (c ==? Fin 0)%num = false -> exists g, Num.mod_ a c = Ok g.
Proof.
  destruct c as [y | | |]; simpl; intros H.
  - rewrite H. destruct a; eexists; reflexivity.
  - destruct a as [x | | |]; try (eexists; reflexivity).
    destruct (Qle_bool 0 x); eexists; reflexivity.
  - destruct a as [x | | |]; try (eexists; reflexivity).
    destruct (Qle_bool x 0); eexists; reflexivity.
  - eexists; reflexivity.
Qed.

(** *** [switch_lane] *)

(** [switch_lane], step by step. *)
Lemma switch_lane_run (t : Track) (lane : Z) (position : num) (count : Z)
    (k : nat) :
  switch_lane lane position count (Env t k)
  = let n := List.length (lanes_list t) in
    if negb ((0 <=? lane + count) && (lane + count <? lanes_count t))
    then (Env t k, Raise AssertionError)
    else if count =? 0 then (Env t k, Ok tt)
    else
      match py_index n lane with
      | None => (Env t k, Raise IndexError)
      | Some src =>
          match lanes_list t !! src with
          | None => (Env t k, Raise IndexError)
          | Some [] => (Env t k, Ok tt)
          | Some l =>
              match List.find (fun veh => (Agent.position (vehicles t veh)
                                           ==? position)%num) l with
              | None => (Env t k, Raise ValueError)
              | Some veh =>
                  match py_index n (lane + count) with
                  | Some dst =>
                      (Env (set_lanes_list
                              (Spec.move veh src dst (lanes_list t)) t) k,
                       Ok tt)
                  | None =>
                      (Env (set_lanes_list
                              (alter (remove veh) src (lanes_list t)) t) k,
                       Raise IndexError)
                  end
              end
          end
      end.
Proof.
  unfold switch_lane. run_method.
  destruct ((0 <=? lane + count) && (lane + count <? lanes_count t));
    [| reflexivity].
  cbn [negb obj cursor]. destruct (count =? 0); [reflexivity |].
  unfold get_lane, update_lane. run_method.
  destruct (py_index _ lane) as [src |] eqn:Hsrc; [| reflexivity].
  cbn [option_bind].
  destruct (lanes_list t !! src) as [l |]; [| reflexivity].
  destruct l as [| v0 l]; [reflexivity |].
  destruct (List.find _ (v0 :: l)) as [veh |]; [| reflexivity].
  cbn [obj cursor]. rewrite Hsrc.
  cbn [obj cursor lanes_list set_lanes_list].
  rewrite length_alter.
  destruct (py_index _ (lane + count)); reflexivity.
Qed.

(** A destination lane that passes the assertion is a lane of a
    well-formed track. *)
Lemma py_index_in_range (n : nat) (i : Z) :
  0 <= i < Z.of_nat n -> py_index n i = Some (Z.to_nat i).
Proof.
  intros [H1 H2]. unfold py_index.
  apply Z.leb_le in H1. apply Z.ltb_lt in H2. now rewrite H1, H2.
Qed.

(** C6, as the code has it.  On a well-formed track and for [count <> 0],
    [switch_lane] raises [AssertionError] when the destination lane is
    outside [0, lanes_count), raises [IndexError] when the source index is
    no lane, and raises [ValueError] when the source lane is not empty and
    holds no vehicle at exactly [position]; whenever it raises the track
    is as it was.  On an empty source lane it returns at once and changes
    nothing.  Otherwise it removes the first vehicle of the source lane at
    that position and appends it to the lane [lane + count]. *)
Theorem switch_lane_moves_or_fails (t : Track) (lane : Z) (position : num)
    (count : Z) (k : nat) :
  Spec.wf t ->
  count <> 0 ->
  let out := switch_lane lane position count (Env t k) in
  let n := List.length (lanes_list t) in
  let at_position := fun veh =>
    (Agent.position (vehicles t veh) ==? position)%num in
  (forall x, out.2 = Raise x -> out.1 = Env t k)
  /\ (~ 0 <= lane + count < lanes_count t ->
      out = (Env t k, Raise AssertionError))
  /\ (0 <= lane + count < lanes_count t -> py_index n lane = None ->
      out = (Env t k, Raise IndexError))
  /\ (forall src l,
         0 <= lane + count < lanes_count t ->
         py_index n lane = Some src ->
         lanes_list t !! src = Some l ->
         match l, List.find at_position l with
         | [], _ => out = (Env t k, Ok tt)
         | _ :: _, None => out = (Env t k, Raise ValueError)
         | _ :: _, Some veh =>
             out = (Env (set_lanes_list
                           (Spec.move veh src (Z.to_nat (lane + count))
                              (lanes_list t)) t) k, Ok tt)
         end).
Proof.
  intros Hwf Hcount out n at_position.
  assert (Hrun := switch_lane_run t lane position count k).
  fold out in Hrun. cbv zeta in Hrun. fold n at_position in Hrun.
  apply Z.eqb_neq in Hcount. rewrite Hcount in Hrun.
  destruct ((0 <=? lane + count) && (lane + count <? lanes_count t))
    eqn:Hrange; cbn [negb] in Hrun.
  - apply andb_true_iff in Hrange as [H1 H2].
    apply Z.leb_le in H1. apply Z.ltb_lt in H2.
    assert (Hdst : py_index n (lane + count)
                   = Some (Z.to_nat (lane + count))).
    { apply py_index_in_range. unfold Spec.wf in Hwf. fold n in Hwf. lia. }
    rewrite Hdst in Hrun.
    split; [| split; [| split]].
    + intros x Hx. rewrite Hrun in Hx |- *.
      destruct (py_index n lane) as [src |]; [| reflexivity].
      destruct (lanes_list t !! src) as [[| v0 l] |]; try reflexivity.
      destruct (List.find at_position (v0 :: l)); [discriminate |].
      reflexivity.
    + intros Hn. lia.
    + intros _ Hsrc. now rewrite Hsrc in Hrun.
    + intros src l _ Hsrc Hl. rewrite Hsrc, Hl in Hrun.
      destruct l as [| v0 l]; [exact Hrun |].
      destruct (List.find at_position (v0 :: l)); exact Hrun.
  - split; [| split; [| split]].
    + intros x _. now rewrite Hrun.
    + intros _. exact Hrun.
    + intros [H1 H2]. apply Z.leb_le in H1. apply Z.ltb_lt in H2.
      rewrite H1, H2 in Hrange. discriminate.
    + intros src l [H1 H2]. apply Z.leb_le in H1. apply Z.ltb_lt in H2.
      rewrite H1, H2 in Hrange. discriminate.
Qed.

(** A vehicle at position 0 that moves from lane 0 to lane 1. *)
Lemma switch_lane_moves_or_fails_witness :
  let t := set_lanes_list [[0%nat]; []]
             (Track.init 2 (Fin 2000) (Fin 1) false (Fin 1) (Fin 0.5)
                (fun _ => init_default (Fin 0) (Fin 25))) in
  Spec.wf t /\ 1 <> 0
  /\ switch_lane 0 (Fin 0) 1 (Env t 0)
     = (Env (set_lanes_list (Spec.move 0%nat 0 1 (lanes_list t)) t) 0,
        Ok tt).
Proof.
  intros t.
  assert (Hwf : Spec.wf t) by reflexivity.
  assert (Hc : 1 <> 0) by discriminate.
  split; [exact Hwf |]. split; [exact Hc |].
  destruct (switch_lane_moves_or_fails t 0 (Fin 0) 1 0 Hwf Hc)
    as (_ & _ & _ & H).
  apply (H 0%nat [0%nat]); [simpl; lia | reflexivity | reflexivity].
Defined.

(** C6, as the specification states it, fails on an empty source lane:
    the request of a track with two empty lanes to move the vehicle at
    position 10 from lane 0 to lane 1 finds no vehicle and yet returns
    without any error. *)
Lemma switch_lane_silent_on_empty_lane :
  ~ Spec.raises_when_no_vehicle
      (Track.init 2 (Fin 2000) (Fin 1) false (Fin 1) (Fin 0.5)
         (fun _ => init_default (Fin 0) (Fin 25)))
      0 (Fin 10) 1 0.
Proof.
  intros H. destruct H as [x Hx].
  - discriminate.
  - intros src l veh [= <-] [= <-] Hveh. inversion Hveh.
  - vm_compute in Hx. discriminate.
Qed.

End Road.

(** ** The lane-change intent *)

Section Intent.

Import Agent.

Variable heap : ref -> VehicleAgent.

Lemma mod_divisor (a c g : num) :
  Num.mod_ a c = Ok g -> (c ==? Fin 0)%num = false.
Proof.
  destruct c as [y | | |]; simpl; try reflexivity.
  now destruct (Qeq_bool y 0).
Qed.

(** Where the road has no lane on the right the switch to the right is
    not permitted. *)
Lemma can_switch_lanes_no_right (cars_left : cars) (e e' : env VehicleAgent)
    (l r : bool) :
  can_switch_lanes heap cars_left None e = (e', Ok (l, r)) -> r = false.
Proof.
  unfold can_switch_lanes. run_method.
  destruct (bool_decide (cars_left ≠ None)); cbn iota beta;
    [| intros; discriminate].
  destruct (can_switch_lane heap cars_left e) as [e1 [l' | x]];
    [| intros; discriminate].
  unfold can_switch_lane. run_method. now intros [= _ _ <-].
Qed.


End Intent.

Section IntentExamples.

Import Agent.



End IntentExamples.

(** ** Rules for computations *)

Lemma bind_run {St A B} (m : M St A) (f : A -> M St B) (e : env St) :
  (m ≫= f) e = match m e with
               | (e', Ok a) => f a e'
               | (e', Raise x) => (e', Raise x)
               end.
Proof. reflexivity. Qed.

Section Rules.

Context {St : Type}.

Lemma pure_ret {A} (a : A) : pure (mret a : M St A).
Proof. intros e. reflexivity. Qed.

Lemma pure_raise {A} (x : exn) : pure (raise x : M St A).
Proof. intros e. reflexivity. Qed.

Lemma pure_lift {A} (r : result A) : pure (lift r : M St A).
Proof. intros e. reflexivity. Qed.

Lemma pure_get : pure (get : M St St).
Proof. intros e. reflexivity. Qed.

Lemma pure_assert (c : bool) : pure (py_assert c : M St unit).
Proof. intros e. now destruct c. Qed.

Lemma pure_bind {A B} (m : M St A) (k : A -> M St B) :
  pure m -> (forall a, pure (k a)) -> pure (m ≫= k).
Proof.
  intros Hm Hk e. unfold mbind, M_bind.
  specialize (Hm e). destruct (m e) as [e' [a | x]]; simpl in Hm; subst e'.
  - apply Hk.
  - reflexivity.
Qed.

(** A computation that only reads can be run ahead. *)
Lemma bind_pure {A B} (m : M St A) (k : A -> M St B) (e : env St) :
  pure m ->
  (m ≫= k) e = match (m e).2 with
                | Ok a => k a e
                | Raise x => (e, Raise x)
                end.
Proof.
  intros Hm. unfold mbind, M_bind. specialize (Hm e).
  destruct (m e) as [e' [a | x]]; simpl in *; now subst e'.
Qed.

Lemma bind_ext_pure {A B} (m : M St A) (k1 k2 : A -> M St B) (e : env St) :
  pure m ->
  (forall a, (m e).2 = Ok a -> k1 a e = k2 a e) ->
  (m ≫= k1) e = (m ≫= k2) e.
Proof.
  intros Hm Hk. rewrite !bind_pure by exact Hm.
  destruct (m e).2 as [a | x] eqn:Hr; [now apply Hk | reflexivity].
Qed.

Lemma triple_ret {A} (P : St -> Prop) (Q : A -> St -> Prop)
    (E : St -> Prop) (a : A) :
  (forall s, P s -> Q a s) -> triple P (mret a) Q E.
Proof. intros H e He. now apply H. Qed.

Lemma triple_raise {A} (P : St -> Prop) (Q : A -> St -> Prop)
    (E : St -> Prop) (x : exn) :
  (forall s, P s -> E s) -> triple P (raise x) Q E.
Proof. intros H e He. now apply H. Qed.

Lemma triple_bind {A B} (P : St -> Prop) (Q : A -> St -> Prop)
    (R : B -> St -> Prop) (E : St -> Prop) (m : M St A) (k : A -> M St B) :
  triple P m Q E -> (forall a, triple (Q a) (k a) R E) ->
  triple P (m ≫= k) R E.
Proof.
  intros Hm Hk e He. unfold mbind, M_bind.
  specialize (Hm e He). destruct (m e) as [e' [a | x]]; [| exact Hm].
  now apply Hk.
Qed.

Lemma triple_weaken {A} (P P' : St -> Prop) (Q Q' : A -> St -> Prop)
    (E E' : St -> Prop) (m : M St A) :
  triple P' m Q' E' ->
  (forall s, P s -> P' s) -> (forall a s, Q' a s -> Q a s) ->
  (forall s, E' s -> E s) ->
  triple P m Q E.
Proof.
  intros Hm HP HQ HE e He. specialize (Hm e (HP _ He)).
  destruct (m e) as [e' [a | x]]; auto.
Qed.

(** A computation that only reads keeps what holds of the state, and what
    it returns is a function of that state. *)
Lemma triple_pure {A} (P : St -> Prop) (m : M St A) :
  pure m -> triple P m (fun _ => P) P.
Proof.
  intros Hm e He. specialize (Hm e).
  destruct (m e) as [e' [a | x]]; simpl in Hm; now subst e'.
Qed.

Lemma triple_get (P : St -> Prop) (E : St -> Prop) :
  triple P get (fun a s => a = s /\ P s) E.
Proof. intros e He. simpl. auto. Qed.

Lemma triple_for_each {A} (I : St -> Prop) (l : list A)
    (body : A -> M St unit) :
  (forall x, triple I (body x) (fun _ => I) I) ->
  triple I (Track.for_each l body) (fun _ => I) I.
Proof.
  intros Hbody. induction l as [| x l IH]; simpl.
  - now apply triple_ret.
  - eapply triple_bind; [apply Hbody |]. intros []. exact IH.
Qed.

(** Two loops whose bodies agree wherever an invariant of the first
    holds. *)
Lemma for_each_ext {A} (I : St -> Prop) (l : list A)
    (body1 body2 : A -> M St unit) :
  (forall x, triple I (body1 x) (fun _ => I) I) ->
  (forall x e, I (obj e) -> body1 x e = body2 x e) ->
  forall e, I (obj e) ->
    Track.for_each l body1 e = Track.for_each l body2 e.
Proof.
  intros Hinv Hext. induction l as [| x l IH]; intros e He; simpl.
  - reflexivity.
  - unfold mbind, M_bind. rewrite <- (Hext x e He).
    specialize (Hinv x e He).
    destruct (body1 x e) as [e' [[] | y]]; [| reflexivity].
    now apply IH.
Qed.

Lemma bind_ext {A B} (I J : St -> Prop) (m : M St A)
    (k1 k2 : A -> M St B) (e : env St) :
  triple I m (fun _ => J) J ->
  (forall a e', J (obj e') -> k1 a e' = k2 a e') ->
  I (obj e) ->
  (m ≫= k1) e = (m ≫= k2) e.
Proof.
  intros Hm Hk He. unfold mbind, M_bind. specialize (Hm e He).
  destruct (m e) as [e' [a | x]]; [| reflexivity].
  now apply Hk.
Qed.

End Rules.

(** ** Computations that only read *)

Ltac pure_step :=
  first
    [ apply pure_ret | apply pure_raise | apply pure_lift | apply pure_get
    | apply pure_assert
    | apply pure_bind; [| intros ]
    | match goal with
      | |- pure (if ?c then _ else _) => destruct c
      | |- pure (match ?x with _ => _ end) => destruct x
      end ].

Section AgentReads.

Import Agent.

Variable heap : ref -> VehicleAgent.

Lemma pure_attr {A} (f : VehicleAgent -> A) (r : option ref) :
  pure (attr heap f r).
Proof. unfold attr. repeat pure_step. Qed.

Lemma pure_can_switch_lane (c : cars) : pure (can_switch_lane heap c).
Proof.
  unfold can_switch_lane. repeat first [apply pure_attr | pure_step].
Qed.

Lemma pure_can_switch_lanes (cl cr : cars) :
  pure (can_switch_lanes heap cl cr).
Proof.
  unfold can_switch_lanes.
  repeat first [apply pure_can_switch_lane | pure_step].
Qed.

Lemma pure_lane_switch (front : option ref) (cl cr : cars) (rl : num) :
  pure (lane_switch heap front cl cr rl).
Proof.
  unfold lane_switch, traditional_lane_switch.
  repeat first [apply pure_can_switch_lanes | apply pure_attr | pure_step].
Qed.

Lemma lane_switch_intent (front : option ref) (cl cr : cars) (rl : num) :
  triple (fun _ => True) (lane_switch heap front cl cr rl)
         (fun c _ => Spec.is_intent c) (fun _ => True).
Proof.
  unfold lane_switch, traditional_lane_switch, Spec.is_intent.
  repeat first
    [ apply triple_ret; intros; lia
    | apply triple_raise; intros; exact I
    | eapply triple_bind;
        [apply (triple_pure (fun _ => True));
         first [ apply pure_get | apply pure_can_switch_lanes
               | apply pure_attr | apply pure_lift ]
        | intros ]
    | match goal with
      | |- triple _ (if ?c then _ else _) _ _ => destruct c
      | |- triple _ (match ?x with _ => _ end) _ _ => destruct x
      end ].
Qed.

End AgentReads.

Section TrackReads.

Import Agent Track.

Lemma pure_read {A} (f : VehicleAgent -> A) (r : ref) : pure (read f r).
Proof. unfold read. repeat pure_step. Qed.

Lemma pure_get_lane (lane : Z) : pure (get_lane lane).
Proof. unfold get_lane. repeat pure_step. Qed.

Lemma pure_car_in_front (lane : Z) (p : num) : pure (car_in_front lane p).
Proof.
  unfold car_in_front. repeat first [apply pure_get_lane | pure_step].
Qed.

Lemma pure_car_in_back (lane : Z) (p : num) : pure (car_in_back lane p).
Proof.
  unfold car_in_back. repeat first [apply pure_get_lane | pure_step].
Qed.

Lemma pure_closest_cars_sides (lane : Z) (p : num) :
  pure (closest_cars_sides lane p).
Proof.
  unfold closest_cars_sides.
  repeat first [ apply pure_car_in_front | apply pure_car_in_back
               | pure_step ].
Qed.

Lemma pure_dict_get {A} (d : gmap Z A) (k : Z) : pure (dict_get d k).
Proof. unfold dict_get. repeat pure_step. Qed.

Lemma pure_mean_speed_lane (lane : list ref) : pure (mean_speed_lane lane).
Proof. unfold mean_speed_lane. repeat pure_step. Qed.

Lemma update_lane_run (lane : Z) (f : list ref -> list ref) (t : Track)
    (k : nat) :
  update_lane lane f (Env t k)
  = match py_index (List.length (lanes_list t)) lane with
    | Some i => (Env (set_lanes_list (alter f i (lanes_list t)) t) k, Ok tt)
    | None => (Env t k, Raise IndexError)
    end.
Proof.
  unfold update_lane. run_method.
  now destruct (py_index _ lane).
Qed.

(** A method call on a vehicle changes that vehicle, and nothing else of
    the track. *)
Lemma call_run {A} (r : ref) (m : Agent.Method A) (t : Track) (k : nat) :
  call r m (Env t k)
  = (Env (set_vehicles (<[r := obj (m (Env (vehicles t r) k)).1]>
                          (vehicles t)) t)
         (cursor (m (Env (vehicles t r) k)).1),
     (m (Env (vehicles t r) k)).2).
Proof.
  unfold call. simpl. now destruct (m (Env (vehicles t r) k)).
Qed.

Lemma set_lanes_list_id (t : Track) : set_lanes_list (lanes_list t) t = t.
Proof. now destruct t. Qed.

Lemma alter_lookup_id {A} (f : A -> A) (i : nat) (l : list A) (x : A) :
  l !! i = Some x -> f x = x -> alter f i l = l.
Proof.
  intros Hl Hf. apply list_eq. intros j.
  destruct (decide (j = i)) as [-> | Hne].
  - rewrite list_lookup_alter_eq, Hl. simpl. now rewrite Hf.
  - now rewrite list_lookup_alter_ne.
Qed.

Lemma sort_lane_run (t : Track) (i : nat) (k : nat) :
  (i < List.length (lanes_list t))%nat ->
  sort_lane (Z.of_nat i) (Env t k)
  = (Env (set_lanes_list (alter (sort (vehicles t)) i (lanes_list t)) t) k,
     Ok tt).
Proof.
  intros Hi. unfold sort_lane.
  rewrite bind_pure by apply pure_get. cbn [get snd].
  now rewrite update_lane_run, py_index_nat.
Qed.

End TrackReads.

(** ** The decision pass *)

Section DecisionPass.

Import Agent Track.

Variable rand : nat -> num.
Variable snapshot : ref -> VehicleAgent.

Lemma kept_current_speed (v v' : VehicleAgent) :
  Spec.kept v = Spec.kept v' -> current_speed v = current_speed v'.
Proof. unfold Spec.kept. now intros [= _ ->]. Qed.

(** A call of a method that leaves the kept attributes alone leaves the
    track in agreement with the snapshot. *)
Lemma agrees_call {A} (r : ref) (m : Agent.Method A) :
  keeps m ->
  triple (Spec.agrees snapshot) (call r m)
         (fun _ => Spec.agrees snapshot) (Spec.agrees snapshot).
Proof.
  intros Hm [t k] Ht. rewrite call_run.
  assert (Hagrees : Spec.agrees snapshot
            (set_vehicles (<[r := obj (m (Env (vehicles t r) k)).1]>
                             (vehicles t)) t)).
  { intros r'. simpl. destruct (decide (r = r')) as [<- | Hne].
    - rewrite fn_lookup_insert, (Hm (Env (vehicles t r) k)). apply Ht.
    - rewrite fn_lookup_insert_ne by exact Hne. apply Ht. }
  now destruct (m (Env (vehicles t r) k)).2.
Qed.

Lemma agrees_update_lane (lane : Z) (f : list ref -> list ref) :
  triple (Spec.agrees snapshot) (update_lane lane f)
         (fun _ => Spec.agrees snapshot) (Spec.agrees snapshot).
Proof.
  intros [t k] Ht. rewrite update_lane_run.
  now destruct (py_index _ lane).
Qed.

Lemma agrees_sort_lane (lane : Z) :
  triple (Spec.agrees snapshot) (sort_lane lane)
         (fun _ => Spec.agrees snapshot) (Spec.agrees snapshot).
Proof.
  unfold sort_lane. eapply triple_bind; [apply triple_get |].
  intros t. eapply triple_weaken; [apply agrees_update_lane | | |]; simpl;
    intuition.
Qed.

Lemma agrees_body (i : Z) (mean : option num) (vehicle : ref) :
  triple (Spec.agrees snapshot)
         (calculate_next_state_body rand i mean vehicle)
         (fun _ => Spec.agrees snapshot) (Spec.agrees snapshot).
Proof.
  unfold calculate_next_state_body.
  repeat (eapply triple_bind;
            [apply triple_pure;
             first [ apply pure_read | apply pure_car_in_front
                   | apply pure_get | apply pure_lift ]
            | intros ]).
  cbv zeta.
  destruct (negb _); apply agrees_call; apply keeps_calculate_next_state.
Qed.

(** Where the track agrees with the snapshot the decision step of the
    code is the one that reads the speed of the leader from the snapshot
    and its acceleration from the vehicle as it is now. *)
Lemma body_reads_snapshot_speed (i : Z) (mean : option num) (vehicle : ref)
    (e : env Track) :
  Spec.agrees snapshot (obj e) ->
  calculate_next_state_body rand i mean vehicle e
  = Spec.decision_body rand snapshot false i mean vehicle e.
Proof.
  intros He. unfold calculate_next_state_body, Spec.decision_body.
  apply bind_ext_pure; [apply pure_read |]. intros p _.
  apply bind_ext_pure; [apply pure_car_in_front |]. intros leader _.
  apply bind_ext_pure; [apply pure_get |]. intros t [= <-].
  apply bind_ext_pure; [apply pure_lift |]. intros lp _.
  apply bind_ext_pure; [apply pure_lift |]. intros gap _.
  cbv zeta.
  now rewrite (kept_current_speed _ _ (He (default vehicle leader))).
Qed.

Lemma agrees_lane (i : nat) :
  triple (Spec.agrees snapshot)
    (sort_lane (Z.of_nat i);;
     lane ← get_lane (Z.of_nat i);
     mean ← mean_speed_lane lane;
     for_each lane (calculate_next_state_body rand (Z.of_nat i) mean))
    (fun _ => Spec.agrees snapshot) (Spec.agrees snapshot).
Proof.
  eapply triple_bind; [apply agrees_sort_lane |]. intros [].
  eapply triple_bind; [apply triple_pure, pure_get_lane |]. intros lane.
  eapply triple_bind; [apply triple_pure, pure_mean_speed_lane |].
  intros mean. apply triple_for_each. intros vehicle. apply agrees_body.
Qed.

Lemma loops_read_snapshot_speed (n : nat) (e : env Track) :
  Spec.agrees snapshot (obj e) ->
  for_each (seq 0 n) (fun i =>
    sort_lane (Z.of_nat i);;
    lane ← get_lane (Z.of_nat i);
    mean ← mean_speed_lane lane;
    for_each lane (calculate_next_state_body rand (Z.of_nat i) mean)) e
  = for_each (seq 0 n) (fun i =>
    sort_lane (Z.of_nat i);;
    lane ← get_lane (Z.of_nat i);
    mean ← mean_speed_lane lane;
    for_each lane (Spec.decision_body rand snapshot false (Z.of_nat i) mean))
    e.
Proof.
  apply (for_each_ext (Spec.agrees snapshot)); [apply agrees_lane |].
  clear e. intros i e He.
  eapply bind_ext; [apply agrees_sort_lane | | exact He].
  intros [] e1 He1.
  apply bind_ext_pure; [apply pure_get_lane |]. intros lane _.
  apply bind_ext_pure; [apply pure_mean_speed_lane |]. intros mean _.
  apply (for_each_ext (Spec.agrees snapshot)); [| | exact He1].
  - intros vehicle. apply agrees_body.
  - intros vehicle e2 He2. now apply body_reads_snapshot_speed.
Qed.

End DecisionPass.

Section DecisionPassClaims.

Import Agent Track.

(** C5, as the code has it.  [Track.calculate_next_state] is the
    two-phase pass in which every vehicle reads the speed of its leader
    from the snapshot of all vehicles taken at the start of the pass, and
    the acceleration of its leader from the leader as it is when the
    vehicle decides; and the pass, whether it returns or raises, leaves
    every attribute of every vehicle but [acceleration] and [next_speed]
    as in the snapshot. *)
Theorem calculate_next_state_two_phase (rand : nat -> num) (t : Track)
    (k : nat) :
  Track.calculate_next_state rand (Env t k)
  = Spec.two_phase_decisions rand false (Env t k)
  /\ Spec.agrees (vehicles t)
       (obj (Track.calculate_next_state rand (Env t k)).1).
Proof.
  split.
  - unfold Track.calculate_next_state, Spec.two_phase_decisions,
      Spec.decision_loops.
    rewrite !bind_pure by apply pure_get. cbn [get snd obj].
    rewrite !bind_pure by apply pure_get. cbn [get snd obj].
    apply loops_read_snapshot_speed. intros r. reflexivity.
  - assert (H : triple (Spec.agrees (vehicles t))
                  (Track.calculate_next_state rand)
                  (fun _ => Spec.agrees (vehicles t))
                  (Spec.agrees (vehicles t))).
    { unfold Track.calculate_next_state.
      eapply triple_bind; [apply triple_pure, pure_get |]. intros t'.
      apply triple_for_each. intros i. apply agrees_lane. }
    specialize (H (Env t k) (fun r => eq_refl)).
    now destruct (Track.calculate_next_state rand (Env t k)) as [e' [[] | x]].
Qed.

(** C5, as the specification states it, fails for the last vehicle of a
    lane, whose leader is the first vehicle of the lane and has decided
    before it.  On a road of 2000 m a vehicle at position 0 drives at
    19.9 m/s and a vehicle at position 1965 at 20 m/s.  The first decides
    to accelerate and writes 0.37; the second, 30 m behind it, then
    decelerates on that 0.37 and not on the 0 of the snapshot. *)
Lemma last_vehicle_reads_fresh_acceleration :
  ~ Spec.reads_snapshot (fun _ => Fin 0.25)
      (set_lanes_list [[0%nat; 1%nat]]
         (Track.init 1 (Fin 2000) (Fin 1) false (Fin 1) (Fin 0.5)
            (fun r : ref =>
               match r with
               | O => init_default (Fin 0) (Fin 19.9)
               | _ => init_default (Fin 1965) (Fin 20)
               end)))
      0.
Proof.
  intros (_ & _ & H). specialize (H 1%nat).
  apply (f_equal next_speed) in H. vm_compute in H. discriminate.
Qed.

End DecisionPassClaims.

(** ** A vehicle alone in its lane *)

Section LoneVehicle.

Import Agent Track.

Variable rand : nat -> num.
Variable i : nat.
Variable r : ref.

Lemma lone_call {A} (r' : ref) (m : Agent.Method A) :
  triple (Inv.lone i r) (call r' m) (fun _ => Inv.lone i r) (Inv.lone i r).
Proof.
  intros [t k] Ht. rewrite call_run.
  now destruct (m (Env (vehicles t r') k)).2.
Qed.

Lemma lone_sort_lane (lane : Z) :
  triple (Inv.lone i r) (sort_lane lane) (fun _ => Inv.lone i r)
         (Inv.lone i r).
Proof.
  intros [t k] [Hl Hlen]. cbn [obj] in Hl, Hlen. unfold sort_lane.
  rewrite bind_pure by apply pure_get. cbn [get snd].
  rewrite update_lane_run.
  destruct (py_index _ lane) as [j |]; [| now split].
  split; [| exact Hlen]. simpl.
  destruct (decide (j = i)) as [-> | Hne].
  - now rewrite list_lookup_alter_eq, Hl.
  - now rewrite list_lookup_alter_ne.
Qed.

Lemma lone_body (j : Z) (mean : option num) (vehicle : ref) :
  triple (Inv.lone i r) (calculate_next_state_body rand j mean vehicle)
         (fun _ => Inv.lone i r) (Inv.lone i r).
Proof.
  unfold calculate_next_state_body.
  repeat (eapply triple_bind;
            [apply triple_pure;
             first [ apply pure_read | apply pure_car_in_front
                   | apply pure_get | apply pure_lift ]
            | intros ]).
  cbv zeta. destruct (negb _); apply lone_call.
Qed.

Lemma lone_round (j : nat) :
  triple (Inv.lone i r)
    (sort_lane (Z.of_nat j);;
     lane ← get_lane (Z.of_nat j);
     mean ← mean_speed_lane lane;
     for_each lane (calculate_next_state_body rand (Z.of_nat j) mean))
    (fun _ => Inv.lone i r) (Inv.lone i r).
Proof.
  eapply triple_bind; [apply lone_sort_lane |]. intros [].
  eapply triple_bind; [apply triple_pure, pure_get_lane |]. intros lane.
  eapply triple_bind; [apply triple_pure, pure_mean_speed_lane |].
  intros mean. apply triple_for_each. intros vehicle. apply lone_body.
Qed.

(** The vehicle is its own leader. *)
Lemma lone_car_in_front (t : Track) (k : nat) (p : num) :
  lanes_list t !! i = Some [r] ->
  car_in_front (Z.of_nat i) p (Env t k) = (Env t k, Ok (Some r)).
Proof.
  intros Hl. unfold car_in_front. unfold mbind at 1, M_bind, get.
  unfold mbind, M_bind. rewrite (get_lane_nat t i [r] k Hl).
  simpl. now destruct (_ >? _)%num.
Qed.

(** The step of the vehicle is the call with the three infinities. *)
Lemma lone_body_run (t : Track) (k : nat) (mean : option num) :
  Inv.lone i r t ->
  calculate_next_state_body rand (Z.of_nat i) mean r (Env t k)
  = call r (Agent.calculate_next_state rand PInf PInf PInf
              (dt t) mean (max_accel t) (speed_push t)) (Env t k).
Proof.
  intros [Hl Hlen].
  unfold calculate_next_state_body, read.
  unfold mbind at 1, M_bind. run_method.
  rewrite (lone_car_in_front t k _ Hl). run_method.
  destruct (mod_ok (position (vehicles t r) - position (vehicles t r))
              (length t) Hlen) as [g ->].
  simpl. now rewrite bool_decide_eq_true_2.
Qed.

(** The round of the lane is that one step. *)
Lemma lone_round_run (e : env Track) :
  Inv.lone i r (obj e) ->
  (sort_lane (Z.of_nat i);;
   lane ← get_lane (Z.of_nat i);
   mean ← mean_speed_lane lane;
   for_each lane (calculate_next_state_body rand (Z.of_nat i) mean)) e
  = (mean ← mean_speed_lane [r];
     t ← get;
     call r (Agent.calculate_next_state rand PInf PInf PInf
               (dt t) mean (max_accel t) (speed_push t))) e.
Proof.
  destruct e as [t k]. intros Ht. pose proof Ht as [Hl Hlen].
  rewrite bind_run, sort_lane_run by (eapply lookup_lt_Some; exact Hl).
  rewrite (alter_lookup_id _ i _ [r] Hl) by reflexivity.
  rewrite set_lanes_list_id. cbv beta iota.
  rewrite bind_run, (get_lane_nat t i [r] k Hl). cbv beta iota.
  apply bind_ext_pure; [apply pure_mean_speed_lane |]. intros mean _.
  cbn [for_each]. rewrite bind_run, (lone_body_run t k mean Ht).
  rewrite (bind_pure get) by apply pure_get. cbn [get snd].
  now destruct (call r _ (Env t k)) as [e' [[] | x]].
Qed.

Lemma lone_pass_run (t : Track) (k : nat) :
  Inv.lone i r t ->
  Track.calculate_next_state rand (Env t k)
  = Spec.lone_vehicle_pass rand i r (Env t k).
Proof.
  intros Ht. unfold Track.calculate_next_state, Spec.lone_vehicle_pass.
  apply bind_ext_pure; [apply pure_get |]. intros t' _.
  apply (for_each_ext (Inv.lone i r)); [apply lone_round | | exact Ht].
  intros j e He. destruct (Nat.eqb_spec j i) as [-> | Hne];
    [now apply lone_round_run | reflexivity].
Qed.

End LoneVehicle.

Section LoneVehicleClaims.

Import Agent Track.

(** C8.  In a lane that holds one vehicle, [car_in_front] returns that
    vehicle for every position, its own included: the vehicle is its own
    leader.  On a road of non-zero length the step of the vehicle in the
    decision pass is the call of its [calculate_next_state] with an
    infinite gap, leader speed and leader acceleration, and the decision
    pass [Track.calculate_next_state] is the pass that makes this call in
    the round of that lane; on a road of one lane the whole pass is this
    one call.  With an infinite gap [compute_decision] takes the
    free-flow arm, which compares the current speed with the desired
    speed, whatever the vehicle. *)
Theorem lone_vehicle_free_flow (rand : nat -> num) (t : Track) (i : nat)
    (r : ref) (k : nat) (mean : option num) :
  lanes_list t !! i = Some [r] ->
  (length t ==? Fin 0)%num = false ->
  (forall p, car_in_front (Z.of_nat i) p (Env t k) = (Env t k, Ok (Some r)))
  /\ calculate_next_state_body rand (Z.of_nat i) mean r (Env t k)
     = call r (Agent.calculate_next_state rand PInf PInf PInf
                 (dt t) mean (max_accel t) (speed_push t)) (Env t k)
  /\ Track.calculate_next_state rand (Env t k)
     = Spec.lone_vehicle_pass rand i r (Env t k)
  /\ (List.length (lanes_list t) = 1%nat ->
      Track.calculate_next_state rand (Env t k)
      = (mean ← mean_speed_lane [r];
         call r (Agent.calculate_next_state rand PInf PInf PInf
                   (dt t) mean (max_accel t) (speed_push t))) (Env t k))
  /\ (forall (self : VehicleAgent) (v_L a_L : num) (k' : nat),
         compute_decision PInf v_L a_L (Env self k')
         = free_flow PInf v_L a_L (Env self k')).
Proof.
  intros Hl Hlen.
  assert (Ht : Inv.lone i r t) by now split.
  split; [intros p; now apply lone_car_in_front |].
  split; [now apply lone_body_run |].
  split; [now apply lone_pass_run |].
  split.
  - intros Hone. rewrite (lone_pass_run rand i r t k Ht).
    unfold Spec.lone_vehicle_pass.
    rewrite bind_pure by apply pure_get. cbn [get snd obj].
    rewrite Hone. cbn [seq for_each].
    assert (i = 0%nat) as ->
      by (apply lookup_lt_Some in Hl; lia).
    cbn [Nat.eqb]. rewrite !bind_run.
    destruct (mean_speed_lane [r] (Env t k)) as [e1 [m |x]] eqn:Hm;
      [| reflexivity].
    pose proof (pure_mean_speed_lane [r] (Env t k)) as Hp.
    rewrite Hm in Hp. simpl in Hp. subst e1.
    rewrite bind_run. cbn [get].
    now destruct (call r _ (Env t k)) as [e' [[] | x]].
  - intros self v_L a_L k'.
    unfold compute_decision, compute_decision_with. run_method.
    exact_arith. now destruct (current_speed self) as [c | | |].
Qed.

(** A road of 2000 m and one lane, with one vehicle. *)
Lemma lone_vehicle_free_flow_witness :
  let t := set_lanes_list [[0%nat]]
             (Track.init 1 (Fin 2000) (Fin 1) false (Fin 1) (Fin 0.5)
                (fun _ => init_default (Fin 1000) (Fin 25))) in
  lanes_list t !! 0%nat = Some [0%nat]
  /\ (length t ==? Fin 0)%num = false
  /\ Track.calculate_next_state (fun _ => Fin 0.5) (Env t 0)
     = call 0%nat
         (Agent.calculate_next_state (fun _ => Fin 0.5) PInf PInf PInf
            (dt t) None (max_accel t) (speed_push t)) (Env t 0)
  /\ (acceleration (vehicles (obj (Track.calculate_next_state
                                     (fun _ => Fin 0.5) (Env t 0)).1) 0%nat)
      ==? Fin 0.37)%num = true.
Proof.
  intros t. split; [reflexivity |]. split; [reflexivity |].
  split; [| vm_compute; reflexivity].
  destruct (lone_vehicle_free_flow (fun _ => Fin 0.5) t 0 0%nat 0 None)
    as (_ & _ & _ & H & _); [reflexivity | reflexivity |].
  rewrite (H eq_refl). reflexivity.
Defined.

End LoneVehicleClaims.

(** ** The lane-change pass *)

Section LaneChanges.

Import Agent Track.

Lemma rearranged_refl (t : Track) : Spec.rearranged t t.
Proof. unfold Spec.rearranged. repeat split; reflexivity. Qed.

Lemma rearranged_trans (t1 t2 t3 : Track) :
  Spec.rearranged t1 t2 -> Spec.rearranged t2 t3 -> Spec.rearranged t1 t3.
Proof.
  unfold Spec.rearranged.
  intros (A1 & A2 & A3 & A4 & A5 & A6 & A7 & A8 & A9)
         (B1 & B2 & B3 & B4 & B5 & B6 & B7 & B8 & B9).
  do 6 (split; [congruence |]).
  split; [intros r; now rewrite B7 |].
  split; [congruence | now rewrite B9].
Qed.

Lemma rearranged_wf (t t' : Track) :
  Spec.wf t -> Spec.rearranged t t' -> Spec.wf t'.
Proof.
  unfold Spec.wf, Spec.rearranged.
  intros Hwf (A1 & _ & _ & _ & _ & _ & _ & A8 & _). congruence.
Qed.

(** Changing the lanes alone. *)
Lemma rearranged_set_lanes_list (t : Track) (ll : list (list ref)) :
  List.length ll = List.length (lanes_list t) ->
  Permutation (concat ll) (concat (lanes_list t)) ->
  Spec.rearranged t (set_lanes_list ll t).
Proof. intros H1 H2. unfold Spec.rearranged. simpl. repeat split; auto. Qed.

(** *** Lists *)

Lemma insert_perm (h : ref -> VehicleAgent) (x : ref) (l : list ref) :
  Permutation (insert h x l) (x :: l).
Proof.
  induction l as [| y l IH]; simpl; [reflexivity |].
  destruct (lt h y x); [| reflexivity].
  rewrite IH. apply perm_swap.
Qed.

Lemma sort_perm (h : ref -> VehicleAgent) (l : list ref) :
  Permutation (sort h l) l.
Proof.
  induction l as [| x l IH]; simpl; [reflexivity |].
  now rewrite insert_perm, IH.
Qed.

Lemma remove_perm (x : ref) (l : list ref) :
  x ∈ l -> Permutation (x :: remove x l) l.
Proof.
  induction l as [| y l IH]; intros Hx; [inversion Hx |]. simpl.
  destruct (decide (x = y)) as [<- | Hne]; [reflexivity |].
  apply elem_of_cons in Hx as [Hx | Hx]; [contradiction |].
  rewrite perm_swap. now rewrite (IH Hx).
Qed.

Lemma concat_alter_perm (f : list ref -> list ref) (ll : list (list ref)) :
  (forall l, Permutation (f l) l) ->
  forall i, Permutation (concat (alter f i ll)) (concat ll).
Proof.
  intros Hf. induction ll as [| l ll IH]; intros [| i]; simpl;
    try reflexivity.
  - apply Permutation_app_tail, Hf.
  - apply Permutation_app_head, IH.
Qed.

Lemma concat_leave_perm (x : ref) (ll : list (list ref)) :
  forall (i : nat) (l : list ref),
    ll !! i = Some l -> x ∈ l ->
    Permutation (x :: concat (alter (remove x) i ll)) (concat ll).
Proof.
  induction ll as [| l0 ll IH]; intros [| i] l Hl Hx; simpl in *;
    try discriminate.
  - injection Hl as ->.
    apply (Permutation_app_tail (concat ll) (remove_perm x l Hx)).
  - etransitivity; [apply Permutation_middle |].
    apply Permutation_app_head, (IH i l Hl Hx).
Qed.

Lemma concat_join_perm (x : ref) (ll : list (list ref)) :
  forall i : nat,
    (i < List.length ll)%nat ->
    Permutation (concat (alter (fun l => l ++ [x]) i ll)) (x :: concat ll).
Proof.
  induction ll as [| l0 ll IH]; intros [| i] Hi; simpl in *; try lia.
  - rewrite <- app_assoc. simpl. symmetry. apply Permutation_middle.
  - etransitivity; [apply Permutation_app_head, (IH i); lia |].
    symmetry. apply Permutation_middle.
Qed.

Lemma move_perm (x : ref) (src dst : nat) (l : list ref)
    (ll : list (list ref)) :
  ll !! src = Some l -> x ∈ l -> (dst < List.length ll)%nat ->
  List.length (Spec.move x src dst ll) = List.length ll
  /\ Permutation (concat (Spec.move x src dst ll)) (concat ll).
Proof.
  intros Hl Hx Hdst. unfold Spec.move. split.
  - now rewrite !length_alter.
  - rewrite concat_join_perm by now rewrite length_alter.
    now apply (concat_leave_perm x ll src l).
Qed.

Lemma find_elem_of (f : ref -> bool) (l : list ref) (x : ref) :
  List.find f l = Some x -> x ∈ l.
Proof.
  intros H. apply find_some in H as [H _]. now apply list_elem_of_In.
Qed.

(** *** The steps of the pass *)

Lemma rearranged_update_lane (lane : Z) (f : list ref -> list ref)
    (t : Track) (k : nat) :
  (forall l, Permutation (f l) l) ->
  Spec.rearranged t (obj (update_lane lane f (Env t k)).1).
Proof.
  intros Hf. rewrite update_lane_run.
  destruct (py_index _ lane) as [i |]; simpl; [| apply rearranged_refl].
  apply rearranged_set_lanes_list.
  - apply length_alter.
  - now apply concat_alter_perm.
Qed.

Lemma rearranged_sort_lane (lane : Z) (t : Track) (k : nat) :
  Spec.rearranged t (obj (sort_lane lane (Env t k)).1).
Proof.
  unfold sort_lane. rewrite bind_pure by apply pure_get. simpl.
  apply rearranged_update_lane. apply sort_perm.
Qed.

(** The statements that compute [count] move no vehicle and return an
    intent. *)
Lemma lane_switches_count_run (i : Z) (vehicle : ref) (t : Track)
    (k : nat) :
  let out := lane_switches_count i vehicle (Env t k) in
  Spec.rearranged t (obj out.1)
  /\ lanes_list (obj out.1) = lanes_list t
  /\ forall c, out.2 = Ok c -> Spec.is_intent c.
Proof.
  unfold lane_switches_count.
  rewrite bind_pure by apply pure_read.
  destruct (read position vehicle (Env t k)).2 as [p |];
    [| simpl; auto using rearranged_refl; repeat split;
       auto using rearranged_refl; discriminate].
  rewrite bind_pure by apply pure_car_in_front.
  destruct (car_in_front i p (Env t k)).2 as [front |];
    [| simpl; repeat split; auto using rearranged_refl; discriminate].
  rewrite bind_pure by apply pure_read.
  destruct (read position vehicle (Env t k)).2 as [p' |];
    [| simpl; repeat split; auto using rearranged_refl; discriminate].
  rewrite bind_pure by apply pure_closest_cars_sides.
  destruct (closest_cars_sides i p' (Env t k)).2 as [sides |];
    [| simpl; repeat split; auto using rearranged_refl; discriminate].
  rewrite bind_pure by apply pure_dict_get.
  destruct (dict_get sides (i + 1) (Env t k)).2 as [left |];
    [| simpl; repeat split; auto using rearranged_refl; discriminate].
  rewrite bind_pure by apply pure_dict_get.
  destruct (dict_get sides (i - 1) (Env t k)).2 as [right |];
    [| simpl; repeat split; auto using rearranged_refl; discriminate].
  rewrite bind_pure by apply pure_get. cbn [get snd obj].
  rewrite call_run.
  set (m := lane_switch (vehicles t) front left right (length t)).
  pose proof (pure_lane_switch (vehicles t) front left right (length t)
                (Env (vehicles t vehicle) k)) as Hpure.
  pose proof (lane_switch_intent (vehicles t) front left right (length t)
                (Env (vehicles t vehicle) k) I) as Hint.
  fold m in Hpure, Hint. cbv zeta. cbn [fst snd obj].
  destruct (m (Env (vehicles t vehicle) k)) as [e' r].
  simpl in Hpure. subst e'. cbn [fst snd obj cursor].
  split; [| split].
  - unfold Spec.rearranged. simpl. repeat split; try reflexivity.
    intros r0. destruct (decide (vehicle = r0)) as [<- | Hne].
    + now rewrite fn_lookup_insert.
    + now rewrite fn_lookup_insert_ne.
  - reflexivity.
  - intros c ->. exact Hint.
Qed.

(** A call of [switch_lane] on a lane of the track, with an intent. *)
Lemma switch_lane_one_move (i : nat) (p : num) (count : Z) (t : Track)
    (k : nat) :
  Spec.wf t -> Spec.is_intent count ->
  let out := switch_lane (Z.of_nat i) p count (Env t k) in
  Spec.rearranged t (obj out.1)
  /\ Spec.one_move (Z.of_nat i) (lanes_list t) (lanes_list (obj out.1)).
Proof.
  intros Hwf Hcount. cbv zeta. rewrite switch_lane_run. cbv zeta.
  assert (Hsame : Spec.rearranged t t
                  /\ Spec.one_move (Z.of_nat i) (lanes_list t) (lanes_list t))
    by (split; [apply rearranged_refl | now left]).
  destruct (negb _) eqn:Hrange; [exact Hsame |].
  apply negb_false_iff, andb_true_iff in Hrange as [H1 H2].
  apply Z.leb_le in H1. apply Z.ltb_lt in H2.
  destruct (count =? 0) eqn:Hc0; [exact Hsame |].
  apply Z.eqb_neq in Hc0.
  destruct (py_index _ (Z.of_nat i)) as [src |] eqn:Hsrc; [| exact Hsame].
  assert (Hi : src = i).
  { pose proof (py_index_lt _ _ _ Hsrc) as Hlt. unfold py_index in Hsrc.
    destruct ((0 <=? Z.of_nat i) && (Z.of_nat i <? _)) eqn:Hb.
    - injection Hsrc as <-. apply Nat2Z.id.
    - apply andb_false_iff in Hb as [Hb | Hb].
      + apply Z.leb_gt in Hb. lia.
      + destruct ((- _ <=? Z.of_nat i) && (Z.of_nat i <? 0)) eqn:Hb';
          [| discriminate].
        apply andb_true_iff in Hb' as [_ Hb']. apply Z.ltb_lt in Hb'. lia. }
  subst src.
  destruct (lanes_list t !! i) as [[| v0 l] |] eqn:Hl; try exact Hsame.
  destruct (List.find _ (v0 :: l)) as [veh |] eqn:Hfind; [| exact Hsame].
  apply find_elem_of in Hfind.
  unfold Spec.wf in Hwf.
  rewrite (py_index_in_range _ (Z.of_nat i + count)) by lia.
  assert (Hdst : (Z.to_nat (Z.of_nat i + count)
                  < List.length (lanes_list t))%nat) by lia.
  destruct (move_perm veh i _ _ _ Hl Hfind Hdst) as [Hlen Hperm].
  cbn [fst snd obj]. split.
  - now apply rearranged_set_lanes_list.
  - right. exists veh, i, (Z.to_nat (Z.of_nat i + count)), (v0 :: l).
    cbn [lanes_list set_lanes_list].
    repeat split; auto.
    rewrite Z2Nat.id by lia. unfold Spec.is_intent in Hcount. lia.
Qed.

(** The visit of one vehicle. *)
Lemma lane_switches_body_run (i : nat) (vehicle : ref) (t : Track)
    (k : nat) :
  Spec.wf t ->
  let out := lane_switches_body (Z.of_nat i) vehicle (Env t k) in
  Spec.rearranged t (obj out.1)
  /\ Spec.one_move (Z.of_nat i) (lanes_list t) (lanes_list (obj out.1)).
Proof.
  intros Hwf. cbv zeta.
  assert (Hrun : lane_switches_body (Z.of_nat i) vehicle (Env t k)
                 = match lane_switches_count (Z.of_nat i) vehicle (Env t k)
                   with
                   | (e1, Ok c) =>
                       switch_lane (Z.of_nat i)
                         (position (vehicles (obj e1) vehicle)) c e1
                   | (e1, Raise x) => (e1, Raise x)
                   end) by reflexivity.
  rewrite Hrun. clear Hrun.
  destruct (lane_switches_count_run (Z.of_nat i) vehicle t k)
    as (Hre & Hll & Hint).
  destruct (lane_switches_count (Z.of_nat i) vehicle (Env t k))
    as [[s k1] [c | x]]; cbn [fst snd obj] in *.
  - destruct (switch_lane_one_move i (position (vehicles s vehicle)) c s k1
                (rearranged_wf _ _ Hwf Hre) (Hint c eq_refl))
      as [Hre' Hmove].
    split.
    + exact (rearranged_trans _ _ _ Hre Hre').
    + now rewrite <- Hll.
  - split; [exact Hre |]. left. exact Hll.
Qed.

Lemma reached_step (t0 t t' : Track) :
  Spec.reached t0 t -> Spec.rearranged t t' -> Spec.reached t0 t'.
Proof.
  intros [Hwf Hre] Hre'. split.
  - exact (rearranged_wf _ _ Hwf Hre').
  - exact (rearranged_trans _ _ _ Hre Hre').
Qed.

Lemma reached_body (t0 : Track) (i : nat) (vehicle : ref) :
  triple (Spec.reached t0) (lane_switches_body (Z.of_nat i) vehicle)
         (fun _ => Spec.reached t0) (Spec.reached t0).
Proof.
  intros [t k] Ht. simpl in Ht.
  destruct (lane_switches_body_run i vehicle t k (proj1 Ht)) as [Hre _].
  pose proof (reached_step _ _ _ Ht Hre) as H.
  now destruct (lane_switches_body (Z.of_nat i) vehicle (Env t k))
    as [e' [[] | x]].
Qed.

Lemma reached_loop (t0 : Track) (i : nat) (fuel : nat) :
  forall k : nat,
    triple (Spec.reached t0) (lane_switches_loop fuel i k)
           (fun _ => Spec.reached t0) (Spec.reached t0).
Proof.
  induction fuel as [| fuel IH]; intros k; simpl.
  - now apply triple_ret.
  - eapply triple_bind; [apply triple_pure, pure_get |]. intros t.
    destruct (lanes_list t !! i ≫= (.!! k)) as [vehicle |].
    + eapply triple_bind; [apply reached_body |]. intros []. apply IH.
    + now apply triple_ret.
Qed.

Lemma reached_sort_lane (t0 : Track) (lane : Z) :
  triple (Spec.reached t0) (sort_lane lane)
         (fun _ => Spec.reached t0) (Spec.reached t0).
Proof.
  intros [t k] Ht. simpl in Ht.
  pose proof (reached_step _ _ _ Ht (rearranged_sort_lane lane t k)) as H.
  now destruct (sort_lane lane (Env t k)) as [e' [[] | x]].
Qed.

Lemma reached_lane_switches (t0 : Track) :
  triple (Spec.reached t0) lane_switches
         (fun _ => Spec.reached t0) (Spec.reached t0).
Proof.
  unfold lane_switches.
  eapply triple_bind; [apply triple_pure, pure_get |]. intros t.
  apply triple_for_each. intros i.
  eapply triple_bind; [apply reached_sort_lane |]. intros [].
  eapply triple_bind; [apply triple_pure, pure_get_lane |]. intros lane.
  apply reached_loop.
Qed.

(** *** The bound on the rounds of the inner loop *)

Lemma remove_length (x : ref) (l : list ref) :
  (List.length (remove x l) <= List.length l)%nat.
Proof.
  induction l as [| y l IH]; simpl; [lia |].
  destruct (decide (x = y)); simpl; lia.
Qed.

(** A visit does not make the visited lane longer. *)
Lemma one_move_lane_length (i : nat) (ll ll' : list (list ref)) :
  Spec.one_move (Z.of_nat i) ll ll' ->
  (from_option List.length 0%nat (ll' !! i)
   <= from_option List.length 0%nat (ll !! i))%nat.
Proof.
  intros [-> | (veh & src & dst & l & Hsrc & Hdst & Hl & _ & _ & ->)];
    [lia |].
  apply Nat2Z.inj in Hsrc. subst src. unfold Spec.move.
  rewrite list_lookup_alter_ne by lia.
  rewrite list_lookup_alter_eq, Hl. simpl. apply remove_length.
Qed.

(** The inner loop of [lane_switches] has stopped by itself once the
    rounds left cover the vehicles of the lane that are still to be
    visited: more rounds change nothing. *)
Lemma lane_switches_loop_fuel (i : nat) (fuel : nat) :
  forall (k extra : nat) (e : env Track),
    Spec.wf (obj e) ->
    (from_option List.length 0%nat (lanes_list (obj e) !! i)
     <= k + fuel)%nat ->
    lane_switches_loop (fuel + extra) i k e = lane_switches_loop fuel i k e.
Proof.
  induction fuel as [| fuel IH]; intros k extra [t c] Hwf Hlen;
    simpl in Hwf, Hlen.
  - destruct extra as [| extra]; [reflexivity |]. simpl.
    rewrite bind_pure by apply pure_get. cbn [get snd obj].
    destruct (lanes_list t !! i) as [l |]; simpl; [| reflexivity].
    rewrite lookup_ge_None_2 by (simpl in Hlen; lia). reflexivity.
  - simpl. rewrite !bind_pure by apply pure_get. cbn [get snd obj].
    destruct (lanes_list t !! i ≫= (.!! k)) as [vehicle |];
      [| reflexivity].
    unfold mbind, M_bind.
    destruct (lane_switches_body_run i vehicle t c Hwf) as [Hre Hmove].
    apply one_move_lane_length in Hmove.
    destruct (lane_switches_body (Z.of_nat i) vehicle (Env t c))
      as [e' [[] | x]]; [| reflexivity].
    simpl in Hre, Hmove. apply IH.
    + exact (rearranged_wf _ _ Hwf Hre).
    + lia.
Qed.

End LaneChanges.


Section LaneChangeClaims.

Import Agent Track.




End LaneChangeClaims.

(** ** The speed bound under centralized control *)

Section SpeedBound.

Import Agent.

Lemma min_bounded (a c : num) (m : Q) :
  (a <=? Fin m)%num = true -> (Num.min a c <=? Fin m)%num = true.
Proof.
  unfold Num.min. destruct (c <? a)%num eqn:Hlt; [| trivial].
  destruct a as [x | | |], c as [y | | |]; simpl in *; try discriminate;
    try reflexivity.
  rewrite !Qle_bool_iff. intros Hx. apply negb_true_iff in Hlt.
  destruct (Qlt_le_dec y x) as [H | H]; [lra |].
  apply Qle_bool_iff in H. congruence.
Qed.

Lemma sub_bounded (v : num) (d m : Q) :
  (0 <= d)%Q -> (v <=? Fin m)%num = true ->
  (v - Fin d <=? Fin m)%num = true.
Proof.
  intros Hd. destruct v as [x | | |]; simpl; try discriminate;
    try reflexivity.
  rewrite !Qle_bool_iff. intros Hx. lra.
Qed.

Lemma max_0_bounded (x : num) (m : Q) :
  (0 <= m)%Q -> (x <=? Fin m)%num = true ->
  (Fin 0 <=? Num.max (Fin 0) x)%num = true
  /\ (Num.max (Fin 0) x <=? Fin m)%num = true.
Proof.
  intros Hm Hx. unfold Num.max, Num.gtb.
  destruct (Fin 0 <? x)%num eqn:Hpos.
  - split; [| exact Hx].
    destruct x as [y | | |]; simpl in *; try discriminate.
    apply negb_true_iff in Hpos. now apply Qle_bool_total.
  - split; [reflexivity |]. simpl. now apply Qle_bool_iff.
Qed.

(** A decision step without centralized control, step by step. *)
Lemma calculate_next_state_uncontrolled (rand : nat -> num)
    (gap ls la dt ma sp : num) (e : env VehicleAgent) :
  calculate_next_state rand gap ls la dt None ma sp e
  = match compute_decision gap ls la e with
    | (e1, Raise x) => (e1, Raise x)
    | (e1, Ok _) =>
        match compute_safe_speed gap ls e1 with
        | (e2, Raise x) => (e2, Raise x)
        | (e2, Ok v_safe) =>
            (Env (set_next_speed
                    (Num.max (Fin 0)
                       (Num.min3 (max_speed (obj e2))
                          (current_speed (obj e2)
                           + acceleration (obj e2) * dt) v_safe
                        - b (obj e2) * rand (cursor e2))) (obj e2))
                 (S (cursor e2)), Ok tt)
        end
    end.
Proof.
  unfold calculate_next_state. unfold mbind at 1 2. unfold M_bind at 1 2.
  destruct (compute_decision gap ls la e) as [e1 [[] | x]]; [| reflexivity].
  destruct (compute_safe_speed gap ls e1) as [e2 [v_safe | x]]; reflexivity.
Qed.

Lemma cursor_compute_decision (gap ls la : num) (e : env VehicleAgent) :
  cursor (compute_decision gap ls la e).1 = cursor e.
Proof.
  unfold_decision. unfold accelerate, cruise, acceleration_rate.
  run_method.
  repeat match goal with
         | |- context [if ?c then _ else _] => destruct c
         | |- context [match Num.div ?x ?y with _ => _ end] =>
             destruct (Num.div x y)
         | |- context [match Num.sqr ?x with _ => _ end] =>
             destruct (Num.sqr x)
         end; reflexivity.
Qed.

Lemma pure_compute_safe_speed (gap ls : num) :
  pure (compute_safe_speed gap ls).
Proof. unfold compute_safe_speed. repeat pure_step. Qed.

(** Without centralized control the staged speed is within the bounds:
    when the noise [b * eta] is not negative and [max_speed] is a real
    number that is not negative, a decision step that returns has staged
    a speed between [0] and [max_speed]. *)
Lemma next_speed_bounded_without_control (rand : nat -> num)
    (gap ls la dt ma sp : num) (self : VehicleAgent) (k : nat) (m d : Q) :
  max_speed self = Fin m -> (0 <= m)%Q ->
  (b self * rand k)%num = Fin d -> (0 <= d)%Q ->
  let out := calculate_next_state rand gap ls la dt None ma sp (Env self k) in
  out.2 = Ok tt ->
  exists s, next_speed (obj out.1) = Some s
            /\ (Fin 0 <=? s)%num = true /\ (s <=? Fin m)%num = true.
Proof.
  intros Hmax Hm Hnoise Hd out. subst out.
  rewrite calculate_next_state_uncontrolled.
  pose proof (keeps_compute_decision gap ls la (Env self k)) as K1.
  pose proof (cursor_compute_decision gap ls la (Env self k)) as Hc1.
  destruct (compute_decision gap ls la (Env self k)) as [[v1 k1] [[] | x]];
    [| discriminate].
  simpl in K1, Hc1. subst k1.
  pose proof (pure_compute_safe_speed gap ls (Env v1 k)) as Hp.
  destruct (compute_safe_speed gap ls (Env v1 k)) as [e2 [v_safe | x]];
    [| discriminate].
  simpl in Hp. subst e2. cbn [fst snd obj cursor next_speed set_next_speed].
  intros _.
  assert (Hmax1 : max_speed v1 = Fin m).
  { unfold Spec.kept in K1. injection K1 as _ _ _ -> _. exact Hmax. }
  assert (Hb1 : b v1 = b self).
  { unfold Spec.kept in K1. now injection K1. }
  rewrite Hb1, Hnoise, Hmax1.
  eexists. split; [reflexivity |].
  apply max_0_bounded; [exact Hm |].
  apply sub_bounded; [exact Hd |].
  unfold Num.min3. apply min_bounded, min_bounded. simpl.
  apply Qle_bool_iff, Qle_refl.
Qed.

(** C3 fails in the code.  Two vehicles built with the default parameters
    drive at 34.8 m/s, 1000 m apart, on a one-lane road of 2000 m under
    centralized control with the default [max_accel = 1] and
    [speed_push = 0.5]; both respect [0 <= current_speed <= max_speed].
    With the draw [0.25 < AC] one timestep (the decision pass, then the
    commit pass) returns and commits the speed 35.3, above
    [max_speed = 35]: the push is added after the speed has been capped. *)
Theorem speed_push_exceeds_max_speed :
  let t := Track.set_lanes_list [[0%nat; 1%nat]]
             (Track.init 1 (Fin 2000) (Fin 1) true (Fin 1) (Fin 0.5)
                (fun r : ref =>
                   match r with
                   | O => init_default (Fin 0) (Fin 34.8)
                   | _ => init_default (Fin 1000) (Fin 34.8)
                   end)) in
  let out := (Track.calculate_next_state (fun _ => Fin 0.25);;
              Track.update_state) (Env t 0) in
  let before := Track.vehicles t 0%nat in
  let after := Track.vehicles (obj out.1) 0%nat in
  (Fin 0 <=? current_speed before)%num = true
  /\ (current_speed before <=? max_speed before)%num = true
  /\ out.2 = Ok tt
  /\ (current_speed after ==? Fin 35.3)%num = true
  /\ (current_speed after <=? max_speed after)%num = false.
Proof. vm_compute. repeat split. Qed.

End SpeedBound.

(** * Further properties of the code *)

(** ** The decision step of a vehicle *)

Section VehicleStep.

Import Agent.

Lemma update_state_settings (dt : num) (lane : Z) (e : env VehicleAgent) :
  Inv.settings (obj (update_state dt lane e).1) = Inv.settings (obj e).
Proof.
  unfold update_state, get_next_speed. run_method.
  now destruct (next_speed (obj e)).
Qed.

(** X1.  Without centralized control a timestep of a vehicle keeps the
    speed within its bounds: when [max_speed] is a real number that is
    not negative, and the noise coefficient [b] and the draw are not
    negative, a decision step followed by the commit, if they return,
    leave [0 <= current_speed <= max_speed], with [max_speed] as it
    was. *)
Theorem uncontrolled_step_speed_bounds (rand : nat -> num)
    (gap ls la dt ma sp dt' : num) (lane : Z) (self : VehicleAgent)
    (k : nat) (m bq u : Q) :
  max_speed self = Fin m -> (0 <= m)%Q ->
  b self = Fin bq -> (0 <= bq)%Q ->
  rand k = Fin u -> (0 <= u)%Q ->
  let out := (calculate_next_state rand gap ls la dt None ma sp;;
              update_state dt' lane) (Env self k) in
  out.2 = Ok tt ->
  (Fin 0 <=? current_speed (obj out.1))%num = true
  /\ (current_speed (obj out.1) <=? max_speed (obj out.1))%num = true
  /\ max_speed (obj out.1) = max_speed self.
Proof.
  intros Hmax Hm Hb Hbq Hu Hu0 out. subst out. rewrite bind_run.
  assert (Hnoise : (b self * rand k)%num = Fin (bq * u))
    by now rewrite Hb, Hu.
  assert (Hd : (0 <= bq * u)%Q) by now apply Qmult_le_0_compat.
  pose proof (next_speed_bounded_without_control rand gap ls la dt ma sp
                self k m (bq * u) Hmax Hm Hnoise Hd) as Hstep.
  pose proof (keeps_calculate_next_state rand gap ls la dt None ma sp
                (Env self k)) as Hkept.
  cbv zeta in Hstep.
  destruct (calculate_next_state rand gap ls la dt None ma sp (Env self k))
    as [[v1 k1] [[] | x]]; [| discriminate].
  destruct (Hstep eq_refl) as (s & Hs & H0 & H1).
  simpl in Hs, Hkept.
  pose proof (update_state_settings dt' lane (Env v1 k1)) as Hset.
  destruct (update_state_staged dt' lane v1 k1 s Hs)
    as (v2 & Hrun & Hc & _).
  rewrite Hrun in Hset |- *. cbn [fst snd obj] in Hset |- *.
  intros _.
  assert (Hm2 : max_speed v2 = max_speed v1).
  { unfold Inv.settings in Hset. now injection Hset. }
  assert (Hm1 : max_speed v1 = max_speed self).
  { unfold Spec.kept in Hkept. now injection Hkept. }
  rewrite Hc, Hm2, Hm1, Hmax. auto.
Qed.

(** The vehicle of the unit tests, one timestep. *)
Lemma uncontrolled_step_speed_bounds_witness :
  let out := (calculate_next_state (fun _ => Fin 0.5) (Fin 100) (Fin 25)
                (Fin 0.37) (Fin 1) None (Fin 1) (Fin 0.5);;
              update_state (Fin 1) 0)
               (Env (init_default (Fin 1000) (Fin 25)) 0) in
  out.2 = Ok tt
  /\ (Fin 0 <=? current_speed (obj out.1))%num = true
  /\ (current_speed (obj out.1) <=? max_speed (obj out.1))%num = true.
Proof.
  intros out.
  assert (Hok : out.2 = Ok tt) by (vm_compute; reflexivity).
  split; [exact Hok |].
  destruct (uncontrolled_step_speed_bounds (fun _ => Fin 0.5) (Fin 100)
              (Fin 25) (Fin 0.37) (Fin 1) (Fin 1) (Fin 0.5) (Fin 1) 0
              (init_default (Fin 1000) (Fin 25)) 0 35 0.2 0.5
              eq_refl ltac:(unfold Qle; simpl; lia)
              eq_refl ltac:(unfold Qle; simpl; lia)
              eq_refl ltac:(unfold Qle; simpl; lia) Hok)
    as (H0 & H1 & _).
  split; [exact H0 | exact H1].
Defined.

(** *** Random draws *)

Lemma draws_ret {St A} (a : A) : Inv.draws 0 (mret a : M St A).
Proof. intros e. simpl. lia. Qed.

Lemma draws_pure {St A} (m : M St A) : pure m -> Inv.draws 0 m.
Proof. intros Hm e. rewrite Hm. lia. Qed.

Lemma draws_modify {St} (f : St -> St) : Inv.draws 0 (modify f).
Proof. intros e. simpl. lia. Qed.

Lemma draws_rand {St} (rand : nat -> num) :
  Inv.draws 1 (np_random_rand rand : M St num).
Proof. intros e. simpl. lia. Qed.

Lemma draws_bind {St A B} (n n' : nat) (m : M St A) (f : A -> M St B) :
  Inv.draws n m -> (forall a, Inv.draws n' (f a)) ->
  Inv.draws (n + n') (m ≫= f).
Proof.
  intros Hm Hf e. rewrite bind_run. specialize (Hm e).
  destruct (m e) as [e' [a | x]]; simpl in *.
  - specialize (Hf a e'). lia.
  - lia.
Qed.

Lemma draws_weaken {St A} (n n' : nat) (m : M St A) :
  (n <= n')%nat -> Inv.draws n m -> Inv.draws n' m.
Proof. intros Hn Hm e. specialize (Hm e). lia. Qed.

Lemma draws_compute_decision (gap ls la : num) :
  Inv.draws 0 (compute_decision gap ls la).
Proof.
  intros e. rewrite cursor_compute_decision. lia.
Qed.

Lemma pure_get_next_speed : pure get_next_speed.
Proof. unfold get_next_speed. repeat pure_step. Qed.

Ltac draws_zero :=
  first [ apply draws_compute_decision | apply draws_modify
        | apply draws_ret
        | apply draws_pure;
          first [ apply pure_compute_safe_speed | apply pure_get
                | apply pure_get_next_speed ] ].

(** X2.  A decision step of a vehicle draws at most one random number,
    with or without centralized control.  Without centralized control a
    step that returns has drawn exactly one, the noise, and a step that
    raises has drawn none. *)
Theorem calculate_next_state_draws (rand : nat -> num)
    (gap ls la dt : num) (mean : option num) (ma sp : num)
    (e : env VehicleAgent) :
  let out := calculate_next_state rand gap ls la dt mean ma sp e in
  (cursor e <= cursor out.1 <= cursor e + 1)%nat
  /\ (mean = None ->
      cursor out.1 = match out.2 with
                     | Ok _ => S (cursor e)
                     | Raise _ => cursor e
                     end).
Proof.
  cbv zeta. split.
  - revert e. change (Inv.draws 1 (calculate_next_state rand gap ls la dt
                                     mean ma sp)).
    unfold calculate_next_state. destruct mean as [mean |].
    + apply (draws_bind 0 1); [draws_zero |]. intros _.
      apply (draws_bind 0 1); [draws_zero |]. intros v_safe.
      apply (draws_bind 0 1); [draws_zero |]. intros self.
      apply (draws_bind 0 1); [draws_zero |]. intros eta.
      apply (draws_bind 0 1); [draws_zero |]. intros _.
      apply (draws_bind 0 1); [draws_zero |]. intros next.
      apply (draws_bind 0 1); [draws_zero |]. intros _.
      apply (draws_bind 0 1); [draws_zero |]. intros next'.
      destruct (_ <? _)%num; [| apply (draws_weaken 0); [lia | draws_zero]].
      apply (draws_bind 1 0); [apply draws_rand |]. intros u.
      apply (draws_bind 0 0); [draws_zero |]. intros self'.
      destruct (_ <? _)%num; [| draws_zero].
      apply (draws_bind 0 0); [draws_zero |]. intros next''. draws_zero.
    + apply (draws_bind 0 1); [draws_zero |]. intros _.
      apply (draws_bind 0 1); [draws_zero |]. intros v_safe.
      apply (draws_bind 0 1); [draws_zero |]. intros self.
      apply (draws_bind 1 0); [apply draws_rand |]. intros eta.
      apply (draws_bind 0 0); [draws_zero |]. intros _. draws_zero.
  - intros ->. rewrite calculate_next_state_uncontrolled.
    pose proof (cursor_compute_decision gap ls la e) as Hc.
    destruct (compute_decision gap ls la e) as [e1 [[] | x]];
      simpl in Hc |- *; [| exact Hc].
    pose proof (pure_compute_safe_speed gap ls e1) as Hp.
    destruct (compute_safe_speed gap ls e1) as [e2 [v_safe | x]];
      simpl in Hp |- *; subst e2; now rewrite Hc.
Qed.

Lemma calculate_next_state_draws_witness :
  let out := calculate_next_state (fun _ => Fin 0.5) (Fin 100) (Fin 25)
               (Fin 0.37) (Fin 1) None (Fin 1) (Fin 0.5)
               (Env (init_default (Fin 1000) (Fin 25)) 7) in
  out.2 = Ok tt /\ cursor out.1 = 8%nat.
Proof.
  intros out.
  assert (Hok : out.2 = Ok tt) by (vm_compute; reflexivity).
  split; [exact Hok |].
  destruct (calculate_next_state_draws (fun _ => Fin 0.5) (Fin 100)
              (Fin 25) (Fin 0.37) (Fin 1) None (Fin 1) (Fin 0.5)
              (Env (init_default (Fin 1000) (Fin 25)) 7)) as [_ H].
  specialize (H eq_refl). fold out in H. rewrite Hok in H. exact H.
Defined.

(** *** The safe speed *)

Lemma Qinv_le_1 (D : Q) : (1 <= D)%Q -> (0 < / D)%Q /\ (/ D <= 1)%Q.
Proof.
  intros HD. split.
  - apply Qinv_lt_0_compat. lra.
  - apply Qle_shift_inv_r; lra.
Qed.

Lemma Qscale_between (x r : Q) :
  (0 < r)%Q -> (r <= 1)%Q ->
  ((0 <= x -> 0 <= x * r /\ x * r <= x)
   /\ (x <= 0 -> x <= x * r /\ x * r <= 0))%Q.
Proof. intros H0 H1. split; intros Hx; split; nra. Qed.



(** *** Above the desired speed *)



End VehicleStep.

(** ** The greedy lane-change policy *)

Section Greedy.

Import Agent.

Variable heap : ref -> VehicleAgent.

(** [traditional_lane_switch], step by step. *)
Lemma traditional_lane_switch_run (self : VehicleAgent) (front : ref)
    (cars_left cars_right : cars) (road_length : num) (k : nat)
    (l r : bool) (gap : num) :
  can_switch_lanes heap cars_left cars_right (Env self k)
  = (Env self k, Ok (l, r)) ->
  Num.mod_ (position (heap front) - position self) road_length = Ok gap ->
  traditional_lane_switch heap (Some front) cars_left cars_right
    road_length (Env self k)
  = (Env self k,
     Ok (Spec.intent (Spec.slow_and_close heap self front gap) l r
           (Spec.right_clear heap self cars_right road_length))).
Proof.
  intros Hcan Hgap.
  unfold traditional_lane_switch. run_method. rewrite Hcan.
  unfold Spec.intent, Spec.slow_and_close, attr. run_method.
  destruct l, r; cbn [negb andb]; rewrite ?Hgap.
  - destruct (_ && _); [reflexivity |].
    unfold Spec.right_clear. destruct cars_right as [[[fr |] bk] |].
    + destruct (mod_ok (position (heap fr) - position self) road_length
                  (mod_divisor _ _ _ Hgap)) as [g ->].
      now destruct (g >? Fin 200)%num.
    + reflexivity.
    + now apply can_switch_lanes_no_right in Hcan.
  - now destruct (_ && _).
  - destruct (_ && _); [reflexivity |].
    unfold Spec.right_clear. destruct cars_right as [[[fr |] bk] |].
    + destruct (mod_ok (position (heap fr) - position self) road_length
                  (mod_divisor _ _ _ Hgap)) as [g ->].
      now destruct (g >? Fin 200)%num.
    + reflexivity.
    + now apply can_switch_lanes_no_right in Hcan.
  - now destruct (_ && _).
Qed.

Lemma greedy_lane_switch_run (self : VehicleAgent) (front : ref)
    (cars_left cars_right : cars) (road_length : num) (k : nat)
    (l r : bool) (gap : num) :
  can_switch_lanes heap cars_left cars_right (Env self k)
  = (Env self k, Ok (l, r)) ->
  Num.mod_ (position (heap front) - position self) road_length = Ok gap ->
  greedy_lane_switch heap (Some front) cars_left cars_right
    road_length (Env self k)
  = (Env self k,
     Ok (Inv.greedy_intent (Spec.slow_and_close heap self front gap) l r)).
Proof.
  intros Hcan Hgap.
  unfold greedy_lane_switch. run_method. rewrite Hcan.
  unfold Inv.greedy_intent, Spec.slow_and_close, attr. run_method.
  destruct l, r; cbn [negb andb]; rewrite ?Hgap;
    now destruct (_ && _).
Qed.


End Greedy.

Section GreedyExamples.

Import Agent.


End GreedyExamples.

(** ** The neighbour queries *)

Section Neighbours.

Import Agent Track.

Lemma last_elem_of (l : list ref) (x : ref) : list.last l = Some x -> x ∈ l.
Proof.
  intros H. apply last_Some in H as [l' ->].
  apply elem_of_app. right. apply elem_of_cons. now left.
Qed.

Lemma find_rev_elem (f : ref -> bool) (l : list ref) (x : ref) :
  List.find f (rev l) = Some x -> x ∈ l.
Proof.
  intros H. apply find_some in H as [H _]. apply in_rev in H.
  now apply list_elem_of_In.
Qed.

Lemma car_in_front_run (t : Track) (lane : Z) (p : num) (k : nat) :
  car_in_front lane p (Env t k)
  = (Env t k,
     match py_index (List.length (lanes_list t)) lane
           ≫= (lanes_list t !!.) with
     | None => Raise IndexError
     | Some [] => Ok None
     | Some (first :: l) =>
         Ok (Some (default first
                     (List.find (fun veh => (position (vehicles t veh)
                                             >? p)%num) (first :: l))))
     end).
Proof.
  unfold car_in_front, get_lane. run_method.
  destruct (option_bind _ _ _ (py_index _ lane)) as [[| first l] |];
    try reflexivity.
  now destruct (List.find _ (first :: l)).
Qed.

Lemma car_in_back_run (t : Track) (lane : Z) (p : num) (k : nat) :
  car_in_back lane p (Env t k)
  = (Env t k,
     match py_index (List.length (lanes_list t)) lane
           ≫= (lanes_list t !!.) with
     | None => Raise IndexError
     | Some [] => Ok None
     | Some (first :: l) =>
         Ok (match List.find (fun veh => (position (vehicles t veh)
                                          <? p)%num) (rev (first :: l)) with
             | Some veh => Some veh
             | None => list.last (first :: l)
             end)
     end).
Proof.
  unfold car_in_back, get_lane. run_method.
  destruct (option_bind _ _ _ (py_index _ lane)) as [[| first l] |];
    try reflexivity.
  now destruct (List.find _ (rev (first :: l))).
Qed.

(** The two queries on a lane of the track. *)
Lemma neighbours_run (t : Track) (j : nat) (l : list ref) (p : num)
    (k : nat) :
  lanes_list t !! j = Some l ->
  match l with
  | [] =>
      car_in_front (Z.of_nat j) p (Env t k) = (Env t k, Ok None)
      /\ car_in_back (Z.of_nat j) p (Env t k) = (Env t k, Ok None)
  | _ :: _ =>
      exists front back : ref,
        car_in_front (Z.of_nat j) p (Env t k) = (Env t k, Ok (Some front))
        /\ car_in_back (Z.of_nat j) p (Env t k)
           = (Env t k, Ok (Some back))
  end.
Proof.
  intros Hj. rewrite car_in_front_run, car_in_back_run.
  rewrite py_index_nat by (eapply lookup_lt_Some; exact Hj).
  simpl (Some j ≫= _). rewrite Hj.
  destruct l as [| first l]; [now split |].
  destruct (List.find _ (rev (first :: l))) as [vb |].
  - eauto.
  - destruct (list.last (first :: l)) as [vl |] eqn:Hlast; [eauto |].
    now apply last_None in Hlast.
Qed.

(** X6.  [car_in_front] and [car_in_back] read the track without changing
    it.  On an index that is no lane both raise [IndexError]; on an empty
    lane both return [None]; on any other lane both return a vehicle of
    that lane, whatever the position asked for. *)
Theorem neighbours_of_a_lane (t : Track) (lane : Z) (p : num) (k : nat) :
  match py_index (List.length (lanes_list t)) lane
        ≫= (lanes_list t !!.) with
  | None =>
      car_in_front lane p (Env t k) = (Env t k, Raise IndexError)
      /\ car_in_back lane p (Env t k) = (Env t k, Raise IndexError)
  | Some [] =>
      car_in_front lane p (Env t k) = (Env t k, Ok None)
      /\ car_in_back lane p (Env t k) = (Env t k, Ok None)
  | Some l =>
      exists front back : ref,
        car_in_front lane p (Env t k) = (Env t k, Ok (Some front))
        /\ car_in_back lane p (Env t k) = (Env t k, Ok (Some back))
        /\ front ∈ l /\ back ∈ l
  end.
Proof.
  rewrite car_in_front_run, car_in_back_run.
  destruct (py_index (List.length (lanes_list t)) lane
              ≫= (lanes_list t !!.)) as [[| first l] |];
    try (split; reflexivity).
  destruct (List.find (fun veh => (position (vehicles t veh) >? p)%num)
              (first :: l)) as [vf |] eqn:Hf;
    destruct (List.find (fun veh => (position (vehicles t veh) <? p)%num)
                (rev (first :: l))) as [vb |] eqn:Hb.
  - exists vf, vb. repeat split.
    + now apply find_elem_of in Hf.
    + now apply find_rev_elem in Hb.
  - destruct (list.last (first :: l)) as [vl |] eqn:Hl.
    + exists vf, vl. repeat split.
      * now apply find_elem_of in Hf.
      * now apply last_elem_of.
    + now apply last_None in Hl.
  - exists first, vb. repeat split.
    + apply elem_of_cons. now left.
    + now apply find_rev_elem in Hb.
  - destruct (list.last (first :: l)) as [vl |] eqn:Hl.
    + exists first, vl. repeat split.
      * apply elem_of_cons. now left.
      * now apply last_elem_of.
    + now apply last_None in Hl.
Qed.

End Neighbours.

(** ** Lane changes with the same neighbours on both sides *)

Section EqualSides.

Import Agent Track.

Lemma can_switch_lanes_same (heap : ref -> VehicleAgent) (c : cars)
    (e : env VehicleAgent) :
  can_switch_lanes heap c c e = (e, Raise AssertionError).
Proof.
  unfold can_switch_lanes.
  rewrite bool_decide_eq_false_2 by (intros H; now apply H).
  reflexivity.
Qed.

Lemma lane_switch_same (heap : ref -> VehicleAgent) (front : option ref)
    (c : cars) (road_length : num) (e : env VehicleAgent) :
  lane_switch heap front c c road_length e = (e, Raise AssertionError).
Proof.
  unfold lane_switch, traditional_lane_switch.
  rewrite bind_pure by apply pure_get. cbn [get snd].
  rewrite bind_run, can_switch_lanes_same. reflexivity.
Qed.

Lemma insert_cons (h : ref -> VehicleAgent) (x : ref) (l : list ref) :
  exists y l', insert h x l = y :: l'.
Proof. destruct l as [| y l]; simpl; [| destruct (lt h y x)]; eauto. Qed.

Lemma for_each_app {St A} (l1 l2 : list A) (body : A -> M St unit)
    (e : env St) :
  for_each (l1 ++ l2) body e = (for_each l1 body;; for_each l2 body) e.
Proof.
  revert e. induction l1 as [| x l1 IH]; intros e; simpl.
  - reflexivity.
  - rewrite !bind_run. destruct (body x e) as [e' [[] | y]]; [| reflexivity].
    rewrite IH. reflexivity.
Qed.

(** The round of [lane_switches] for an empty lane does nothing. *)
Lemma lane_switches_empty_lanes (t : Track) (k : nat) (js : list nat) :
  (forall j, j ∈ js -> lanes_list t !! j = Some []) ->
  for_each js (fun i =>
    sort_lane (Z.of_nat i);;
    lane ← get_lane (Z.of_nat i);
    lane_switches_loop (List.length lane) i 0) (Env t k)
  = (Env t k, Ok tt).
Proof.
  induction js as [| j js IH]; intros Hjs; cbn [for_each];
    [reflexivity |].
  assert (Hj : lanes_list t !! j = Some []) by (apply Hjs; left).
  cbv beta. rewrite bind_run, bind_run.
  rewrite sort_lane_run by (eapply lookup_lt_Some; exact Hj).
  rewrite (alter_lookup_id _ _ _ _ Hj) by reflexivity.
  rewrite set_lanes_list_id. cbv beta iota.
  rewrite bind_run, (get_lane_nat _ _ _ _ Hj). simpl.
  apply IH. intros j' Hj'. apply Hjs. now right.
Qed.

(** The neighbours on the two sides, where both sides are no lanes, and
    where both are empty lanes. *)
Lemma closest_cars_sides_none (t : Track) (i : Z) (p : num) (k : nat) :
  (0 <=? i - 1) && (i - 1 <? lanes_count t) = false ->
  (0 <=? i + 1) && (i + 1 <? lanes_count t) = false ->
  closest_cars_sides i p (Env t k)
  = (Env t k, Ok (<[i - 1 := None]> (<[i + 1 := None]> ∅))).
Proof.
  intros Hr Hl. unfold closest_cars_sides.
  rewrite bind_pure by apply pure_get. cbn [get snd obj]. cbv beta zeta.
  now rewrite Hr, Hl.
Qed.

Lemma closest_cars_sides_empty (t : Track) (i : nat) (p : num) (k : nat) :
  Spec.wf t ->
  lanes_list t !! (i - 1)%nat = Some [] -> (0 < i)%nat ->
  lanes_list t !! (i + 1)%nat = Some [] ->
  closest_cars_sides (Z.of_nat i) p (Env t k)
  = (Env t k, Ok (<[Z.of_nat i - 1 := Some (None, None)]>
                    (<[Z.of_nat i + 1 := Some (None, None)]> ∅))).
Proof.
  intros Hwf Hr Hi Hl. unfold closest_cars_sides.
  rewrite bind_pure by apply pure_get. cbn [get snd obj]. cbv beta zeta.
  pose proof (lookup_lt_Some _ _ _ Hl) as Hn.
  replace ((0 <=? Z.of_nat i - 1) && (Z.of_nat i - 1 <? lanes_count t))
    with true
    by (symmetry; apply andb_true_iff; split;
        [apply Z.leb_le | apply Z.ltb_lt; rewrite Hwf]; lia).
  replace ((0 <=? Z.of_nat i + 1) && (Z.of_nat i + 1 <? lanes_count t))
    with true
    by (symmetry; apply andb_true_iff; split;
        [apply Z.leb_le | apply Z.ltb_lt; rewrite Hwf]; lia).
  assert (Hempty : forall j : nat,
             lanes_list t !! j = Some [] ->
             car_in_front (Z.of_nat j) p (Env t k) = (Env t k, Ok None)
             /\ car_in_back (Z.of_nat j) p (Env t k) = (Env t k, Ok None)).
  { intros j Hj. rewrite car_in_front_run, car_in_back_run.
    rewrite py_index_nat by (eapply lookup_lt_Some; exact Hj).
    simpl. now rewrite Hj. }
  destruct (Hempty _ Hr) as [Hrf Hrb]. destruct (Hempty _ Hl) as [Hlf Hlb].
  replace (Z.of_nat (i - 1)) with (Z.of_nat i - 1) in Hrf, Hrb by lia.
  replace (Z.of_nat (i + 1)) with (Z.of_nat i + 1) in Hlf, Hlb by lia.
  rewrite bind_run, bind_run, Hrf. cbv beta iota.
  rewrite bind_run, Hrb. cbv beta iota. cbn [mret M_ret].
  rewrite bind_run, bind_run, Hlf. cbv beta iota.
  rewrite bind_run, Hlb. reflexivity.
Qed.

Lemma read_run {A} (f : VehicleAgent -> A) (r : ref) (t : Track)
    (k : nat) :
  read f r (Env t k) = (Env t k, Ok (f (vehicles t r))).
Proof. reflexivity. Qed.

(** With the same description on both sides the vehicle is asked for no
    intent: the comparison of the two descriptions fails first. *)
Lemma lane_switches_count_same (t : Track) (i : nat) (vehicle : ref)
    (l : list ref) (c : cars) (p : num) (k : nat) :
  lanes_list t !! i = Some l ->
  p = position (vehicles t vehicle) ->
  closest_cars_sides (Z.of_nat i) p (Env t k)
  = (Env t k, Ok (<[Z.of_nat i - 1 := c]> (<[Z.of_nat i + 1 := c]> ∅))) ->
  (lane_switches_count (Z.of_nat i) vehicle (Env t k)).2
  = Raise AssertionError.
Proof.
  intros Hl -> Hsides. unfold lane_switches_count.
  rewrite bind_run, read_run. cbv beta iota.
  rewrite bind_run, car_in_front_run, py_index_nat
    by (eapply lookup_lt_Some; exact Hl).
  simpl (Some i ≫= _). rewrite Hl.
  assert (Hfront : exists front,
             match l with
             | [] => Ok None
             | first :: l0 =>
                 Ok (Some (default first
                       (List.find (fun veh => (position (vehicles t veh)
                          >? position (vehicles t vehicle))%num)
                          (first :: l0))))
             end = Ok front) by (destruct l; eauto).
  destruct Hfront as [front ->]. cbv beta iota.
  rewrite bind_run, read_run. cbv beta iota.
  rewrite bind_run, Hsides. cbv beta iota.
  rewrite bind_run. unfold dict_get at 1.
  rewrite lookup_insert_ne by lia. rewrite lookup_insert_eq.
  cbn [mret M_ret]. cbv beta iota.
  rewrite bind_run. unfold dict_get at 1.
  rewrite lookup_insert_eq. cbn [mret M_ret]. cbv beta iota.
  rewrite bind_run. cbn [get]. cbv beta iota.
  rewrite call_run, lane_switch_same. reflexivity.
Qed.

(** X7.  On a road whose vehicles are all in one lane, [lane_switches]
    raises [AssertionError] when that lane is the only lane of the road,
    and when it has a lane on each side: the neighbours on the left and
    on the right are then described alike, and [can_switch_lanes] asserts
    that they are not. *)
Theorem lane_switches_equal_sides (t : Track) (i : nat) (first : ref)
    (l : list ref) (k : nat) :
  Spec.wf t ->
  lanes_list t !! i = Some (first :: l) ->
  (forall j l', j <> i -> lanes_list t !! j = Some l' -> l' = []) ->
  List.length (lanes_list t) = 1%nat
  \/ (0 < i /\ i + 1 < List.length (lanes_list t))%nat ->
  (lane_switches (Env t k)).2 = Raise AssertionError.
Proof.
  intros Hwf Hi Hothers Hshape.
  pose proof (lookup_lt_Some _ _ _ Hi) as Hlt.
  unfold lane_switches.
  rewrite bind_pure by apply pure_get. cbn [get snd].
  replace (List.length (lanes_list t))
    with (i + S (List.length (lanes_list t) - S i))%nat at 1 by lia.
  rewrite seq_app, for_each_app, bind_run.
  rewrite lane_switches_empty_lanes.
  2:{ intros j Hj. apply elem_of_seq in Hj.
      destruct (lookup_lt_is_Some_2 (lanes_list t) j) as [l' Hl']; [lia |].
      rewrite Hl'. f_equal. eapply Hothers; [| exact Hl']. lia. }
  simpl (seq _ (S _)). cbn [for_each]. cbv beta iota.
  rewrite bind_run, bind_run, sort_lane_run by exact Hlt.
  cbv beta iota.
  set (t' := set_lanes_list _ t).
  assert (Hwf' : Spec.wf t')
    by (unfold Spec.wf, t'; simpl; now rewrite length_alter).
  destruct (insert_cons (vehicles t) first (sort (vehicles t) l))
    as (y & l1 & Hsorted).
  assert (Hi' : lanes_list t' !! i = Some (y :: l1)).
  { unfold t'. simpl. rewrite list_lookup_alter_eq, Hi. simpl.
    now rewrite Hsorted. }
  assert (Hothers' : forall j, j <> i ->
             (j < List.length (lanes_list t))%nat ->
             lanes_list t' !! j = Some []).
  { intros j Hne Hj. unfold t'. simpl.
    rewrite list_lookup_alter_ne by auto.
    destruct (lookup_lt_is_Some_2 (lanes_list t) j Hj) as [l' Hl'].
    rewrite Hl'. f_equal. now apply (Hothers j). }
  rewrite bind_run, (get_lane_nat _ _ _ _ Hi'). cbv beta iota.
  cbn [List.length lane_switches_loop Nat.add].
  rewrite bind_pure by apply pure_get. cbn [get snd obj].
  rewrite Hi'. simpl (Some (y :: l1) ≫= _).
  unfold lane_switches_body. rewrite !bind_run.
  assert (Hcount : (lane_switches_count (Z.of_nat i) y (Env t' k)).2
                   = Raise AssertionError).
  { destruct Hshape as [Hone | [H0 Hn]].
    - eapply lane_switches_count_same with (c := None);
        [exact Hi' | reflexivity |].
      assert (i = 0)%nat as -> by lia.
      apply closest_cars_sides_none.
      + reflexivity.
      + rewrite Hwf'. unfold t'. simpl. rewrite length_alter, Hone.
        reflexivity.
    - eapply lane_switches_count_same with (c := Some (None, None));
        [exact Hi' | reflexivity |].
      apply closest_cars_sides_empty; auto.
      + apply Hothers'; lia.
      + apply Hothers'; lia. }
  destruct (lane_switches_count (Z.of_nat i) y (Env t' k)) as [e1 r1].
  simpl in Hcount. subst r1. reflexivity.
Qed.

Lemma lane_switches_equal_sides_witness :
  let v := Agent.init_default (Fin 10) (Fin 20) in
  let t := set_lanes_list [[0%nat]]
             (init 1 (Fin 2000) (Fin 1) false (Fin 1) (Fin 0.5)
                (fun _ => v)) in
  (lane_switches (Env t 0)).2 = Raise AssertionError.
Proof.
  intros v t.
  apply (lane_switches_equal_sides t 0 0%nat [] 0%nat).
  - reflexivity.
  - reflexivity.
  - intros [| j] l' Hj Hl'; [contradiction | discriminate].
  - left. reflexivity.
Defined.

End EqualSides.

(** ** A road without vehicles *)

Section EmptyRoad.

Import Agent Track.

Variable rand : nat -> num.
Variable coin : nat -> bool.

Lemma for_each_idle {St A} (l : list A) (body : A -> M St unit)
    (e : env St) :
  (forall x, x ∈ l -> body x e = (e, Ok tt)) ->
  for_each l body e = (e, Ok tt).
Proof.
  induction l as [| x l IH]; intros Hbody; cbn [for_each];
    [reflexivity |].
  rewrite bind_run, Hbody by left. apply IH.
  intros x' Hx'. apply Hbody. now right.
Qed.

Lemma sort_empty_lane (t : Track) (j : nat) (k : nat) :
  lanes_list t !! j = Some [] ->
  sort_lane (Z.of_nat j) (Env t k) = (Env t k, Ok tt).
Proof.
  intros Hj. rewrite sort_lane_run by (eapply lookup_lt_Some; exact Hj).
  rewrite (alter_lookup_id _ _ _ _ Hj) by reflexivity.
  now rewrite set_lanes_list_id.
Qed.

Lemma concat_empty_lanes (ll : list (list ref)) :
  (forall l, l ∈ ll -> l = []) -> concat ll = [].
Proof.
  induction ll as [| l ll IH]; intros H; simpl; [reflexivity |].
  rewrite (H l) by left. apply IH. intros l' Hl'. apply H. now right.
Qed.

(** X8.  On a road whose lanes are all empty every pass of a time step
    returns and leaves the track and the random stream as they are: the
    two lane-change passes, the decision pass (under centralized control
    the mean speed of an empty lane is [None], the division by zero
    being caught), the commit pass and the periodic boundary, which
    counts no crossing. *)
Theorem passes_on_empty_road (t : Track) (prefered_per_lane : list Z)
    (road_length : num) (k : nat) :
  Spec.wf t ->
  (forall l, l ∈ lanes_list t -> l = []) ->
  lane_switches (Env t k) = (Env t k, Ok tt)
  /\ lane_switches_central coin prefered_per_lane (Env t k)
     = (Env t k, Ok tt)
  /\ calculate_next_state rand (Env t k) = (Env t k, Ok tt)
  /\ update_state (Env t k) = (Env t k, Ok tt)
  /\ Model.boundary_pass road_length (Env t k) = (Env t k, Ok 0).
Proof.
  intros Hwf Hempty.
  assert (Hlane : forall j, (j < List.length (lanes_list t))%nat ->
                    lanes_list t !! j = Some []).
  { intros j Hj.
    destruct (lookup_lt_is_Some_2 (lanes_list t) j Hj) as [l Hl].
    rewrite Hl. f_equal. apply Hempty. eapply list_elem_of_lookup_2.
    exact Hl. }
  assert (Hseq : forall j n, j ∈ seq 0 n -> (j < n)%nat)
    by (intros j n Hj; apply elem_of_seq in Hj; lia).
  repeat split.
  - unfold lane_switches.
    rewrite bind_pure by apply pure_get. cbn [get snd obj].
    apply lane_switches_empty_lanes. intros j Hj. apply Hlane, Hseq, Hj.
  - unfold lane_switches_central.
    rewrite bind_pure by apply pure_get. cbn [get snd obj].
    apply for_each_idle. intros j Hj. apply Hseq in Hj.
    rewrite bind_pure by apply pure_get. cbn [get snd obj].
    rewrite bind_run, for_each_idle.
    2:{ intros j' Hj'. apply sort_empty_lane, Hlane, Hseq, Hj'. }
    cbv beta iota. rewrite bind_run, (get_lane_nat _ _ []).
    + reflexivity.
    + apply Hlane. unfold Spec.wf in Hwf. lia.
  - unfold calculate_next_state.
    rewrite bind_pure by apply pure_get. cbn [get snd obj].
    apply for_each_idle. intros j Hj. apply Hseq in Hj.
    rewrite bind_run, sort_empty_lane by now apply Hlane.
    cbv beta iota. rewrite bind_run, (get_lane_nat _ _ []) by now apply Hlane.
    cbv beta iota. unfold mean_speed_lane.
    rewrite bind_run, bind_run. cbn [get obj]. cbv beta iota.
    now destruct (central_control t).
  - unfold update_state.
    rewrite bind_pure by apply pure_get. cbn [get snd obj].
    apply for_each_idle. intros j Hj. apply Hseq in Hj.
    now rewrite bind_run, (get_lane_nat _ _ []) by now apply Hlane.
  - unfold Model.boundary_pass.
    rewrite bind_pure by apply pure_get. cbn [get snd obj].
    now rewrite concat_empty_lanes.
Qed.

End EmptyRoad.

Section EmptyRoadExamples.

Import Agent Track.

Lemma passes_on_empty_road_witness :
  let t := init 3 (Fin 2000) (Fin 1) true (Fin 1) (Fin 0.5)
             (fun _ => init_default (Fin 0) (Fin 25)) in
  Spec.wf t
  /\ lane_switches_central (fun _ => true) [0; 0; 0] (Env t 0)
     = (Env t 0, Ok tt)
  /\ calculate_next_state (fun _ => Fin 0.5) (Env t 0) = (Env t 0, Ok tt).
Proof.
  intros t.
  assert (Hwf : Spec.wf t) by reflexivity.
  assert (Hempty : forall l, l ∈ lanes_list t -> l = []).
  { intros l Hl. apply elem_of_replicate in Hl. apply Hl. }
  split; [exact Hwf |].
  destruct (passes_on_empty_road (fun _ => Fin 0.5) (fun _ => true) t
              [0; 0; 0] (Fin 2000) 0 Hwf Hempty)
    as (_ & H2 & H3 & _).
  split; [exact H2 | exact H3].
Defined.

End EmptyRoadExamples.

(** ** The commit pass *)

Section CommitPass.

Import Agent Track.

Lemma commit_frame_refl (t : Track) : Inv.commit_frame t t.
Proof. unfold Inv.commit_frame. tauto. Qed.

Lemma update_state_run (dt : num) (lane : Z) (v : VehicleAgent) (k : nat) :
  cursor (Agent.update_state dt lane (Env v k)).1 = k
  /\ (Agent.update_state dt lane (Env v k)).2
     = if Inv.has_next_speed v then Ok tt else Raise AttributeError.
Proof.
  unfold Agent.update_state, get_next_speed, Inv.has_next_speed.
  run_method.
  now destruct (next_speed v).
Qed.

(** The commit of one vehicle. *)
Lemma commit_vehicle (t0 s : Track) (lane : Z) (vehicle : ref) (k : nat) :
  Inv.commit_frame t0 s ->
  let out := (t ← get; call vehicle (Agent.update_state (Track.dt t) lane))
               (Env s k) in
  cursor out.1 = k
  /\ Inv.commit_frame t0 (obj out.1)
  /\ out.2 = if Inv.has_next_speed (vehicles t0 vehicle) then Ok tt
             else Raise AttributeError.
Proof.
  intros (Hll & Hf). cbv zeta.
  rewrite bind_pure by apply pure_get. cbn [get snd obj].
  rewrite call_run. cbn [fst snd obj cursor].
  destruct (update_state_run (Track.dt s) lane (vehicles s vehicle) k)
    as [Hk Hr].
  assert (Hs : Inv.settings (vehicles s vehicle)
               = Inv.settings (vehicles t0 vehicle)) by apply Hf.
  split; [exact Hk |]. split.
  - unfold Inv.commit_frame. simpl. split; [exact Hll |].
    repeat (split; [apply Hf |]).
    intros r. destruct (decide (vehicle = r)) as [<- | Hne].
    + rewrite fn_lookup_insert, update_state_settings. exact Hs.
    + rewrite fn_lookup_insert_ne by exact Hne. apply Hf.
  - rewrite Hr. unfold Inv.has_next_speed.
    assert (Hn : next_speed (vehicles s vehicle)
                 = next_speed (vehicles t0 vehicle))
      by (unfold Inv.settings in Hs; congruence).
    now rewrite Hn.
Qed.

(** The commit of a lane. *)
Lemma commit_lane (t0 : Track) (lane : Z) (l : list ref) :
  forall (s : Track) (k : nat),
    Inv.commit_frame t0 s ->
    let out := for_each l (fun vehicle =>
                 t ← get;
                 call vehicle (Agent.update_state (Track.dt t) lane))
                 (Env s k) in
    cursor out.1 = k
    /\ Inv.commit_frame t0 (obj out.1)
    /\ out.2 = if forallb (fun r => Inv.has_next_speed (vehicles t0 r)) l
               then Ok tt else Raise AttributeError.
Proof.
  induction l as [| x l IH]; intros s k Hs; cbv zeta; cbn [for_each].
  - simpl. auto.
  - rewrite bind_run.
    destruct (commit_vehicle t0 s lane x k Hs) as (Hk & Hf & Hr).
    cbv zeta in Hk, Hf, Hr. cbv beta in Hk, Hf, Hr.
    destruct ((t ← get; call x (Agent.update_state (Track.dt t) lane))
                (Env s k)) as [[s1 k1] r1].
    simpl in Hk, Hf, Hr. subst k1 r1. cbn [forallb].
    destruct (Inv.has_next_speed (vehicles t0 x)); simpl.
    + apply (IH s1 k Hf).
    + auto.
Qed.

(** The commit of the lanes from [a] on. *)
Lemma commit_lanes (t0 : Track) (m : nat) :
  forall (a : nat) (s : Track) (k : nat),
    Inv.commit_frame t0 s ->
    (a + m = List.length (lanes_list t0))%nat ->
    let out := for_each (seq a m) (fun lane_numb =>
                 lane ← get_lane (Z.of_nat lane_numb);
                 for_each lane (fun vehicle =>
                   t ← get;
                   call vehicle
                     (Agent.update_state (Track.dt t)
                        (Z.of_nat lane_numb)))) (Env s k) in
    cursor out.1 = k
    /\ Inv.commit_frame t0 (obj out.1)
    /\ out.2 = if forallb
                    (forallb (fun r => Inv.has_next_speed (vehicles t0 r)))
                    (drop a (lanes_list t0))
               then Ok tt else Raise AttributeError.
Proof.
  induction m as [| m IH]; intros a s k Hs Ham; cbv zeta;
    cbn [seq for_each].
  - rewrite drop_ge by lia. simpl. auto.
  - destruct (lookup_lt_is_Some_2 (lanes_list t0) a) as [l Hl]; [lia |].
    assert (Hl' : lanes_list s !! a = Some l)
      by (destruct Hs as [-> _]; exact Hl).
    cbv beta. rewrite bind_run, bind_run, (get_lane_nat _ _ _ _ Hl').
    cbv beta iota.
    destruct (commit_lane t0 (Z.of_nat a) l s k Hs) as (Hk & Hf & Hr).
    cbv zeta in Hk, Hf, Hr.
    destruct (for_each l _ (Env s k)) as [[s1 k1] r1].
    simpl in Hk, Hf, Hr. subst k1 r1.
    rewrite (drop_S _ _ _ Hl). cbn [forallb].
    destruct (forallb _ l); simpl.
    + apply (IH (S a) s1 k Hf). lia.
    + auto.
Qed.


End CommitPass.

(** ** The decision pass, and the commit pass after it *)

Section DecisionThenCommit.

Import Agent Track.

Variable rand : nat -> num.

Lemma ltb_asym (a c : num) : (a <? c)%num = true -> (c <? a)%num = false.
Proof.
  destruct a as [x | | |], c as [y | | |]; simpl; try congruence.
  intros H. apply negb_true_iff in H. apply Qle_bool_total in H.
  now rewrite H.
Qed.

Lemma insert_hd (h : ref -> VehicleAgent) (a x : ref) (l : list ref) :
  HdRel (fun x y => lt h y x = false) a l -> lt h x a = false ->
  HdRel (fun x y => lt h y x = false) a (insert h x l).
Proof.
  intros Hl Hx. destruct l as [| y l]; simpl.
  - now constructor.
  - inversion Hl; subst. destruct (lt h y x); now constructor.
Qed.

Lemma insert_ordered (h : ref -> VehicleAgent) (x : ref) (l : list ref) :
  Inv.ordered h l -> Inv.ordered h (insert h x l).
Proof.
  unfold Inv.ordered. induction 1 as [| y l Hl IH Hy]; simpl.
  - repeat constructor.
  - destruct (lt h y x) eqn:Hyx.
    + constructor; [exact IH |]. apply insert_hd; [exact Hy |].
      now apply ltb_asym.
    + repeat constructor; assumption.
Qed.

Lemma sort_ordered (h : ref -> VehicleAgent) (l : list ref) :
  Inv.ordered h (sort h l).
Proof.
  induction l as [| x l IH]; simpl.
  - constructor.
  - now apply insert_ordered.
Qed.

Lemma ordered_ext (h h' : ref -> VehicleAgent) (l : list ref) :
  (forall r, position (h' r) = position (h r)) ->
  Inv.ordered h l -> Inv.ordered h' l.
Proof.
  intros Hp. unfold Inv.ordered. induction 1 as [| y l Hl IH Hy].
  - constructor.
  - constructor; [exact IH |].
    destruct Hy as [| z l Hz]; constructor.
    unfold lt in *. now rewrite !Hp.
Qed.

Lemma kept_position (v v' : VehicleAgent) :
  Spec.kept v = Spec.kept v' -> position v = position v'.
Proof. unfold Spec.kept. now intros [= ->]. Qed.

(** The decision step of one vehicle writes to that vehicle only, and
    has staged its speed when it returns. *)
Lemma decision_vehicle (i : Z) (mean : option num) (vehicle : ref)
    (s : Track) (k : nat) :
  let out := calculate_next_state_body rand i mean vehicle (Env s k) in
  lanes_list (obj out.1) = lanes_list s
  /\ (forall r, Spec.kept (vehicles (obj out.1) r) = Spec.kept (vehicles s r))
  /\ (forall r, r <> vehicle -> vehicles (obj out.1) r = vehicles s r)
  /\ (out.2 = Ok tt -> staged (vehicles (obj out.1) vehicle)).
Proof.
  cbv zeta. unfold calculate_next_state_body.
  rewrite bind_pure by apply pure_read.
  destruct (read position vehicle (Env s k)).2 as [p |];
    [| simpl; repeat split; auto; discriminate].
  rewrite bind_pure by apply pure_car_in_front.
  destruct (car_in_front i p (Env s k)).2 as [leader |];
    [| simpl; repeat split; auto; discriminate].
  rewrite bind_pure by apply pure_get. cbn [get snd obj].
  rewrite bind_pure by apply pure_lift.
  destruct (lift _ (Env s k)).2 as [lp |];
    [| simpl; repeat split; auto; discriminate].
  rewrite bind_pure by apply pure_lift.
  destruct (lift _ (Env s k)).2 as [gap |];
    [| simpl; repeat split; auto; discriminate].
  cbv zeta.
  assert (Hcall : forall m : Agent.Method unit,
            keeps m -> lands m ->
            let out := call vehicle m (Env s k) in
            lanes_list (obj out.1) = lanes_list s
            /\ (forall r, Spec.kept (vehicles (obj out.1) r)
                          = Spec.kept (vehicles s r))
            /\ (forall r, r <> vehicle ->
                  vehicles (obj out.1) r = vehicles s r)
            /\ (out.2 = Ok tt -> staged (vehicles (obj out.1) vehicle))).
  { intros m Hkeeps Hlands. cbv zeta. rewrite call_run.
    cbn [fst snd obj vehicles lanes_list set_vehicles].
    split; [reflexivity |]. split; [| split].
    - intros r. destruct (decide (vehicle = r)) as [<- | Hne].
      + rewrite fn_lookup_insert. apply Hkeeps.
      + now rewrite fn_lookup_insert_ne.
    - intros r Hne. now rewrite fn_lookup_insert_ne.
    - intros Hok. rewrite fn_lookup_insert. eapply Hlands. exact Hok. }
  destruct (negb _); apply Hcall;
    auto using keeps_calculate_next_state, lands_calculate_next_state.
Qed.

(** The decision steps of a lane. *)
Lemma decision_lane (i : Z) (mean : option num) (l : list ref) :
  forall (s : Track) (k : nat),
    let out := for_each l (calculate_next_state_body rand i mean)
                 (Env s k) in
    lanes_list (obj out.1) = lanes_list s
    /\ (forall r, Spec.kept (vehicles (obj out.1) r)
                  = Spec.kept (vehicles s r))
    /\ (out.2 = Ok tt ->
        (forall r, staged (vehicles s r) -> staged (vehicles (obj out.1) r))
        /\ (forall r, r ∈ l -> staged (vehicles (obj out.1) r))).
Proof.
  induction l as [| x l IH]; intros s k; cbv zeta; cbn [for_each].
  - simpl. repeat split; auto. intros r Hr. inversion Hr.
  - rewrite bind_run.
    destruct (decision_vehicle i mean x s k) as (Hll & Hkept & Hne & Hst).
    cbv zeta in Hll, Hkept, Hne, Hst.
    destruct (calculate_next_state_body rand i mean x (Env s k))
      as [[s1 k1] [[] | y]]; simpl in Hll, Hkept, Hne, Hst.
    + destruct (IH s1 k1) as (Hll' & Hkept' & Hst'). cbv zeta in *.
      split; [congruence |]. split; [intros r; congruence |].
      intros Hok. destruct (Hst' Hok) as [Hpres Hall].
      assert (Hpres1 : forall r, staged (vehicles s r) ->
                         staged (vehicles s1 r)).
      { intros r Hr. destruct (decide (r = x)) as [-> | Hrx].
        - now apply Hst.
        - now rewrite Hne. }
      split; [auto |].
      intros r Hr. apply elem_of_cons in Hr as [-> | Hr]; [| auto].
      apply Hpres. now apply Hst.
    + simpl. repeat split; auto; discriminate.
Qed.

(** The rounds of the decision pass for the lanes from [a] on: when they
    return, the lanes up to the last one visited are sorted and their
    vehicles staged, and every lane holds the vehicles it held. *)
Lemma decision_lanes (m : nat) :
  forall (a : nat) (s : Track) (k : nat),
    let out := for_each (seq a m) (fun i =>
                 sort_lane (Z.of_nat i);;
                 lane ← get_lane (Z.of_nat i);
                 mean ← mean_speed_lane lane;
                 for_each lane
                   (calculate_next_state_body rand (Z.of_nat i) mean))
                 (Env s k) in
    (a + m <= List.length (lanes_list s))%nat ->
    out.2 = Ok tt ->
    (forall j l, (j < a)%nat -> lanes_list s !! j = Some l ->
       Inv.ordered (vehicles s) l
       /\ forall r, r ∈ l -> staged (vehicles s r)) ->
    (forall j l', (j < a + m)%nat ->
       lanes_list (obj out.1) !! j = Some l' ->
       Inv.ordered (vehicles (obj out.1)) l'
       /\ forall r, r ∈ l' -> staged (vehicles (obj out.1) r))
    /\ (forall j l', lanes_list (obj out.1) !! j = Some l' ->
         exists l, lanes_list s !! j = Some l /\ Permutation l' l).
Proof.
  induction m as [| m IH]; intros a s k; cbv zeta; cbn [seq for_each].
  - intros _ _ Hdone. simpl. split.
    + intros j l' Hj. apply Hdone. lia.
    + intros j l' Hl'. now exists l'.
  - intros Hlen. cbv beta.
    destruct (lookup_lt_is_Some_2 (lanes_list s) a) as [la Hla]; [lia |].
    rewrite bind_run, bind_run, sort_lane_run by lia. cbv beta iota.
    set (s1 := set_lanes_list _ s).
    assert (Hla1 : lanes_list s1 !! a = Some (sort (vehicles s) la))
      by (unfold s1; simpl; now rewrite list_lookup_alter_eq, Hla).
    rewrite bind_run, (get_lane_nat _ _ _ _ Hla1). cbv beta iota.
    rewrite bind_pure by apply pure_mean_speed_lane.
    destruct (mean_speed_lane (sort (vehicles s) la) (Env s1 k)).2
      as [mean |]; [| discriminate].
    destruct (decision_lane (Z.of_nat a) mean (sort (vehicles s) la) s1 k)
      as (Hll & Hkept & Hst). cbv zeta in Hll, Hkept, Hst.
    destruct (for_each (sort (vehicles s) la) _ (Env s1 k))
      as [[s2 k2] [[] | y]]; [| discriminate].
    cbn [fst snd obj] in Hll, Hkept, Hst.
    destruct (Hst eq_refl) as [Hpres Hall].
    intros Hok Hdone.
    assert (Hpos : forall r, position (vehicles s2 r)
                             = position (vehicles s r)).
    { intros r. apply kept_position. rewrite Hkept. reflexivity. }
    specialize (IH (S a) s2 k2). cbv zeta in IH.
    destruct IH as [IH1 IH2].
    + rewrite Hll. unfold s1. simpl. rewrite length_alter. lia.
    + exact Hok.
    + intros j l Hj Hl. rewrite Hll in Hl.
      destruct (decide (j = a)) as [-> | Hja].
      * rewrite Hla1 in Hl. injection Hl as <-. split; [| exact Hall].
        apply (ordered_ext (vehicles s)); [exact Hpos |].
        apply sort_ordered.
      * unfold s1 in Hl. simpl in Hl.
        rewrite list_lookup_alter_ne in Hl by auto.
        destruct (Hdone j l) as [Hord Hstaged]; [lia | exact Hl |].
        split.
        -- now apply (ordered_ext (vehicles s)).
        -- intros r Hr. apply Hpres. now apply Hstaged.
    + split.
      * intros j l' Hj. apply IH1. lia.
      * intros j l' Hl'. destruct (IH2 j l' Hl') as (l2 & Hl2 & Hperm).
        rewrite Hll in Hl2. unfold s1 in Hl2. simpl in Hl2.
        destruct (decide (j = a)) as [-> | Hja].
        -- rewrite list_lookup_alter_eq, Hla in Hl2. simpl in Hl2.
           injection Hl2 as <-. exists la. split; [exact Hla |].
           now rewrite Hperm, sort_perm.
        -- rewrite list_lookup_alter_ne in Hl2 by auto. now exists l2.
Qed.

Lemma decision_pass_done (t : Track) (k : nat) :
  let out := Track.calculate_next_state rand (Env t k) in
  out.2 = Ok tt ->
  (forall j l', lanes_list (obj out.1) !! j = Some l' ->
     Inv.ordered (vehicles (obj out.1)) l'
     /\ (forall r, r ∈ l' -> staged (vehicles (obj out.1) r))
     /\ exists l, lanes_list t !! j = Some l /\ Permutation l' l).
Proof.
  cbv zeta. unfold Track.calculate_next_state.
  rewrite bind_pure by apply pure_get. cbn [get snd obj].
  intros Hok.
  destruct (decision_lanes (List.length (lanes_list t)) 0 t k)
    as [H1 H2]; [simpl; lia | exact Hok | intros j l Hj; lia |].
  cbv zeta in H1, H2. intros j l' Hl'.
  destruct (H2 j l' Hl') as (l & Hl & Hperm).
  destruct (H1 j l') as [Hord Hst];
    [simpl; eapply lookup_lt_Some; exact Hl | exact Hl' |].
  split; [exact Hord |]. split; [exact Hst |]. now exists l.
Qed.


(** X11.  When the decision pass returns, every lane is the lane it was,
    sorted: it holds the vehicles it held, and none of them compares
    below the one listed before it. *)
Theorem decision_pass_sorts_lanes (t : Track) (k : nat) :
  let out := Track.calculate_next_state rand (Env t k) in
  out.2 = Ok tt ->
  forall (j : nat) (l' : list ref),
    lanes_list (obj out.1) !! j = Some l' ->
    Inv.ordered (vehicles (obj out.1)) l'
    /\ exists l, lanes_list t !! j = Some l /\ Permutation l' l.
Proof.
  cbv zeta. intros Hok j l' Hl'.
  destruct (decision_pass_done t k Hok j l' Hl') as (Hord & _ & Hperm).
  now split.
Qed.

End DecisionThenCommit.

Section DecisionThenCommitExamples.

Import Agent Track.


Lemma decision_pass_sorts_lanes_witness :
  let out := Track.calculate_next_state (fun _ => Fin 0.5)
               (Env Inv.two_lanes 0) in
  out.2 = Ok tt
  /\ lanes_list (obj out.1) !! 0%nat = Some [0%nat; 1%nat]
  /\ Inv.ordered (vehicles (obj out.1)) [0%nat; 1%nat].
Proof.
  intros out.
  assert (Hok : out.2 = Ok tt) by (vm_compute; reflexivity).
  assert (Hl : lanes_list (obj out.1) !! 0%nat = Some [0%nat; 1%nat])
    by (vm_compute; reflexivity).
  split; [exact Hok |]. split; [exact Hl |].
  apply (decision_pass_sorts_lanes (fun _ => Fin 0.5) Inv.two_lanes 0 Hok
           0%nat [0%nat; 1%nat] Hl).
Defined.

End DecisionThenCommitExamples.

(** ** Lane changes on a road of two lanes *)

Section TwoLanes.

Import Agent Track.

Lemma can_switch_lane_returns (heap : ref -> VehicleAgent)
    (self : VehicleAgent) (c : cars) (k : nat) :
  Inv.side_shape c ->
  exists ok : bool,
    can_switch_lane heap c (Env self k) = (Env self k, Ok ok)
    /\ (ok = true -> c <> None).
Proof.
  intros Hc. unfold can_switch_lane, attr. run_method.
  destruct c as [[[f |] [b |]] |]; simpl in Hc; try contradiction.
  - destruct (decide (Some f = Some b)).
    + eexists. split; [reflexivity | discriminate].
    + destruct (_ >? _)%num; [| destruct (_ <? _)%num];
        (eexists; split; [reflexivity | discriminate]).
  - eexists. split; [reflexivity | discriminate].
  - eexists. split; [reflexivity | discriminate].
Qed.

Lemma can_switch_lanes_returns (heap : ref -> VehicleAgent)
    (self : VehicleAgent) (cars_left cars_right : cars) (k : nat) :
  cars_left <> cars_right ->
  Inv.side_shape cars_left -> Inv.side_shape cars_right ->
  exists l r : bool,
    can_switch_lanes heap cars_left cars_right (Env self k)
    = (Env self k, Ok (l, r))
    /\ (l = true -> cars_left <> None)
    /\ (r = true -> cars_right <> None).
Proof.
  intros Hne Hl Hr.
  destruct (can_switch_lane_returns heap self cars_left k Hl)
    as (l & Hrunl & Hlt).
  destruct (can_switch_lane_returns heap self cars_right k Hr)
    as (r & Hrunr & Hrt).
  exists l, r. split; [| now split].
  unfold can_switch_lanes.
  rewrite bool_decide_eq_true_2 by exact Hne.
  rewrite bind_run. cbn [py_assert mret M_ret]. cbv beta iota.
  rewrite bind_run, Hrunl. cbv beta iota.
  now rewrite bind_run, Hrunr.
Qed.

(** With a leader, two sides that differ and a road length that is not
    zero the vehicle returns an intent, and the intent points to a
    lane. *)
Lemma lane_switch_returns (heap : ref -> VehicleAgent)
    (self : VehicleAgent) (front : ref) (cars_left cars_right : cars)
    (road_length : num) (k : nat) :
  cars_left <> cars_right ->
  Inv.side_shape cars_left -> Inv.side_shape cars_right ->
  (road_length ==? Fin 0)%num = false ->
  exists c : Z,
    lane_switch heap (Some front) cars_left cars_right road_length
      (Env self k) = (Env self k, Ok c)
    /\ (c = 0 \/ (c = 1 /\ cars_left <> None)
        \/ (c = -1 /\ cars_right <> None)).
Proof.
  intros Hne Hl Hr Hlen.
  destruct (can_switch_lanes_returns heap self cars_left cars_right k
              Hne Hl Hr) as (l & r & Hcan & Hlt & Hrt).
  destruct (mod_ok (position (heap front) - position self) road_length
              Hlen) as [gap Hgap].
  unfold lane_switch.
  rewrite (traditional_lane_switch_run heap self front cars_left
             cars_right road_length k l r gap Hcan Hgap).
  eexists. split; [reflexivity |].
  unfold Spec.intent.
  destruct (Spec.slow_and_close heap self front gap).
  - destruct l; [right; left; auto | left; reflexivity].
  - destruct r; simpl; [| left; reflexivity].
    destruct (Spec.right_clear heap self cars_right road_length);
      [right; right; auto | left; reflexivity].
Qed.

(** The description of one side lane. *)
Lemma side_run (t : Track) (lane : Z) (j : nat) (lj : list ref) (p : num)
    (k : nat) :
  lane = Z.of_nat j ->
  lanes_list t !! j = Some lj ->
  exists c : cars,
    (f ← car_in_front lane p;
     b ← car_in_back lane p;
     mret (Some (f, b))) (Env t k) = (Env t k, Ok c)
    /\ Inv.side_shape c /\ c <> None.
Proof.
  intros -> Hj.
  pose proof (neighbours_run t j lj p k Hj) as Hn.
  destruct lj as [| x lj].
  - destruct Hn as [Hf Hb]. rewrite bind_run, Hf. cbv beta iota.
    rewrite bind_run, Hb. eexists. split; [reflexivity |].
    split; [exact I | discriminate].
  - destruct Hn as (f & b & Hf & Hb). rewrite bind_run, Hf. cbv beta iota.
    rewrite bind_run, Hb. eexists. split; [reflexivity |].
    split; [exact I | discriminate].
Qed.

(** The two sides of a lane of a road of two lanes: one is no lane, the
    other is a lane. *)
Lemma closest_cars_sides_two_lanes (t : Track) (i : nat) (p : num)
    (k : nat) :
  Spec.wf t -> lanes_count t = 2 ->
  (i < List.length (lanes_list t))%nat ->
  exists cars_left cars_right : cars,
    closest_cars_sides (Z.of_nat i) p (Env t k)
    = (Env t k, Ok (<[Z.of_nat i - 1 := cars_right]>
                      (<[Z.of_nat i + 1 := cars_left]> ∅)))
    /\ cars_left <> cars_right
    /\ Inv.side_shape cars_left /\ Inv.side_shape cars_right
    /\ (cars_left <> None -> Z.of_nat i + 1 < lanes_count t)
    /\ (cars_right <> None -> 0 <= Z.of_nat i - 1).
Proof.
  intros Hwf Htwo Hi. unfold Spec.wf in Hwf.
  assert (Hlen : List.length (lanes_list t) = 2%nat) by lia.
  unfold closest_cars_sides.
  rewrite bind_pure by apply pure_get. cbn [get snd obj]. cbv beta zeta.
  rewrite Htwo.
  destruct i as [| [| i]]; [| | lia].
  - destruct (lookup_lt_is_Some_2 (lanes_list t) 1) as [l1 Hl1]; [lia |].
    destruct (side_run t (Z.of_nat 0 + 1) 1 l1 p k eq_refl Hl1)
      as (c & Hc & Hshape & Hsome).
    change ((0 <=? Z.of_nat 0 - 1) && (Z.of_nat 0 - 1 <? 2)) with false.
    change ((0 <=? Z.of_nat 0 + 1) && (Z.of_nat 0 + 1 <? 2)) with true.
    cbv iota. rewrite bind_run. cbn [mret M_ret]. cbv beta iota.
    rewrite bind_run, Hc. exists c, None. split; [reflexivity |].
    repeat split; auto; try (simpl; lia). intros []; reflexivity.
  - destruct (lookup_lt_is_Some_2 (lanes_list t) 0) as [l0 Hl0]; [lia |].
    destruct (side_run t (Z.of_nat 1 - 1) 0 l0 p k eq_refl Hl0)
      as (c & Hc & Hshape & Hsome).
    change ((0 <=? Z.of_nat 1 - 1) && (Z.of_nat 1 - 1 <? 2)) with true.
    change ((0 <=? Z.of_nat 1 + 1) && (Z.of_nat 1 + 1 <? 2)) with false.
    cbv iota.
    rewrite bind_run, Hc. cbv beta iota.
    exists None, c. split; [reflexivity |].
    repeat split; auto; try (simpl; lia). intros []; reflexivity.
Qed.

Lemma eqb_refl (a : num) : Num.is_nan a = false -> (a ==? a)%num = true.
Proof.
  destruct a as [x | | |]; simpl; try congruence.
  intros _. apply Qeq_bool_iff. reflexivity.
Qed.

Lemma find_is_Some {A} (f : A -> bool) (l : list A) (x : A) :
  x ∈ l -> f x = true -> exists y, List.find f l = Some y.
Proof.
  intros Hx Hf. destruct (List.find f l) as [y |] eqn:Hfind; [eauto |].
  apply list_elem_of_In in Hx.
  rewrite (find_none _ _ Hfind x Hx) in Hf. discriminate.
Qed.

(** On a road of two lanes the vehicle returns an intent for a lane of
    the road. *)
Lemma lane_switches_count_returns (t : Track) (i : nat) (vehicle : ref)
    (l : list ref) (k : nat) :
  Inv.drivable t -> lanes_count t = 2 ->
  lanes_list t !! i = Some l -> vehicle ∈ l ->
  exists c : Z,
    (lane_switches_count (Z.of_nat i) vehicle (Env t k)).2 = Ok c
    /\ 0 <= Z.of_nat i + c < lanes_count t.
Proof.
  intros (Hwf & Hlen & Hnan) Htwo Hl Hv.
  pose proof (lookup_lt_Some _ _ _ Hl) as Hi.
  destruct (closest_cars_sides_two_lanes t i
              (position (vehicles t vehicle)) k Hwf Htwo Hi)
    as (cl & cr & Hsides & Hne & Hsl & Hsr & Hleft & Hright).
  unfold lane_switches_count.
  rewrite bind_run, read_run. cbv beta iota.
  rewrite bind_run, car_in_front_run, py_index_nat by exact Hi.
  simpl (Some i ≫= _). rewrite Hl.
  destruct l as [| first l]; [inversion Hv |]. cbv beta iota.
  rewrite bind_run, read_run. cbv beta iota.
  rewrite bind_run, Hsides. cbv beta iota.
  rewrite bind_run. unfold dict_get at 1.
  rewrite lookup_insert_ne by lia. rewrite lookup_insert_eq.
  cbn [mret M_ret]. cbv beta iota.
  rewrite bind_run. unfold dict_get at 1.
  rewrite lookup_insert_eq. cbn [mret M_ret]. cbv beta iota.
  rewrite bind_run. cbn [get]. cbv beta iota.
  rewrite call_run.
  match goal with
  | |- context [lane_switch _ (Some ?f) _ _ _ _] =>
      destruct (lane_switch_returns (vehicles t) (vehicles t vehicle) f
                  cl cr (length t) k Hne Hsl Hsr Hlen) as (c & Hc & Hcase)
  end.
  cbn [obj]. rewrite Hc. cbn [snd]. exists c. split; [reflexivity |].
  unfold Spec.wf in Hwf.
  destruct Hcase as [-> | [[-> Hsome] | [-> Hsome]]].
  - lia.
  - specialize (Hleft Hsome). lia.
  - specialize (Hright Hsome). lia.
Qed.

(** The round of [lane_switches] for one vehicle of the lane returns. *)
Lemma lane_switches_body_returns (t : Track) (i : nat) (vehicle : ref)
    (l : list ref) (k : nat) :
  Inv.drivable t -> lanes_count t = 2 ->
  lanes_list t !! i = Some l -> vehicle ∈ l ->
  (lane_switches_body (Z.of_nat i) vehicle (Env t k)).2 = Ok tt.
Proof.
  intros Hd Htwo Hl Hv.
  destruct (lane_switches_count_returns t i vehicle l k Hd Htwo Hl Hv)
    as (c & Hc & Hrange).
  destruct (lane_switches_count_run (Z.of_nat i) vehicle t k)
    as (Hre & Hll & _). cbv zeta in Hre, Hll.
  destruct Hd as (Hwf & Hlen & Hnan).
  unfold lane_switches_body. rewrite bind_run.
  destruct (lane_switches_count (Z.of_nat i) vehicle (Env t k))
    as [[t1 k1] r1]. cbn [fst snd obj] in Hc, Hre, Hll. subst r1.
  destruct Hre as (Hcount & _ & _ & _ & _ & _ & Hveh & _).
  rewrite bind_run, read_run. cbv beta iota.
  rewrite switch_lane_run. cbv zeta.
  rewrite Hcount, Hll.
  replace ((0 <=? Z.of_nat i + c) && (Z.of_nat i + c <? lanes_count t))
    with true
    by (symmetry; apply andb_true_iff; split;
        [apply Z.leb_le | apply Z.ltb_lt]; lia).
  cbn [negb]. destruct (c =? 0); [reflexivity |].
  rewrite py_index_nat by (eapply lookup_lt_Some; exact Hl).
  rewrite Hl. destruct l as [| first l]; [inversion Hv |].
  destruct (find_is_Some
              (fun veh => (position (vehicles t1 veh)
                           ==? position (vehicles t1 vehicle))%num)
              (first :: l) vehicle Hv) as [veh ->].
  { apply eqb_refl. rewrite Hveh. apply Hnan. }
  rewrite py_index_in_range by lia. reflexivity.
Qed.

Lemma drivable_reached (t0 t : Track) :
  Inv.drivable t0 -> Spec.reached t0 t -> Inv.drivable t.
Proof.
  intros (_ & Hlen & Hnan) [Hwf Hre].
  destruct Hre as (_ & Hl & _ & _ & _ & _ & Hveh & _).
  split; [exact Hwf |]. split; [now rewrite Hl |].
  intros r. rewrite Hveh. apply Hnan.
Qed.

Lemma two_lanes_reached (t0 t : Track) :
  lanes_count t0 = 2 -> Spec.reached t0 t -> lanes_count t = 2.
Proof. intros H [_ Hre]. destruct Hre as (-> & _). exact H. Qed.

(** The inner loop on a road reached from a drivable road of two
    lanes. *)
Lemma lane_switches_loop_returns (t0 : Track) (i : nat) (fuel : nat) :
  Inv.drivable t0 -> lanes_count t0 = 2 ->
  forall (n : nat) (t : Track) (k : nat),
    Spec.reached t0 t ->
    let out := lane_switches_loop fuel i n (Env t k) in
    out.2 = Ok tt /\ Spec.reached t0 (obj out.1).
Proof.
  intros Hd Htwo. induction fuel as [| fuel IH]; intros n t k Ht;
    cbv zeta; cbn [lane_switches_loop].
  - simpl. auto.
  - rewrite bind_pure by apply pure_get. cbn [get snd obj].
    destruct (lanes_list t !! i) as [l |] eqn:Hl; [| simpl; auto].
    simpl (Some l ≫= _).
    destruct (l !! n) as [vehicle |] eqn:Hn; [| simpl; auto].
    rewrite bind_run.
    pose proof (lane_switches_body_returns t i vehicle l k
                  (drivable_reached _ _ Hd Ht)
                  (two_lanes_reached _ _ Htwo Ht) Hl
                  (list_elem_of_lookup_2 _ _ _ Hn)) as Hok.
    pose proof (reached_body t0 i vehicle (Env t k) Ht) as Hre.
    destruct (lane_switches_body (Z.of_nat i) vehicle (Env t k))
      as [[t1 k1] r1]. cbn [snd] in Hok. subst r1.
    apply IH. exact Hre.
Qed.

(** The rounds for the lanes. *)
Lemma lane_switches_lanes_return (t0 : Track) (js : list nat) :
  Inv.drivable t0 -> lanes_count t0 = 2 ->
  (forall j, j ∈ js -> (j < List.length (lanes_list t0))%nat) ->
  forall (t : Track) (k : nat),
    Spec.reached t0 t ->
    let out := for_each js (fun i =>
                 sort_lane (Z.of_nat i);;
                 lane ← get_lane (Z.of_nat i);
                 lane_switches_loop (List.length lane) i 0) (Env t k) in
    out.2 = Ok tt /\ Spec.reached t0 (obj out.1).
Proof.
  intros Hd Htwo. induction js as [| j js IH]; intros Hjs t k Ht;
    cbv zeta; cbn [for_each].
  - simpl. auto.
  - cbv beta.
    assert (Hj : (j < List.length (lanes_list t))%nat).
    { destruct Ht as [_ Hre].
      destruct Hre as (_ & _ & _ & _ & _ & _ & _ & -> & _).
      apply Hjs. left. }
    rewrite bind_run, bind_run, sort_lane_run by exact Hj.
    cbv beta iota.
    pose proof (reached_sort_lane t0 (Z.of_nat j) (Env t k) Ht) as Ht1.
    rewrite sort_lane_run in Ht1 by exact Hj. cbn [obj] in Ht1.
    set (t1 := set_lanes_list _ t) in *.
    destruct (lookup_lt_is_Some_2 (lanes_list t1) j) as [l Hl].
    { unfold t1. simpl. now rewrite length_alter. }
    rewrite bind_run, (get_lane_nat _ _ _ _ Hl). cbv beta iota.
    destruct (lane_switches_loop_returns t0 j (List.length l) Hd Htwo
                0%nat t1 k Ht1) as [Hok Hre]. cbv zeta in Hok, Hre.
    destruct (lane_switches_loop (List.length l) j 0 (Env t1 k))
      as [[t2 k2] r2]. cbn [fst snd obj] in Hok, Hre. subst r2.
    apply IH; [| exact Hre]. intros j' Hj'. apply Hjs. now right.
Qed.



End TwoLanes.

(** ** Centralized lane changes on a balanced road *)

Section Balanced.

Import Agent Track.

Variable coin : nat -> bool.

Lemma sort_id (h : ref -> VehicleAgent) (l : list ref) :
  Inv.ordered h l -> sort h l = l.
Proof.
  unfold Inv.ordered. induction 1 as [| x l Hl IH Hx]; simpl.
  - reflexivity.
  - rewrite IH. destruct Hx as [| y l Hy]; simpl; [reflexivity |].
    now rewrite Hy.
Qed.

Lemma sort_length (h : ref -> VehicleAgent) (l : list ref) :
  List.length (sort h l) = List.length l.
Proof. apply Permutation_length, sort_perm. Qed.

(** [for lane in self.lanes_list: lane.sort()] *)
Lemma sort_lanes_run (m : nat) :
  forall (a : nat) (s : Track) (k : nat),
    (a + m = List.length (lanes_list s))%nat ->
    for_each (seq a m) (fun i => sort_lane (Z.of_nat i)) (Env s k)
    = (Env (set_lanes_list
              (take a (lanes_list s)
               ++ map (sort (vehicles s)) (drop a (lanes_list s))) s) k,
       Ok tt).
Proof.
  induction m as [| m IH]; intros a s k Ha; cbn [seq for_each].
  - rewrite take_ge, drop_ge by lia. simpl. rewrite app_nil_r.
    now rewrite set_lanes_list_id.
  - destruct (lookup_lt_is_Some_2 (lanes_list s) a) as [x Hx]; [lia |].
    rewrite bind_run, sort_lane_run by lia. cbv beta iota.
    rewrite IH by (simpl; rewrite length_alter; lia).
    cbn [lanes_list vehicles set_lanes_list].
    rewrite drop_alter_lt by lia.
    rewrite (take_S_r _ _ (sort (vehicles s) x))
      by (now rewrite list_lookup_alter_eq, Hx).
    rewrite take_alter_ge by lia.
    rewrite (drop_S _ _ _ Hx). simpl. now rewrite <- app_assoc.
Qed.

Lemma sort_lanes_all (s : Track) (k : nat) :
  for_each (seq 0 (List.length (lanes_list s)))
    (fun i => sort_lane (Z.of_nat i)) (Env s k)
  = (Env (set_lanes_list (map (sort (vehicles s)) (lanes_list s)) s) k,
     Ok tt).
Proof. now rewrite sort_lanes_run by lia. Qed.

(** The round of the centralized pass for a lane that holds no more
    vehicles than preferred: the lanes are sorted, and the loop over the
    lane stops at its first vehicle. *)
Lemma central_round_balanced (prefered_per_lane : list Z) (s : Track)
    (lane_i : nat) (k : nat) :
  Forall2 (fun l q => Z.of_nat (List.length l) <= q) (lanes_list s)
    prefered_per_lane ->
  (lane_i < List.length (lanes_list s))%nat ->
  (t ← get;
   for_each (seq 0 (List.length (lanes_list t)))
     (fun i => sort_lane (Z.of_nat i));;
   lane ← get_lane (Z.of_nat lane_i);
   let lane_count := List.length lane in
   lane_switches_central_loop coin lane_count lane_i lane_count
     prefered_per_lane 0) (Env s k)
  = (Env (set_lanes_list (map (sort (vehicles s)) (lanes_list s)) s) k,
     Ok tt).
Proof.
  intros Hq Hi.
  rewrite bind_pure by apply pure_get. cbn [get snd obj].
  rewrite bind_run, sort_lanes_all. cbv beta iota.
  set (s1 := set_lanes_list _ s).
  destruct (lookup_lt_is_Some_2 (lanes_list s) lane_i Hi) as [l Hl].
  assert (Hl1 : lanes_list s1 !! lane_i = Some (sort (vehicles s) l))
    by (unfold s1; simpl; now rewrite list_lookup_fmap, Hl).
  rewrite bind_run, (get_lane_nat _ _ _ _ Hl1). cbv beta iota zeta.
  destruct (Forall2_lookup_l _ _ _ _ _ Hq Hl) as (q & Hqi & Hle).
  destruct (sort (vehicles s) l) as [| veh l'] eqn:Hsort;
    cbn [List.length lane_switches_central_loop]; [reflexivity |].
  rewrite bind_pure by apply pure_get. cbn [get snd obj].
  rewrite Hl1. simpl (Some _ ≫= _).
  unfold list_get.
  rewrite py_index_nat by (eapply lookup_lt_Some; exact Hqi).
  simpl (Some lane_i ≫= _). rewrite Hqi. rewrite bind_run.
  cbn [mret M_ret]. cbv beta iota.
  assert (Hlen : List.length l = S (List.length l'))
    by (rewrite <- (sort_length (vehicles s) l), Hsort; reflexivity).
  replace (Z.of_nat (S (List.length l')) >? q) with false
    by (symmetry; rewrite Z.gtb_ltb; apply Z.ltb_ge; lia).
  reflexivity.
Qed.

(** X13.  Centralized lane changes on a balanced road.  When no lane
    holds more vehicles than its preferred number, [lane_switches_central]
    returns without moving any vehicle and without drawing a random
    number: it leaves every lane sorted, and nothing else changed. *)
Theorem lane_switches_central_balanced (prefered_per_lane : list Z)
    (t : Track) (k : nat) :
  Spec.wf t ->
  Forall2 (fun l q => Z.of_nat (List.length l) <= q) (lanes_list t)
    prefered_per_lane ->
  lane_switches_central coin prefered_per_lane (Env t k)
  = (Env (set_lanes_list (map (sort (vehicles t)) (lanes_list t)) t) k,
     Ok tt).
Proof.
  intros Hwf Hq. unfold lane_switches_central.
  rewrite bind_pure by apply pure_get. cbn [get snd obj].
  unfold Spec.wf in Hwf. rewrite Hwf, Nat2Z.id.
  destruct (lanes_list t) as [| l0 ll] eqn:Hll.
  - simpl. rewrite <- Hll. now rewrite set_lanes_list_id.
  - rewrite <- Hll in *.
    replace (List.length (lanes_list t))
      with (S (List.length (lanes_list t) - 1))
      by (rewrite Hll; simpl; lia).
    cbn [seq for_each]. cbv beta.
    rewrite bind_run, central_round_balanced
      by (try exact Hq; rewrite Hll; simpl; lia).
    cbv beta iota.
    set (t1 := set_lanes_list _ t).
    assert (Hsorted : map (sort (vehicles t1)) (lanes_list t1)
                      = lanes_list t1).
    { unfold t1. simpl. rewrite map_map. apply map_ext.
      intros l. apply sort_id, sort_ordered. }
    assert (Hq1 : Forall2 (fun l q => Z.of_nat (List.length l) <= q)
                    (lanes_list t1) prefered_per_lane).
    { unfold t1. simpl. apply Forall2_fmap_l.
      eapply Forall2_impl; [| exact Hq]. intros l q Hle. simpl.
      now rewrite sort_length. }
    apply for_each_idle. intros j Hj. apply elem_of_seq in Hj.
    rewrite central_round_balanced.
    + now rewrite Hsorted, set_lanes_list_id.
    + exact Hq1.
    + unfold t1. simpl. rewrite length_map. lia.
Qed.

End Balanced.

Section BalancedExamples.

Import Agent Track.

Lemma lane_switches_central_balanced_witness :
  lane_switches_central (fun _ => true) [2; 1] (Env Inv.two_lanes 0)
  = (Env (set_lanes_list [[0%nat; 1%nat]; [2%nat]] Inv.two_lanes) 0,
     Ok tt).
Proof.
  apply (lane_switches_central_balanced (fun _ => true) [2; 1]
           Inv.two_lanes 0).
  - reflexivity.
  - repeat constructor; simpl; lia.
Defined.

End BalancedExamples.

(** ** The staged speed under centralized control *)

Section Controlled.

Import Agent.

(** A decision step under centralized control, step by step. *)
Lemma calculate_next_state_controlled (rand : nat -> num)
    (gap ls la dt mean ma sp : num) (e : env VehicleAgent) :
  calculate_next_state rand gap ls la dt (Some mean) ma sp e
  = match compute_decision gap ls la e with
    | (e1, Raise x) => (e1, Raise x)
    | (e1, Ok _) =>
        match compute_safe_speed gap ls e1 with
        | (e2, Raise x) => (e2, Raise x)
        | (e2, Ok v_safe) =>
            let self := obj e2 in
            let capped :=
              Num.max (Fin 0)
                (Num.min3 (max_speed self)
                   (current_speed self + acceleration self * dt) v_safe
                 - b self * Fin 0.5) in
            let steered :=
              (capped
               + Num.max (Num.neg ma) (Num.min ma (mean - capped)))%num in
            if (Fin 0 <? gap + Fin 3 * (ls - steered))%num then
              if (rand (cursor e2) <? AC self)%num then
                (Env (set_next_speed (steered + sp) self) (S (cursor e2)),
                 Ok tt)
              else (Env (set_next_speed steered self) (S (cursor e2)), Ok tt)
            else (Env (set_next_speed steered self) (cursor e2), Ok tt)
        end
    end.
Proof.
  unfold calculate_next_state. unfold mbind at 1 2. unfold M_bind at 1 2.
  destruct (compute_decision gap ls la e) as [e1 [[] | x]]; [| reflexivity].
  destruct (compute_safe_speed gap ls e1) as [[v2 k2] [v_safe | x]];
    [| reflexivity].
  unfold get_next_speed, np_random_rand. run_method. cbv zeta.
  cbn [next_speed set_next_speed AC].
  destruct (_ <? _)%num; [| reflexivity].
  destruct (_ <? _)%num; reflexivity.
Qed.

Lemma max_0_fin (x : num) (m : Q) :
  (0 <= m)%Q -> (x <=? Fin m)%num = true ->
  exists n : Q, Num.max (Fin 0) x = Fin n /\ (0 <= n <= m)%Q.
Proof.
  intros Hm Hx. unfold Num.max, Num.gtb.
  destruct (Fin 0 <? x)%num eqn:Hpos.
  - destruct x as [y | | |]; simpl in *; try discriminate.
    exists y. split; [reflexivity |].
    apply negb_true_iff in Hpos. apply Qle_bool_total in Hpos.
    apply Qle_bool_iff in Hpos, Hx. split; assumption.
  - exists 0%Q. split; [reflexivity |]. split; [apply Qle_refl | exact Hm].
Qed.

(** The step toward the mean speed: at most [max_accel] away from the
    capped speed, and not beyond the mean. *)
Lemma steer_between (n mu ma : Q) :
  (0 <= ma)%Q ->
  exists d : Q,
    Num.max (Num.neg (Fin ma)) (Num.min (Fin ma) (Fin mu - Fin n))
    = Fin d
    /\ (- ma <= d <= ma)%Q
    /\ ((n <= mu -> 0 <= d <= mu - n) /\ (mu <= n -> mu - n <= d <= 0))%Q.
Proof.
  intros Hma. unfold Num.max, Num.min, Num.gtb. simpl.
  destruct (negb (Qle_bool ma (mu + - n))) eqn:H1; simpl.
  - apply negb_true_iff in H1.
    pose proof (Qle_bool_total _ _ H1) as H1'. apply Qle_bool_iff in H1'.
    destruct (negb (Qle_bool (mu + - n) (- ma))) eqn:H2.
    + apply negb_true_iff in H2. apply Qle_bool_total in H2.
      apply Qle_bool_iff in H2.
      exists (mu + - n)%Q. split; [reflexivity |]. repeat split; lra.
    + apply negb_false_iff in H2. apply Qle_bool_iff in H2.
      exists (- ma)%Q. split; [reflexivity |]. repeat split; lra.
  - apply negb_false_iff in H1. apply Qle_bool_iff in H1.
    destruct (negb (Qle_bool ma (- ma))) eqn:H2.
    + exists ma. split; [reflexivity |]. repeat split; lra.
    + apply negb_false_iff in H2. apply Qle_bool_iff in H2.
      exists (- ma)%Q. split; [reflexivity |]. repeat split; lra.
Qed.

(** The staged speed under centralized control. *)
Lemma next_speed_bounded_with_control (rand : nat -> num)
    (gap ls la dt : num) (self : VehicleAgent) (k : nat)
    (m bq mu ma sp : Q) :
  max_speed self = Fin m -> (0 <= m)%Q ->
  b self = Fin bq -> (0 <= bq)%Q ->
  (0 <= mu)%Q -> (0 <= ma)%Q -> (0 <= sp)%Q ->
  let out := calculate_next_state rand gap ls la dt (Some (Fin mu))
               (Fin ma) (Fin sp) (Env self k) in
  out.2 = Ok tt ->
  exists s : Q,
    next_speed (obj out.1) = Some (Fin s)
    /\ (0 <= s /\ s <= m + ma + sp /\ (s <= m + sp \/ s <= mu + sp))%Q.
Proof.
  intros Hmax Hm Hb Hbq Hmu Hma Hsp out. subst out.
  rewrite calculate_next_state_controlled.
  pose proof (keeps_compute_decision gap ls la (Env self k)) as K1.
  destruct (compute_decision gap ls la (Env self k)) as [[v1 k1] [[] | x]];
    [| discriminate].
  simpl in K1.
  pose proof (pure_compute_safe_speed gap ls (Env v1 k1)) as Hp.
  destruct (compute_safe_speed gap ls (Env v1 k1)) as [e2 [v_safe | x]];
    [| discriminate].
  simpl in Hp. subst e2. cbv zeta. cbn [obj cursor].
  assert (Hmax1 : max_speed v1 = Fin m).
  { unfold Spec.kept in K1. injection K1 as _ _ _ -> _. exact Hmax. }
  assert (Hb1 : b v1 = Fin bq).
  { unfold Spec.kept in K1. injection K1 as _ _ _ _ _ _ _ -> _.
    exact Hb. }
  rewrite Hb1, Hmax1. cbn [Num.mul].
  destruct (max_0_fin
              (Num.min3 (Fin m) (current_speed v1 + acceleration v1 * dt)
                 v_safe - Fin (bq * 0.5)) m Hm) as (n & -> & Hn0 & Hnm).
  { apply sub_bounded; [lra |]. unfold Num.min3.
    apply min_bounded, min_bounded. simpl. apply Qle_bool_iff, Qle_refl. }
  destruct (steer_between n mu ma Hma) as (d & -> & [Hd1 Hd2] & Hup & Hdown).
  cbn [Num.add].
  assert (Hsteered : (0 <= n + d /\ n + d <= m + ma
                      /\ (n + d <= m \/ n + d <= mu))%Q).
  { destruct (Qlt_le_dec mu n) as [Hlt | Hle].
    - destruct Hdown as [Hd3 Hd4]; [lra |].
      repeat split; first [lra | left; lra].
    - destruct (Hup Hle) as [Hd3 Hd4].
      repeat split; first [lra | right; lra]. }
  destruct Hsteered as (Hs0 & Hs1 & Hs2).
  destruct (_ <? _)%num; [destruct (_ <? _)%num |]; intros _;
    cbn [fst snd obj next_speed set_next_speed].
  - exists (n + d + sp)%Q. split; [reflexivity |].
    repeat split; first [lra | destruct Hs2; [left | right]; lra].
  - exists (n + d)%Q. split; [reflexivity |].
    repeat split; first [lra | destruct Hs2; [left | right]; lra].
  - exists (n + d)%Q. split; [reflexivity |].
    repeat split; first [lra | destruct Hs2; [left | right]; lra].
Qed.

(** X14.  Under centralized control a decision step that returns has
    staged a real speed that is not negative, provided [max_speed], the
    mean speed, [max_accel], [speed_push] and [b] are real numbers that
    are not negative.  The staged speed exceeds [max_speed] by at most
    [max_accel + speed_push], and it exceeds the larger of [max_speed]
    and the mean speed by at most [speed_push]. *)
Theorem controlled_next_speed_bounds (rand : nat -> num)
    (gap ls la dt : num) (self : VehicleAgent) (k : nat)
    (m bq mu ma sp : Q) :
  max_speed self = Fin m -> (0 <= m)%Q ->
  b self = Fin bq -> (0 <= bq)%Q ->
  (0 <= mu)%Q -> (0 <= ma)%Q -> (0 <= sp)%Q ->
  let out := calculate_next_state rand gap ls la dt (Some (Fin mu))
               (Fin ma) (Fin sp) (Env self k) in
  out.2 = Ok tt ->
  exists s : Q,
    next_speed (obj out.1) = Some (Fin s)
    /\ (0 <= s /\ s <= m + ma + sp /\ (s <= m + sp \/ s <= mu + sp))%Q.
Proof.
  intros Hmax Hm Hb Hbq Hmu Hma Hsp out Hok.
  exact (next_speed_bounded_with_control rand gap ls la dt self k m bq mu ma
           sp Hmax Hm Hb Hbq Hmu Hma Hsp Hok).
Qed.

Lemma controlled_next_speed_bounds_witness :
  let out := calculate_next_state (fun _ => Fin 0.25) (Fin 1000)
               (Fin 34.8) (Fin 0) (Fin 1) (Some (Fin 34.8)) (Fin 1)
               (Fin 0.5) (Env (init_default (Fin 0) (Fin 34.8)) 0) in
  out.2 = Ok tt
  /\ exists s : Q,
       next_speed (obj out.1) = Some (Fin s)
       /\ (0 <= s /\ s <= 35 + 1 + 0.5
           /\ (s <= 35 + 0.5 \/ s <= 34.8 + 0.5))%Q.
Proof.
  intros out.
  assert (Hok : out.2 = Ok tt) by (vm_compute; reflexivity).
  split; [exact Hok |].
  apply (controlled_next_speed_bounds (fun _ => Fin 0.25) (Fin 1000)
           (Fin 34.8) (Fin 0) (Fin 1) (init_default (Fin 0) (Fin 34.8)) 0
           35 0.2 34.8 1 0.5 eq_refl ltac:(unfold Qle; simpl; lia)
           eq_refl ltac:(unfold Qle; simpl; lia)
           ltac:(unfold Qle; simpl; lia) ltac:(unfold Qle; simpl; lia)
           ltac:(unfold Qle; simpl; lia) Hok).
Defined.

End Controlled.

(** ** The run of the model *)

Section Run.

Import Agent.

Lemma increment_first_run (q : Z) (m : nat) :
  forall i rest : nat,
    (m <= rest)%nat ->
    Model.increment_first m i (replicate i (q + 1) ++ replicate rest q)
    = Ok (replicate (i + m) (q + 1) ++ replicate (rest - m) q).
Proof.
  induction m as [| m IH]; intros i rest Hm; cbn [Model.increment_first].
  - now rewrite Nat.add_0_r, Nat.sub_0_r.
  - destruct rest as [| rest]; [lia |].
    rewrite lookup_app_r by (rewrite length_replicate; lia).
    rewrite length_replicate, Nat.sub_diag. cbn [replicate].
    change ((q :: replicate rest q) !! 0%nat) with (Some q). cbv beta iota.
    rewrite insert_app_r_alt by (rewrite length_replicate; lia).
    rewrite length_replicate, Nat.sub_diag. simpl (<[0%nat := _]> _).
    rewrite (cons_middle (q + 1)), app_assoc, <- replicate_S_end.
    rewrite IH by lia.
    now replace (S i + m)%nat with (i + S m)%nat by lia.
Qed.

Lemma foldl_add_replicate (a x : Z) (n : nat) :
  foldl Z.add a (replicate n x) = a + Z.of_nat n * x.
Proof.
  revert a. induction n as [| n IH]; intros a.
  - simpl. lia.
  - cbn [replicate foldl]. rewrite IH. lia.
Qed.

(** X15.  The preferred numbers of cars per lane that [run] computes for
    centralized control.  On a road with at least one lane, whose lane
    count is the number of its lanes, the computation returns one number
    per lane; the numbers add up to the number of cars on the road; the
    first [total mod lanes] of them are the quotient plus one and the
    others the quotient, so they differ by one at most.  With a lane
    count of zero the computation raises [ZeroDivisionError]. *)
Theorem prefered_per_lane_shares (t : Track.Track) :
  let total :=
    foldl Z.add 0 (map (fun lane : list ref => Z.of_nat (List.length lane))
                       (Track.lanes_list t)) in
  let n := List.length (Track.lanes_list t) in
  (Spec.wf t -> (0 < n)%nat ->
   exists pl : list Z,
     Model.prefered_per_lane t = Ok pl
     /\ pl = replicate (Z.to_nat (total mod Z.of_nat n))
               (total / Z.of_nat n + 1)
             ++ replicate (n - Z.to_nat (total mod Z.of_nat n))
                  (total / Z.of_nat n)
     /\ List.length pl = n
     /\ foldl Z.add 0 pl = total)
  /\ (Track.lanes_count t = 0 ->
      Model.prefered_per_lane t = Raise ZeroDivisionError).
Proof.
  cbv zeta. split.
  - intros Hwf Hn. unfold Spec.wf in Hwf.
    set (total := foldl Z.add 0 _).
    set (n := List.length (Track.lanes_list t)) in *.
    assert (Hmod : 0 <= total mod Z.of_nat n < Z.of_nat n)
      by (apply Z.mod_pos_bound; lia).
    eexists. split; [| split; [reflexivity | split]].
    + unfold Model.prefered_per_lane, Model.floordiv, Model.modulo.
      fold total. fold n. rewrite Hwf.
      replace (Z.of_nat n =? 0) with false by (symmetry; apply Z.eqb_neq; lia).
      destruct n as [| n'] eqn:Hn'; [lia |]. rewrite <- Hn' in *.
      pose proof (increment_first_run (total / Z.of_nat n)
                    (Z.to_nat (total mod Z.of_nat n)) 0 n) as Hinc.
      change (replicate 0 (total / Z.of_nat n + 1)
              ++ replicate n (total / Z.of_nat n))
        with (replicate n (total / Z.of_nat n)) in Hinc.
      change (0 + Z.to_nat (total mod Z.of_nat n))%nat
        with (Z.to_nat (total mod Z.of_nat n)) in Hinc.
      rewrite Hinc by lia. reflexivity.
    + rewrite length_app, !length_replicate. lia.
    + rewrite foldl_app, !foldl_add_replicate.
      pose proof (Z.div_mod total (Z.of_nat n)) as Hdm. nia.
  - intros Hzero. unfold Model.prefered_per_lane, Model.floordiv,
      Model.modulo. rewrite Hzero. simpl (0 =? 0).
    now destruct (List.length (Track.lanes_list t)).
Qed.

Lemma prefered_per_lane_shares_witness :
  Spec.wf Inv.two_lanes
  /\ exists pl : list Z,
       Model.prefered_per_lane Inv.two_lanes = Ok pl
       /\ pl = [2; 1]
       /\ List.length pl = 2%nat
       /\ foldl Z.add 0 pl = 3.
Proof.
  assert (Hwf : Spec.wf Inv.two_lanes) by reflexivity.
  split; [exact Hwf |].
  destruct (prefered_per_lane_shares Inv.two_lanes) as [H _].
  apply (H Hwf). simpl. lia.
Defined.



End Run.

(** ** The first vehicles of a lane *)

Section Populate.

Import Agent Track.

Variable rand : nat -> num.

Lemma np_random_uniform_run (low high : num) (t : Track) (n : nat) :
  forall k : nat,
    np_random_uniform rand low high n (Env t k)
    = (Env t (k + n),
       Ok (map (fun j => (low + (high - low) * rand j)%num) (seq k n))).
Proof.
  induction n as [| n IH]; intros k; cbn [np_random_uniform seq map].
  - now rewrite Nat.add_0_r.
  - rewrite bind_run. unfold np_random_rand at 1. cbn [obj cursor].
    rewrite bind_run, IH.
    now replace (S k + n)%nat with (k + S n)%nat by lia.
Qed.

Lemma uniform_between (w hi : Q) (k n : nat) :
  Inv.unit_draws rand -> (0 <= w <= hi)%Q ->
  Forall (Inv.real_between 0 hi)
    (map (fun j => (Fin 0 + (Fin w - Fin 0) * rand j)%num) (seq k n)).
Proof.
  intros Hrand Hw. apply Forall_forall. intros x Hx.
  apply in_map_iff in Hx as (j & <- & _).
  destruct (Hrand j) as (u & -> & Hu).
  eexists. split; [reflexivity |].
  assert (H : (0 <= w * u <= w)%Q) by nra. lra.
Qed.

Lemma np_insert_Forall (P : num -> Prop) (x : num) (l : list num) :
  P x -> Forall P l -> Forall P (np_insert x l).
Proof.
  intros Hx. induction 1 as [| y l Hy Hl IH]; simpl.
  - now repeat constructor.
  - destruct (np_lt x y); repeat constructor; assumption.
Qed.

Lemma np_sort_Forall (P : num -> Prop) (l : list num) :
  Forall P l -> Forall P (np_sort l).
Proof.
  induction 1 as [| x l Hx Hl IH]; simpl; [constructor |].
  now apply np_insert_Forall.
Qed.

Lemma np_insert_length (x : num) (l : list num) :
  List.length (np_insert x l) = S (List.length l).
Proof.
  induction l as [| y l IH]; simpl; [reflexivity |].
  destruct (np_lt x y); simpl; now rewrite ?IH.
Qed.

Lemma np_sort_length (l : list num) :
  List.length (np_sort l) = List.length l.
Proof.
  induction l as [| x l IH]; simpl; [reflexivity |].
  now rewrite np_insert_length, IH.
Qed.

Lemma np_lt_real (lo hi : Q) (x y : num) :
  Inv.real_between lo hi x -> Inv.real_between lo hi y ->
  (np_lt x y = true -> (x <=? y)%num = true)
  /\ (np_lt x y = false -> (y <=? x)%num = true).
Proof.
  intros (p & -> & _) (q & -> & _). unfold np_lt. simpl.
  rewrite orb_false_r. split; intros H.
  - apply negb_true_iff in H. now apply Qle_bool_total.
  - now apply negb_false_iff in H.
Qed.

Lemma np_insert_sorted (lo hi : Q) (x : num) (l : list num) :
  Inv.real_between lo hi x -> Forall (Inv.real_between lo hi) l ->
  Sorted (fun a c => (a <=? c)%num = true) l ->
  Sorted (fun a c => (a <=? c)%num = true) (np_insert x l).
Proof.
  intros Hx Hl Hs. induction Hs as [| y l Hs IH Hy]; simpl.
  - repeat constructor.
  - apply Forall_cons_1 in Hl as [Hy' Hl].
    destruct (np_lt_real lo hi x y Hx Hy') as [Hlt Hge].
    destruct (np_lt x y) eqn:Hxy.
    + repeat constructor; auto.
    + constructor; [now apply IH |].
      destruct l as [| z l]; simpl.
      * constructor. now apply Hge.
      * destruct (np_lt x z); constructor; [now apply Hge |].
        now inversion Hy.
Qed.

Lemma np_sort_sorted (lo hi : Q) (l : list num) :
  Forall (Inv.real_between lo hi) l ->
  Sorted (fun a c => (a <=? c)%num = true) (np_sort l).
Proof.
  induction 1 as [| x l Hx Hl IH]; simpl; [constructor |].
  apply (np_insert_sorted lo hi); auto. now apply np_sort_Forall.
Qed.

Lemma add_arange_length (l : list num) :
  forall i, List.length (add_arange i l) = List.length l.
Proof. induction l as [| x l IH]; intros i; simpl; now rewrite ?IH. Qed.

Lemma of_nat_S (i : nat) :
  (inject_Z (Z.of_nat (S i)) == inject_Z (Z.of_nat i) + 1)%Q.
Proof. now rewrite Nat2Z.inj_succ, <- Z.add_1_r, inject_Z_plus. Qed.

(** After the shift by five metres per index the positions are five
    metres apart at least, the last of them at most [5 * len - 5] above
    the largest draw. *)
Lemma add_arange_gaps (w : Q) (l : list num) :
  Forall (Inv.real_between 0 w) l ->
  Sorted (fun a c => (a <=? c)%num = true) l ->
  forall i : nat,
    Sorted (fun a c => (a + Fin 5 <=? c)%num = true) (add_arange i l)
    /\ Forall (Inv.real_between 0
                 (w + 5 * inject_Z (Z.of_nat (i + List.length l)) - 5))
         (add_arange i l).
Proof.
  intros Hl Hs. induction Hs as [| x l Hs IH Hx]; intros i; simpl.
  - split; constructor.
  - apply Forall_cons_1 in Hl as [(q & -> & Hq) Hl].
    destruct (IH Hl (S i)) as [IHs IHf].
    assert (Hi : (0 <= inject_Z (Z.of_nat i))%Q)
      by (rewrite <- (Zle_Qle 0); lia).
    assert (Hlen : (0 <= inject_Z (Z.of_nat (List.length l)))%Q)
      by (rewrite <- (Zle_Qle 0); lia).
    assert (Hsum : (inject_Z (Z.of_nat (i + S (List.length l)))
                    == inject_Z (Z.of_nat i)
                       + inject_Z (Z.of_nat (List.length l)) + 1)%Q).
    { rewrite Nat.add_succ_r, of_nat_S, Nat2Z.inj_add, inject_Z_plus.
      reflexivity. }
    split.
    + constructor; [exact IHs |].
      destruct l as [| y l]; simpl; [constructor |].
      apply Forall_cons_1 in Hl as [(r & -> & Hr) _].
      inversion Hx as [| ? ? Hxy]; subst. constructor.
      simpl in Hxy |- *. apply Qle_bool_iff in Hxy. apply Qle_bool_iff.
      rewrite of_nat_S. lra.
    + constructor.
      * eexists. split; [reflexivity |]. rewrite Hsum. nra.
      * eapply Forall_impl; [| exact IHf].
        intros a (r & -> & Hr). exists r. split; [reflexivity |].
        replace (S i + List.length l)%nat with (i + S (List.length l))%nat
          in Hr by lia. exact Hr.
Qed.

Lemma zip_with_sorted (R : num -> num -> Prop) (ps : list num) :
  Sorted R ps ->
  forall ss : list num,
    Sorted (fun v w => R (position v) (position w))
      (zip_with init_default ps ss).
Proof.
  induction 1 as [| p ps Hs IH Hp]; intros ss; simpl; [constructor |].
  destruct ss as [| s ss]; [constructor |].
  constructor; [apply IH |].
  destruct Hp as [| q ps Hpq]; simpl; [constructor |].
  destruct ss as [| s' ss]; constructor. exact Hpq.
Qed.

Lemma zip_with_Forall (P Q : num -> Prop) (ps : list num) :
  Forall P ps ->
  forall ss : list num,
    Forall Q ss ->
    Forall (fun v => P (position v) /\ Q (current_speed v))
      (zip_with init_default ps ss).
Proof.
  induction 1 as [| p ps Hp Hps IH]; intros ss Hss; simpl; [constructor |].
  destruct Hss as [| s ss Hs Hss]; [constructor |].
  constructor; [now split | now apply IH].
Qed.

(** X17.  [populate_lane] keeps its promise of minimum gaps.  For
    [N >= 0] vehicles that fit on the road ([5 * N <= length]) and draws
    of the generator in [[0, 1)], it returns [N] new vehicles in the
    order of their positions, each at least five metres (a vehicle
    length) behind the next, every one with its length within the road,
    [0 <= position] and [position + 5 <= length], and with a speed in
    [[0, 35)]; it draws [2 * N] numbers and leaves the track alone.  A
    negative [N] raises [ValueError]. *)
Theorem populate_lane_gaps (t : Track) (N : Z) (L : Q) (k : nat) :
  (0 <= N ->
   Inv.unit_draws rand ->
   length t = Fin L -> (inject_Z N * 5 <= L)%Q ->
   exists vs : list VehicleAgent,
     populate_lane rand N (Env t k)
     = (Env t (k + 2 * Z.to_nat N), Ok vs)
     /\ List.length vs = Z.to_nat N
     /\ Sorted (fun v w => (position v + Fin 5 <=? position w)%num = true)
          vs
     /\ Forall (fun v =>
                  Inv.real_between 0 (L - 5) (position v)
                  /\ Inv.real_between 0 35 (current_speed v)
                  /\ (current_speed v <? Fin 35)%num = true) vs)
  /\ (N < 0 -> populate_lane rand N (Env t k) = (Env t k, Raise ValueError)).
Proof.
  split.
  - intros HN Hrand Hlen Hfit.
    set (n := Z.to_nat N).
    set (w := (L - inject_Z N * 5)%Q).
    unfold populate_lane.
    rewrite bind_pure by apply pure_get. cbn [get snd obj].
    replace (N <? 0) with false by (symmetry; apply Z.ltb_ge; lia).
    cbv zeta. fold n. rewrite Hlen.
    rewrite bind_run, np_random_uniform_run. cbv beta iota.
    rewrite bind_run, np_random_uniform_run. cbv beta iota.
    set (us := map _ (seq k n)). set (ss := map _ (seq (k + n) n)).
    assert (Hus : Forall (Inv.real_between 0 w) us).
    { apply (uniform_between w w k n Hrand). unfold w. lra. }
    assert (Hss : Forall (fun x => Inv.real_between 0 35 x
                                   /\ (x <? Fin 35)%num = true) ss).
    { apply Forall_forall. intros x Hx.
      apply in_map_iff in Hx as (j & <- & _).
      destruct (Hrand j) as (u & -> & Hu). split.
      - eexists. split; [reflexivity |]. lra.
      - simpl. apply negb_true_iff.
        destruct (Qle_bool 35 (0 + (35 + - 0) * u)) eqn:Hle;
          [| reflexivity].
        apply Qle_bool_iff in Hle. lra. }
    assert (Hlus : List.length us = n)
      by (unfold us; now rewrite length_map, length_seq).
    assert (Hlss : List.length ss = n)
      by (unfold ss; now rewrite length_map, length_seq).
    destruct (add_arange_gaps w (np_sort us)
                (np_sort_Forall _ _ Hus) (np_sort_sorted 0 w us Hus) 0)
      as [Hgaps Hrange].
    rewrite np_sort_length, Hlus in Hrange. cbn [Nat.add] in Hrange.
    eexists. split; [| split; [| split]].
    + cbn [mret M_ret]. now replace (k + n + n)%nat with (k + 2 * n)%nat
        by lia.
    + rewrite length_zip_with, add_arange_length, np_sort_length. lia.
    + apply (zip_with_sorted
               (fun a c => (a + Fin 5 <=? c)%num = true) _ Hgaps).
    + eapply Forall_impl;
        [| apply (zip_with_Forall _ _ _ Hrange _ Hss)].
      intros v [(q & Hq & Hq0 & Hq1) [Hs1 Hs2]]. cbv beta in *.
      split; [| now split].
      exists q. split; [exact Hq |].
      assert (Hn : (inject_Z (Z.of_nat n) == inject_Z N)%Q)
        by (unfold n; now rewrite Z2Nat.id).
      rewrite Hn in Hq1. unfold w in Hq1. lra.
  - intros HN. unfold populate_lane.
    rewrite bind_pure by apply pure_get. cbn [get snd obj].
    now replace (N <? 0) with true by (symmetry; apply Z.ltb_lt; lia).
Qed.

End Populate.

Section PopulateExamples.

Import Agent Track.

Lemma populate_lane_gaps_witness :
  exists vs : list VehicleAgent,
    populate_lane (fun j => Fin (1 # Pos.of_nat (j + 2))) 3
      (Env Inv.two_lanes 0) = (Env Inv.two_lanes 6, Ok vs)
    /\ List.length vs = 3%nat
    /\ Sorted (fun v w => (position v + Fin 5 <=? position w)%num = true)
         vs.
Proof.
  assert (Hrand : Inv.unit_draws (fun j => Fin (1 # Pos.of_nat (j + 2)))).
  { intros j. eexists. split; [reflexivity |].
    unfold Qle, Qlt. simpl. lia. }
  destruct (populate_lane_gaps (fun j => Fin (1 # Pos.of_nat (j + 2)))
              Inv.two_lanes 3 2000 0) as [H _].
  destruct (H ltac:(lia) Hrand eq_refl ltac:(unfold Qle; simpl; lia))
    as (vs & Hrun & Hlen & Hsorted & _).
  exists vs. split; [exact Hrun |]. split; [exact Hlen | exact Hsorted].
Defined.

End PopulateExamples.

(** ** Centralized lane changes *)

Section Central.

Import Agent Track.

Variable coin : nat -> bool.

Lemma pure_list_get (l : list Z) (i : Z) : pure (list_get l i : Method Z).
Proof. unfold list_get. repeat pure_step. Qed.

(** [can_switch_central] moves no vehicle. *)
Lemma can_switch_central_run (i : Z) (vehicle : ref) (t : Track)
    (k : nat) :
  Spec.rearranged t (obj (can_switch_central vehicle i (Env t k)).1).
Proof.
  unfold can_switch_central.
  rewrite bind_pure by apply pure_read.
  destruct (read position vehicle (Env t k)).2 as [p |];
    [| apply rearranged_refl].
  rewrite bind_pure by apply pure_car_in_front.
  destruct (car_in_front i p (Env t k)).2 as [front |];
    [| apply rearranged_refl].
  rewrite bind_pure by apply pure_read.
  destruct (read position vehicle (Env t k)).2 as [p' |];
    [| apply rearranged_refl].
  rewrite bind_pure by apply pure_closest_cars_sides.
  destruct (closest_cars_sides i p' (Env t k)).2 as [sides |];
    [| apply rearranged_refl].
  rewrite bind_pure by apply pure_dict_get.
  destruct (dict_get sides (i + 1) (Env t k)).2 as [left |];
    [| apply rearranged_refl].
  rewrite bind_pure by apply pure_dict_get.
  destruct (dict_get sides (i - 1) (Env t k)).2 as [right |];
    [| apply rearranged_refl].
  rewrite bind_pure by apply pure_get. cbn [get snd obj].
  rewrite call_run.
  rewrite (pure_can_switch_lanes (vehicles t) left right
             (Env (vehicles t vehicle) k)).
  unfold Spec.rearranged. simpl. repeat split; try reflexivity.
  intros r0. destruct (decide (vehicle = r0)) as [<- | Hne].
  - now rewrite fn_lookup_insert.
  - now rewrite fn_lookup_insert_ne.
Qed.

(** The move that follows the choice. *)
Lemma central_move_run (i : nat) (veh : ref) (choice : Z) (t : Track)
    (k : nat) :
  Spec.wf t -> choice = 0 \/ choice = 1 ->
  Spec.rearranged t
    (obj ((p ← read position veh;
           switch_lane (Z.of_nat i) p
             ((if choice =? 0 then 1 else 0)
              - (if choice =? 1 then 1 else 0))) (Env t k)).1).
Proof.
  intros Hwf Hchoice. rewrite bind_run, read_run. cbv beta iota.
  apply switch_lane_one_move; [exact Hwf |].
  destruct Hchoice as [-> | ->]; simpl; unfold Spec.is_intent; auto.
Qed.

(** The round of the centralized pass for one vehicle moves one vehicle
    at most. *)
Lemma central_body_run (i : nat) (veh : ref) (t : Track) (k : nat) :
  Spec.wf t ->
  Spec.rearranged t
    (obj (lane_switches_central_body coin (Z.of_nat i) veh (Env t k)).1).
Proof.
  intros Hwf. unfold lane_switches_central_body. rewrite bind_run.
  pose proof (can_switch_central_run (Z.of_nat i) veh t k) as Hre.
  destruct (can_switch_central veh (Z.of_nat i) (Env t k))
    as [[t1 k1] [[lr rr] | x]]; cbn [fst snd obj] in *; [| exact Hre].
  pose proof (rearranged_wf _ _ Hwf Hre) as Hwf1.
  destruct (lr || rr); [| exact Hre].
  rewrite bind_run.
  destruct (lr && rr); [| destruct lr].
  - unfold np_random_randint. cbn [obj cursor]. cbv beta iota.
    eapply rearranged_trans; [exact Hre |].
    apply central_move_run; [exact Hwf1 |]. destruct (coin k1); auto.
  - cbn [mret M_ret]. cbv beta iota.
    eapply rearranged_trans; [exact Hre |].
    apply central_move_run; auto.
  - cbn [mret M_ret]. cbv beta iota.
    eapply rearranged_trans; [exact Hre |].
    apply central_move_run; auto.
Qed.

Lemma reached_central_body (t0 : Track) (i : nat) (veh : ref) :
  triple (Spec.reached t0)
         (lane_switches_central_body coin (Z.of_nat i) veh)
         (fun _ => Spec.reached t0) (Spec.reached t0).
Proof.
  intros [t k] Ht. simpl in Ht.
  pose proof (reached_step _ _ _ Ht
                (central_body_run i veh t k (proj1 Ht))) as H.
  now destruct (lane_switches_central_body coin (Z.of_nat i) veh (Env t k))
    as [e' [[] | x]].
Qed.

Lemma reached_central_loop (t0 : Track) (i count : nat)
    (prefered_per_lane : list Z) (fuel : nat) :
  forall n : nat,
    triple (Spec.reached t0)
           (lane_switches_central_loop coin fuel i count prefered_per_lane n)
           (fun _ => Spec.reached t0) (Spec.reached t0).
Proof.
  induction fuel as [| fuel IH]; intros n; simpl.
  - now apply triple_ret.
  - eapply triple_bind; [apply triple_pure, pure_get |]. intros t.
    destruct (lanes_list t !! i ≫= (.!! n)) as [veh |];
      [| now apply triple_ret].
    eapply triple_bind; [apply triple_pure, pure_list_get |].
    intros prefered. destruct (_ >? _); [| now apply triple_ret].
    eapply triple_bind; [apply reached_central_body |]. intros [].
    apply IH.
Qed.

Lemma reached_lane_switches_central (t0 : Track)
    (prefered_per_lane : list Z) :
  triple (Spec.reached t0) (lane_switches_central coin prefered_per_lane)
         (fun _ => Spec.reached t0) (Spec.reached t0).
Proof.
  unfold lane_switches_central.
  eapply triple_bind; [apply triple_pure, pure_get |]. intros t.
  apply triple_for_each. intros i.
  eapply triple_bind; [apply triple_pure, pure_get |]. intros t'.
  eapply triple_bind.
  { apply triple_for_each. intros j. apply reached_sort_lane. }
  intros [].
  eapply triple_bind; [apply triple_pure, pure_get_lane |]. intros lane.
  apply reached_central_loop.
Qed.

(** On a road of two lanes the permissions are computed, and a permitted
    side is a lane of the road. *)
Lemma can_switch_central_returns (t : Track) (i : nat) (veh : ref)
    (l : list ref) (k : nat) :
  Inv.drivable t -> lanes_count t = 2 ->
  lanes_list t !! i = Some l -> veh ∈ l ->
  exists lr rr : bool,
    can_switch_central veh (Z.of_nat i) (Env t k)
    = (Env (set_vehicles (<[veh := vehicles t veh]> (vehicles t)) t) k,
       Ok (lr, rr))
    /\ (lr = true -> Z.of_nat i + 1 < lanes_count t)
    /\ (rr = true -> 0 <= Z.of_nat i - 1).
Proof.
  intros (Hwf & Hlen & Hnan) Htwo Hl Hv.
  pose proof (lookup_lt_Some _ _ _ Hl) as Hi.
  destruct (closest_cars_sides_two_lanes t i
              (position (vehicles t veh)) k Hwf Htwo Hi)
    as (cl & cr & Hsides & Hne & Hsl & Hsr & Hleft & Hright).
  destruct (can_switch_lanes_returns (vehicles t) (vehicles t veh) cl cr k
              Hne Hsl Hsr) as (lr & rr & Hcan & Hlr & Hrr).
  exists lr, rr. split; [| split; auto].
  unfold can_switch_central.
  rewrite bind_run, read_run. cbv beta iota.
  rewrite bind_run, car_in_front_run, py_index_nat by exact Hi.
  simpl (Some i ≫= _). rewrite Hl.
  destruct l as [| first l]; [inversion Hv |]. cbv beta iota.
  rewrite bind_run, read_run. cbv beta iota.
  rewrite bind_run, Hsides. cbv beta iota.
  rewrite bind_run. unfold dict_get at 1.
  rewrite lookup_insert_ne by lia. rewrite lookup_insert_eq.
  cbn [mret M_ret]. cbv beta iota.
  rewrite bind_run. unfold dict_get at 1.
  rewrite lookup_insert_eq. cbn [mret M_ret]. cbv beta iota.
  rewrite bind_run. cbn [get]. cbv beta iota.
  rewrite call_run. cbn [obj]. now rewrite Hcan.
Qed.

(** The round for one vehicle of the lane returns. *)
Lemma central_body_returns (t : Track) (i : nat) (veh : ref)
    (l : list ref) (k : nat) :
  Inv.drivable t -> lanes_count t = 2 ->
  lanes_list t !! i = Some l -> veh ∈ l ->
  (lane_switches_central_body coin (Z.of_nat i) veh (Env t k)).2 = Ok tt.
Proof.
  intros Hd Htwo Hl Hv.
  destruct (can_switch_central_returns t i veh l k Hd Htwo Hl Hv)
    as (lr & rr & Hcan & Hlr & Hrr).
  destruct Hd as (Hwf & Hlen & Hnan).
  unfold lane_switches_central_body. rewrite bind_run, Hcan.
  cbv beta iota. cbn [fst snd].
  set (t1 := set_vehicles _ t).
  assert (Hmove : forall (choice : Z) (k' : nat),
            (choice = 0 /\ lr = true) \/ (choice = 1 /\ rr = true) ->
            ((p ← read position veh;
              switch_lane (Z.of_nat i) p
                ((if choice =? 0 then 1 else 0)
                 - (if choice =? 1 then 1 else 0))) (Env t1 k')).2
            = Ok tt).
  { intros choice k' Hchoice.
    rewrite bind_run, read_run. cbv beta iota.
    rewrite switch_lane_run. cbv zeta.
    change (lanes_count t1) with (lanes_count t).
    change (lanes_list t1) with (lanes_list t).
    set (count := (if choice =? 0 then 1 else 0)
                  - (if choice =? 1 then 1 else 0)).
    assert (Hcount : count <> 0 /\ 0 <= Z.of_nat i + count < lanes_count t).
    { unfold Spec.wf in Hwf. unfold count.
      pose proof (lookup_lt_Some _ _ _ Hl) as Hi.
      destruct Hchoice as [[-> Ht] | [-> Ht]]; simpl.
      - specialize (Hlr Ht). lia.
      - specialize (Hrr Ht). lia. }
    destruct Hcount as [Hc0 Hrange].
    replace ((0 <=? Z.of_nat i + count)
             && (Z.of_nat i + count <? lanes_count t)) with true
      by (symmetry; apply andb_true_iff; split;
          [apply Z.leb_le | apply Z.ltb_lt]; lia).
    cbn [negb].
    replace (count =? 0) with false by (symmetry; now apply Z.eqb_neq).
    rewrite py_index_nat by (eapply lookup_lt_Some; exact Hl).
    rewrite Hl. destruct l as [| first l]; [inversion Hv |].
    destruct (find_is_Some
                (fun x => (position (vehicles t1 x)
                           ==? position (vehicles t1 veh))%num)
                (first :: l) veh Hv) as [y ->].
    { apply eqb_refl. unfold t1. simpl. rewrite fn_lookup_insert.
      apply Hnan. }
    unfold Spec.wf in Hwf.
    rewrite py_index_in_range by lia. reflexivity. }
  destruct lr, rr; cbn [orb andb]; try reflexivity.
  - rewrite bind_run. unfold np_random_randint. cbn [obj cursor].
    cbv beta iota. apply Hmove. destruct (coin k); auto.
  - rewrite bind_run. cbn [mret M_ret]. cbv beta iota.
    apply Hmove. auto.
  - rewrite bind_run. cbn [mret M_ret]. cbv beta iota.
    apply Hmove. auto.
Qed.

Lemma central_loop_returns (t0 : Track) (i count : nat)
    (prefered_per_lane : list Z) (fuel : nat) :
  Inv.drivable t0 -> lanes_count t0 = 2 ->
  (i < List.length prefered_per_lane)%nat ->
  forall (n : nat) (t : Track) (k : nat),
    Spec.reached t0 t ->
    let out := lane_switches_central_loop coin fuel i count
                 prefered_per_lane n (Env t k) in
    out.2 = Ok tt /\ Spec.reached t0 (obj out.1).
Proof.
  intros Hd Htwo Hpref. induction fuel as [| fuel IH]; intros n t k Ht;
    cbv zeta; cbn [lane_switches_central_loop].
  - simpl. auto.
  - rewrite bind_pure by apply pure_get. cbn [get snd obj].
    destruct (lanes_list t !! i) as [l |] eqn:Hl; [| simpl; auto].
    simpl (Some l ≫= _).
    destruct (l !! n) as [veh |] eqn:Hn; [| simpl; auto].
    destruct (lookup_lt_is_Some_2 prefered_per_lane i Hpref) as [q Hq].
    rewrite bind_run. unfold list_get.
    rewrite py_index_nat by exact Hpref.
    simpl (Some i ≫= _). rewrite Hq. cbn [mret M_ret]. cbv beta iota.
    destruct (_ >? _); [| simpl; auto].
    rewrite bind_run.
    pose proof (central_body_returns t i veh l k
                  (drivable_reached _ _ Hd Ht)
                  (two_lanes_reached _ _ Htwo Ht) Hl
                  (list_elem_of_lookup_2 _ _ _ Hn)) as Hok.
    pose proof (reached_central_body t0 i veh (Env t k) Ht) as Hre.
    destruct (lane_switches_central_body coin (Z.of_nat i) veh (Env t k))
      as [[t1 k1] r1]. cbn [snd] in Hok. subst r1.
    apply IH. exact Hre.
Qed.

Lemma central_lanes_return (t0 : Track) (prefered_per_lane : list Z)
    (js : list nat) :
  Inv.drivable t0 -> lanes_count t0 = 2 ->
  (forall j, j ∈ js ->
     (j < List.length (lanes_list t0))%nat
     /\ (j < List.length prefered_per_lane)%nat) ->
  forall (t : Track) (k : nat),
    Spec.reached t0 t ->
    let out := for_each js (fun lane_i =>
                 t ← get;
                 for_each (seq 0 (List.length (lanes_list t)))
                   (fun i => sort_lane (Z.of_nat i));;
                 lane ← get_lane (Z.of_nat lane_i);
                 let lane_count := List.length lane in
                 lane_switches_central_loop coin lane_count lane_i
                   lane_count prefered_per_lane 0) (Env t k) in
    out.2 = Ok tt /\ Spec.reached t0 (obj out.1).
Proof.
  intros Hd Htwo. induction js as [| j js IH]; intros Hjs t k Ht;
    cbv zeta; cbn [for_each].
  - simpl. auto.
  - cbv beta. destruct (Hjs j) as [Hj Hjp]; [left |].
    rewrite bind_run.
    rewrite bind_pure by apply pure_get. cbn [get snd obj].
    rewrite bind_run, sort_lanes_all. cbv beta iota.
    set (t1 := set_lanes_list _ t).
    assert (Ht1 : Spec.reached t0 t1).
    { eapply reached_step; [exact Ht |]. unfold t1.
      apply rearranged_set_lanes_list.
      - apply length_map.
      - clear. induction (lanes_list t) as [| l ll IHll]; simpl;
          [reflexivity |].
        apply Permutation_app; [apply sort_perm | exact IHll]. }
    destruct (lookup_lt_is_Some_2 (lanes_list t1) j) as [l Hl].
    { destruct Ht1 as [_ Hre].
      destruct Hre as (_ & _ & _ & _ & _ & _ & _ & -> & _). exact Hj. }
    rewrite bind_run, (get_lane_nat _ _ _ _ Hl). cbv beta iota zeta.
    destruct (central_loop_returns t0 j (List.length l) prefered_per_lane
                (List.length l) Hd Htwo Hjp 0%nat t1 k Ht1) as [Hok Hre].
    cbv zeta in Hok, Hre.
    destruct (lane_switches_central_loop coin (List.length l) j
                (List.length l) prefered_per_lane 0 (Env t1 k))
      as [[t2 k2] r2]. cbn [fst snd obj] in Hok, Hre. subst r2.
    apply IH; [| exact Hre]. intros j' Hj'. apply Hjs. now right.
Qed.


End Central.

Section CentralExamples.

Import Agent Track.


End CentralExamples.

(** ** Time steps on a healthy road *)

Section HealthyVehicle.

Import Agent.

Lemma is_fin_real (x : num) : Num.is_fin x = true -> exists q, x = Fin q.
Proof. destruct x; try discriminate. eauto. Qed.

Lemma nonneg_real (x : num) :
  Num.is_fin x && (Fin 0 <=? x)%num = true ->
  exists q, x = Fin q /\ (0 <= q)%Q.
Proof.
  intros H. apply andb_true_iff in H as [H1 H2].
  destruct (is_fin_real x H1) as [q ->]. exists q. split; [reflexivity |].
  now apply Qle_bool_iff.
Qed.

Lemma positive_real (x : num) :
  Num.is_fin x && (Fin 0 <? x)%num = true ->
  exists q, x = Fin q /\ (0 < q)%Q.
Proof.
  intros H. apply andb_true_iff in H as [H1 H2].
  destruct (is_fin_real x H1) as [q ->]. exists q. split; [reflexivity |].
  simpl in H2. apply negb_true_iff in H2.
  destruct (Qlt_le_dec 0 q) as [Hlt | Hle]; [exact Hlt |].
  apply Qle_bool_iff in Hle. congruence.
Qed.

Lemma one_at_least_real (x : num) :
  Num.is_fin x && (Fin 1 <=? x)%num = true ->
  exists q, x = Fin q /\ (1 <= q)%Q.
Proof.
  intros H. apply andb_true_iff in H as [H1 H2].
  destruct (is_fin_real x H1) as [q ->]. exists q. split; [reflexivity |].
  now apply Qle_bool_iff.
Qed.

Lemma nonneg_real_intro (q : Q) :
  (0 <= q)%Q -> Num.is_fin (Fin q) && (Fin 0 <=? Fin q)%num = true.
Proof. intros H. simpl. now apply Qle_bool_iff. Qed.

(** The numbers of a healthy vehicle. *)
Lemma healthy_vehicle_reals (w : Q) (v : VehicleAgent) :
  Inv.healthy_vehicle w v = true ->
  exists p c d m a bq tp : Q,
    position v = Fin p
    /\ (current_speed v = Fin c /\ (0 <= c)%Q)
    /\ desired_speed v = Fin d
    /\ (max_speed v = Fin m /\ (0 <= m)%Q)
    /\ (a_max v = Fin a /\ (0 < a)%Q)
    /\ (b v = Fin bq /\ (0 <= bq)%Q)
    /\ (TP v = Fin tp /\ (0 < tp)%Q).
Proof.
  unfold Inv.healthy_vehicle, Inv.healthy_numbers. intros H.
  apply andb_true_iff in H as [H _].
  repeat (apply andb_true_iff in H as [H ?]).
  destruct (is_fin_real _ H) as [p Hp].
  destruct (nonneg_real (current_speed v)) as (c & Hc);
    [assumption |].
  destruct (is_fin_real (desired_speed v)) as [d Hd]; [assumption |].
  destruct (nonneg_real (max_speed v)) as (m & Hm);
    [assumption |].
  destruct (positive_real (a_max v)) as (a & Ha);
    [assumption |].
  destruct (nonneg_real (b v)) as (bq & Hb); [assumption |].
  destruct (one_at_least_real (TP v)) as (tp & Htp & Htp1);
    [assumption |].
  exists p, c, d, m, a, bq, tp.
  repeat split; try tauto. lra.
Qed.

(** The speeds of a healthy vehicle are within the bound. *)
Lemma healthy_vehicle_below (w : Q) (v : VehicleAgent) (c m : Q) :
  Inv.healthy_vehicle w v = true ->
  current_speed v = Fin c -> max_speed v = Fin m ->
  (c <= w)%Q /\ (m <= w)%Q.
Proof.
  unfold Inv.healthy_vehicle, Inv.below. intros H Hc Hm.
  apply andb_true_iff in H as [_ H]. rewrite Hc, Hm in H.
  apply andb_true_iff in H as [H1 H2]. simpl in H1, H2.
  now apply Qle_bool_iff in H1, H2.
Qed.

Lemma healthy_vehicle_kept (w : Q) (v v' : VehicleAgent) :
  Spec.kept v' = Spec.kept v ->
  Inv.healthy_vehicle w v' = Inv.healthy_vehicle w v.
Proof.
  unfold Spec.kept, Inv.healthy_vehicle, Inv.below. intros H.
  injection H as -> -> -> -> _ _ -> -> -> _. reflexivity.
Qed.

(** A larger bound keeps a vehicle healthy. *)
Lemma healthy_vehicle_mono (w w' : Q) (v : VehicleAgent) :
  (w <= w')%Q -> Inv.healthy_vehicle w v = true ->
  Inv.healthy_vehicle w' v = true.
Proof.
  intros Hw H.
  destruct (healthy_vehicle_reals w v H)
    as (p & c & d & m & a & bq & tp & _ & [Hc _] & _ & [Hm _] & _).
  destruct (healthy_vehicle_below w v c m H Hc Hm) as [Hcw Hmw].
  unfold Inv.healthy_vehicle in *.
  apply andb_true_iff in H as [H _]. rewrite H. simpl.
  unfold Inv.below. rewrite Hc, Hm. simpl.
  apply andb_true_iff. split; apply Qle_bool_iff; lra.
Qed.

(** A gap after [max(0, ...)] is not negative. *)
Lemma max_0_gap (y : num) :
  Num.max (Fin 0) y = PInf
  \/ exists g, Num.max (Fin 0) y = Fin g /\ (0 <= g)%Q.
Proof.
  unfold Num.max, Num.gtb. destruct y as [q | | |]; simpl.
  - right. destruct (negb (Qle_bool q 0)) eqn:H.
    + exists q. split; [reflexivity |].
      apply negb_true_iff in H. apply Qle_bool_total in H.
      now apply Qle_bool_iff.
    + exists 0%Q. split; [reflexivity | apply Qle_refl].
  - now left.
  - right. exists 0%Q. split; [reflexivity | apply Qle_refl].
  - right. exists 0%Q. split; [reflexivity | apply Qle_refl].
Qed.

(** The safe speed is computed whenever the follower and the leader do
    not drive backwards. *)
Lemma compute_safe_speed_returns (self : VehicleAgent) (gap ls : num)
    (k : nat) (c a : Q) :
  current_speed self = Fin c -> (0 <= c)%Q ->
  a_max self = Fin a -> (0 < a)%Q ->
  ls = PInf \/ (exists vl, ls = Fin vl /\ (0 <= vl)%Q) ->
  exists v, compute_safe_speed gap ls (Env self k) = (Env self k, Ok v).
Proof.
  intros Hc Hc0 Ha Ha0 Hls. unfold compute_safe_speed. run_method.
  rewrite Hc, Ha. cbn [Num.mul Num.div].
  assert (H2a : Qeq_bool (2 * a) 0 = false).
  { destruct (Qeq_bool (2 * a) 0) eqn:H; [| reflexivity].
    apply Qeq_bool_iff in H. lra. }
  rewrite H2a. cbv beta iota.
  assert (Hinv : (0 < / (2 * a))%Q) by (apply Qinv_lt_0_compat; lra).
  destruct Hls as [-> | (vl & -> & Hvl)].
  - cbn [Num.add Num.mul]. unfold Num.scale_inf.
    apply Qgt_alt in Hinv. rewrite Hinv. cbn [Num.add Num.div].
    change (1 ?= 0)%Q with Gt. cbv iota.
    destruct (gap - PInf)%num; eauto.
  - cbn [Num.add Num.mul Num.div].
    assert (Hden : Qeq_bool (1 + (c + vl) * / (2 * a)) 0 = false).
    { destruct (Qeq_bool (1 + (c + vl) * / (2 * a)) 0) eqn:H;
        [| reflexivity].
      apply Qeq_bool_iff in H.
      assert (0 <= (c + vl) * / (2 * a))%Q
        by (apply Qmult_le_0_compat; lra).
      lra. }
    rewrite Hden. eauto.
Qed.

(** The decision step of a healthy vehicle whose speed has a square
    within the floats returns, and stages a real speed that is not
    negative and exceeds the bound on the speeds by [speed_push] at
    most. *)
Lemma vehicle_step (rand : nat -> num) (gap ls la dt : num)
    (mean : option num) (ma : num) (self : VehicleAgent) (k : nat)
    (w push : Q) :
  Inv.healthy_vehicle w self = true ->
  (w * w <= Num.float_max)%Q ->
  gap = PInf \/ (exists g, gap = Fin g /\ (0 <= g)%Q) ->
  ls = PInf \/ (exists vl, ls = Fin vl /\ (0 <= vl)%Q) ->
  (exists u, rand k = Fin u /\ (0 <= u)%Q) ->
  Inv.mean_ok w mean ->
  Num.is_fin ma && (Fin 0 <=? ma)%num = true ->
  (0 <= push)%Q ->
  let out := calculate_next_state rand gap ls la dt mean ma (Fin push)
               (Env self k) in
  out.2 = Ok tt /\ Inv.good_next (w + push) (obj out.1) = true.
Proof.
  intros Hh Hw Hgap Hls (u & Hu & Hu0) Hmean Hma Hsp0.
  destruct (healthy_vehicle_reals w self Hh)
    as (p & c & d & m & a & bq & tp & Hp & [Hc Hc0] & Hd & [Hm Hm0]
        & [Ha Ha0] & [Hb Hb0] & [Htp Htp0]).
  destruct (healthy_vehicle_below w self c m Hh Hc Hm) as [Hcw Hmw].
  destruct (nonneg_real ma Hma) as (maq & -> & Hma0).
  destruct (compute_decision_returns self gap ls la k c tp d
              Hc Hc0 ltac:(nra) Htp Htp0 Hd Hgap Hls) as [acc Hdec].
  destruct (compute_safe_speed_returns (set_acceleration acc self) gap ls
              k c a Hc Hc0 Ha Ha0 Hls) as [vs Hsafe].
  cbv zeta.
  assert (Hret : (calculate_next_state rand gap ls la dt mean (Fin maq)
                    (Fin push) (Env self k)).2 = Ok tt).
  { destruct mean as [mean |].
    - rewrite calculate_next_state_controlled, Hdec, Hsafe. cbv zeta.
      destruct (_ <? _)%num; [destruct (_ <? _)%num |]; reflexivity.
    - now rewrite calculate_next_state_uncontrolled, Hdec, Hsafe. }
  split; [exact Hret |].
  destruct Hmean as [-> | (mu & -> & Hmu & Hmuw)].
  - destruct (next_speed_bounded_without_control rand gap ls la dt
                (Fin maq) (Fin push) self k m (bq * u) Hm Hm0)
      as (s & Hs & H0 & H1).
    { now rewrite Hb, Hu. }
    { now apply Qmult_le_0_compat. }
    { exact Hret. }
    unfold Inv.good_next. rewrite Hs.
    destruct s as [q | | |]; simpl in *; try discriminate.
    rewrite H0. simpl. apply Qle_bool_iff. apply Qle_bool_iff in H1. lra.
  - destruct (next_speed_bounded_with_control rand gap ls la dt self k
                m bq mu maq push Hm Hm0 Hb Hb0 Hmu Hma0 Hsp0 Hret)
      as (s & Hs & Hs0 & _ & Hs1).
    unfold Inv.good_next. rewrite Hs. simpl.
    apply andb_true_iff. split; apply Qle_bool_iff; [exact Hs0 |].
    destruct Hs1; lra.
Qed.

End HealthyVehicle.

Section HealthyRoad.

Import Agent Track.

Variable rand : nat -> num.
Hypothesis Hrand : Inv.unit_draws rand.

(** The road at the start of the time steps, and its [speed_push]. *)
Variable t0 : Track.
Variable push : Q.
Hypothesis Hpush : speed_push t0 = Fin push.

(** The bound on the speeds; in the decision pass its square is within
    the floats. *)
Variable w : Q.
Hypothesis Hw : (w * w <= Num.float_max)%Q.

Lemma healthy_set_vehicle (s : Track) (v : ref) (x : VehicleAgent) :
  Inv.healthy_from w t0 s -> Inv.healthy_vehicle w x = true ->
  Inv.healthy_from w t0 (set_vehicles (<[v := x]> (vehicles s)) s).
Proof.
  intros [(H1 & H2 & H3 & H4 & H5 & H6 & H7) Hframe] Hx.
  split; [| exact Hframe].
  unfold Inv.healthy. simpl. repeat (split; [assumption |]).
  intros r. destruct (decide (v = r)) as [<- | Hne].
  - now rewrite fn_lookup_insert.
  - rewrite fn_lookup_insert_ne by exact Hne. apply H7.
Qed.

Lemma healthy_set_lanes (s : Track) (ll : list (list ref)) :
  Inv.healthy_from w t0 s -> List.length ll = List.length (lanes_list s) ->
  Inv.healthy_from w t0 (set_lanes_list ll s).
Proof.
  intros [(H1 & H2 & H3 & H4 & H5 & H6 & H7) Hframe] Hll.
  split; [| exact Hframe].
  unfold Inv.healthy. simpl. rewrite Hll. tauto.
Qed.

(** The decision step of a vehicle of the lane. *)
Lemma body_healthy (i : nat) (mean : option num) (v : ref)
    (lane : list ref) (s : Track) (k : nat) :
  Inv.healthy_from w t0 s -> lanes_list s !! i = Some lane -> v ∈ lane ->
  Inv.mean_ok w mean ->
  exists (s' : Track) (k' : nat),
    calculate_next_state_body rand (Z.of_nat i) mean v (Env s k)
    = (Env s' k', Ok tt)
    /\ Inv.healthy_from w t0 s' /\ lanes_list s' = lanes_list s
    /\ Inv.good_next (w + push) (vehicles s' v) = true
    /\ forall r, r <> v -> vehicles s' r = vehicles s r.
Proof using Hrand Hpush Hw.
  intros Hs Hl Hv Hmean.
  pose proof Hs as [(Hwf & Hfin & Hlen & Hdt & Hma & Hsp & Hveh)
                      (_ & _ & Hpush')].
  rewrite Hpush', Hpush in Hsp.
  assert (Hpush0 : (0 <= push)%Q)
    by (destruct (nonneg_real _ Hsp) as (q & [= <-] & Hq); exact Hq).
  unfold calculate_next_state_body.
  rewrite bind_run, read_run. cbv beta iota.
  rewrite bind_run, car_in_front_run, py_index_nat
    by (eapply lookup_lt_Some; exact Hl).
  simpl (Some i ≫= _). rewrite Hl.
  destruct lane as [| first l]; [inversion Hv |]. cbv beta iota.
  set (x := default first _).
  rewrite bind_run. cbn [get]. cbv beta iota.
  rewrite bind_run. unfold lift at 1. cbv beta iota. cbn [obj].
  destruct (mod_ok (position (vehicles s x) - position (vehicles s v))
              (length s) Hlen) as [g Hg].
  rewrite bind_run, Hg. unfold lift at 1. cbv beta iota zeta.
  cbn [default from_option id].
  assert (Hcall : forall gap ls la,
            gap = PInf \/ (exists g', gap = Fin g' /\ (0 <= g')%Q) ->
            ls = PInf \/ (exists vl, ls = Fin vl /\ (0 <= vl)%Q) ->
            exists (s' : Track) (k' : nat),
              call v (Agent.calculate_next_state rand gap ls la (dt s) mean
                        (max_accel s) (speed_push s)) (Env s k)
              = (Env s' k', Ok tt)
              /\ Inv.healthy_from w t0 s' /\ lanes_list s' = lanes_list s
              /\ Inv.good_next (w + push) (vehicles s' v) = true
              /\ forall r, r <> v -> vehicles s' r = vehicles s r).
  { intros gap ls la Hgap Hls. rewrite call_run.
    destruct (Hrand k) as (u & Hu & Hu0 & _).
    rewrite Hpush', Hpush.
    destruct (vehicle_step rand gap ls la (dt s) mean (max_accel s)
                (vehicles s v) k w push (Hveh v) Hw Hgap Hls
                (ex_intro _ u (conj Hu Hu0)) Hmean Hma Hpush0)
      as [Hok Hgood].
    pose proof (keeps_calculate_next_state rand gap ls la (dt s) mean
                  (max_accel s) (Fin push) (Env (vehicles s v) k))
      as Hkept.
    destruct (Agent.calculate_next_state rand gap ls la (dt s) mean
                (max_accel s) (Fin push) (Env (vehicles s v) k))
      as [[v' k'] r]. cbn [fst snd obj cursor] in *. subst r.
    eexists. eexists. split; [reflexivity |]. split; [| split; [| split]].
    - apply healthy_set_vehicle; [exact Hs |].
      rewrite (healthy_vehicle_kept w _ _ Hkept). apply Hveh.
    - reflexivity.
    - simpl. now rewrite fn_lookup_insert.
    - intros r Hr. simpl. now rewrite fn_lookup_insert_ne. }
  destruct (negb _).
  - apply Hcall.
    + apply max_0_gap.
    + right. destruct (healthy_vehicle_reals w _ (Hveh x))
        as (_ & c & _ & _ & _ & _ & _ & _ & [Hc Hc0] & _).
      eauto.
  - apply Hcall; now left.
Qed.

(** The decision steps of the vehicles of a lane. *)
Lemma lane_healthy (i : nat) (mean : option num) (lane : list ref)
    (l : list ref) :
  Inv.mean_ok w mean ->
  forall (s : Track) (k : nat),
    Inv.healthy_from w t0 s -> lanes_list s !! i = Some lane ->
    (forall v, v ∈ l -> v ∈ lane) ->
    exists (s' : Track) (k' : nat),
      for_each l (calculate_next_state_body rand (Z.of_nat i) mean)
        (Env s k) = (Env s' k', Ok tt)
      /\ Inv.healthy_from w t0 s' /\ lanes_list s' = lanes_list s
      /\ (forall r, Inv.good_next (w + push) (vehicles s r) = true ->
            Inv.good_next (w + push) (vehicles s' r) = true)
      /\ (forall v, v ∈ l -> Inv.good_next (w + push) (vehicles s' v) = true).
Proof using Hrand Hpush Hw.
  intros Hmean. induction l as [| x l IH]; intros s k Hs Hl Hsub;
    cbn [for_each].
  - exists s, k. split; [reflexivity |]. split; [exact Hs |].
    split; [reflexivity |]. split; [auto |]. intros v Hv. inversion Hv.
  - destruct (body_healthy i mean x lane s k Hs Hl) as
      (s1 & k1 & Hrun & Hs1 & Hll1 & Hgood1 & Hne1);
      [apply Hsub; left | exact Hmean |].
    rewrite bind_run, Hrun. cbv beta iota.
    destruct (IH s1 k1 Hs1) as (s2 & k2 & Hrun2 & Hs2 & Hll2 & Hpres & Hall).
    { now rewrite Hll1. }
    { intros v Hv. apply Hsub. now right. }
    exists s2, k2. split; [exact Hrun2 |]. split; [exact Hs2 |].
    split; [congruence |].
    assert (Hpres1 : forall r, Inv.good_next (w + push) (vehicles s r) = true ->
                       Inv.good_next (w + push) (vehicles s1 r) = true).
    { intros r Hr. destruct (decide (r = x)) as [-> | Hrx];
        [exact Hgood1 | now rewrite Hne1]. }
    split; [auto |].
    intros v Hv. apply elem_of_cons in Hv as [-> | Hv]; auto.
Qed.

(** The sum of the speeds of a lane of healthy vehicles. *)
Lemma foldl_speeds (s : Track) (lane : list ref) :
  (forall r, Inv.healthy_vehicle w (vehicles s r) = true) ->
  forall acc : Q,
    (0 <= acc)%Q ->
    exists tot : Q,
      foldl Num.add (Fin acc)
        (map (fun veh => current_speed (vehicles s veh)) lane) = Fin tot
      /\ (0 <= tot)%Q
      /\ (tot <= acc + inject_Z (Z.of_nat (List.length lane)) * w)%Q.
Proof.
  intros Hveh. induction lane as [| x lane IH]; intros acc Hacc;
    cbn [foldl map List.length].
  - exists acc. split; [reflexivity |]. split; [exact Hacc |].
    change (inject_Z (Z.of_nat 0)) with 0%Q. lra.
  - destruct (healthy_vehicle_reals w _ (Hveh x))
      as (_ & c & _ & m & _ & _ & _ & _ & [Hc Hc0] & _ & [Hm _] & _).
    destruct (healthy_vehicle_below w _ c m (Hveh x) Hc Hm) as [Hcw _].
    rewrite Hc. cbn [Num.add].
    destruct (IH (acc + c)%Q) as (tot & Htot & Htot0 & Hbound); [lra |].
    exists tot. split; [exact Htot |]. split; [exact Htot0 |].
    rewrite Nat2Z.inj_succ. unfold Z.succ. rewrite inject_Z_plus.
    change (inject_Z 1) with 1%Q. lra.
Qed.

(** The mean speed of a lane of healthy vehicles. *)
Lemma mean_speed_lane_healthy (lane : list ref) (s : Track) (k : nat) :
  Inv.healthy_from w t0 s ->
  exists mean : option num,
    mean_speed_lane lane (Env s k) = (Env s k, Ok mean)
    /\ Inv.mean_ok w mean.
Proof.
  intros [(_ & _ & _ & _ & _ & _ & Hveh) _]. unfold mean_speed_lane.
  rewrite bind_pure by apply pure_get. cbn [get snd obj].
  destruct (central_control s).
  - destruct (foldl_speeds s lane Hveh 0 (Qle_refl 0))
      as (tot & -> & Htot & Hbound).
    unfold Num.of_nat, Num.of_Z, Num.div.
    set (n := inject_Z (Z.of_nat (List.length lane))) in *.
    destruct (Qeq_bool n 0) eqn:Hn.
    + exists None. split; [reflexivity | now left].
    + eexists. split; [reflexivity |]. right. eexists.
      split; [reflexivity |].
      assert (Hn0 : (0 < n)%Q).
      { assert (H0 : (0 <= n)%Q)
          by (unfold n; rewrite <- (Zle_Qle 0); lia).
        destruct (Qlt_le_dec 0 n) as [Hlt | Hle]; [exact Hlt |].
        assert (Heq : (n == 0)%Q) by lra.
        apply Qeq_bool_iff in Heq. congruence. }
      split.
      * apply Qmult_le_0_compat; [exact Htot |].
        now apply Qinv_le_0_compat, Qlt_le_weak.
      * apply Qle_shift_div_r; [exact Hn0 | lra].
  - exists None. split; [reflexivity | now left].
Qed.

(** The rounds of the decision pass for the lanes from [a] on. *)
Lemma lanes_healthy (m : nat) :
  forall (a : nat) (s : Track) (k : nat),
    Inv.healthy_from w t0 s ->
    (a + m <= List.length (lanes_list s))%nat ->
    (forall j l v, (j < a)%nat -> lanes_list s !! j = Some l -> v ∈ l ->
       Inv.good_next (w + push) (vehicles s v) = true) ->
    exists (s' : Track) (k' : nat),
      for_each (seq a m) (fun i =>
        sort_lane (Z.of_nat i);;
        lane ← get_lane (Z.of_nat i);
        mean ← mean_speed_lane lane;
        for_each lane (calculate_next_state_body rand (Z.of_nat i) mean))
        (Env s k) = (Env s' k', Ok tt)
      /\ Inv.healthy_from w t0 s'
      /\ forall j l v, (j < a + m)%nat -> lanes_list s' !! j = Some l ->
           v ∈ l -> Inv.good_next (w + push) (vehicles s' v) = true.
Proof using Hrand Hpush Hw.
  induction m as [| m IH]; intros a s k Hs Hlen Hdone; cbn [seq for_each].
  - exists s, k. split; [reflexivity |]. split; [exact Hs |].
    intros j l v Hj. apply Hdone. lia.
  - cbv beta.
    destruct (lookup_lt_is_Some_2 (lanes_list s) a) as [la Hla]; [lia |].
    rewrite bind_run, bind_run, sort_lane_run by lia. cbv beta iota.
    set (s1 := set_lanes_list _ s).
    assert (Hs1 : Inv.healthy_from w t0 s1)
      by (apply healthy_set_lanes; [exact Hs | apply length_alter]).
    assert (Hla1 : lanes_list s1 !! a = Some (sort (vehicles s) la))
      by (unfold s1; simpl; now rewrite list_lookup_alter_eq, Hla).
    rewrite bind_run, (get_lane_nat _ _ _ _ Hla1). cbv beta iota.
    destruct (mean_speed_lane_healthy (sort (vehicles s) la) s1 k Hs1)
      as (mean & Hmean & Hok).
    rewrite bind_run, Hmean. cbv beta iota.
    destruct (lane_healthy a mean (sort (vehicles s) la)
                (sort (vehicles s) la) Hok s1 k Hs1 Hla1)
      as (s2 & k2 & Hrun & Hs2 & Hll & Hpres & Hall); [auto |].
    rewrite Hrun. cbv beta iota.
    destruct (IH (S a) s2 k2 Hs2) as (s3 & k3 & Hrun3 & Hs3 & Hdone3).
    + rewrite Hll. unfold s1. simpl. rewrite length_alter. lia.
    + intros j l v Hj Hl Hv. rewrite Hll in Hl.
      destruct (decide (j = a)) as [-> | Hja].
      * rewrite Hla1 in Hl. injection Hl as <-. now apply Hall.
      * unfold s1 in Hl. simpl in Hl.
        rewrite list_lookup_alter_ne in Hl by auto.
        apply Hpres. apply (Hdone j l v); [lia | exact Hl | exact Hv].
    + exists s3, k3. split; [exact Hrun3 |]. split; [exact Hs3 |].
      intros j l v Hj. apply Hdone3. lia.
Qed.

(** The decision pass on a healthy road returns, and stages a real speed
    that is not negative for every vehicle of every lane. *)
Lemma decision_pass_healthy (t : Track) (k : nat) :
  Inv.healthy_from w t0 t ->
  exists (t' : Track) (k' : nat),
    Track.calculate_next_state rand (Env t k) = (Env t' k', Ok tt)
    /\ Inv.healthy_from w t0 t'
    /\ forall l v, l ∈ lanes_list t' -> v ∈ l ->
         Inv.good_next (w + push) (vehicles t' v) = true.
Proof using Hrand Hpush Hw.
  intros Ht. unfold Track.calculate_next_state.
  rewrite bind_pure by apply pure_get. cbn [get snd obj].
  destruct (lanes_healthy (List.length (lanes_list t)) 0 t k Ht)
    as (t' & k' & Hrun & Ht' & Hdone); [simpl; lia | intros; lia |].
  exists t', k'. split; [exact Hrun |]. split; [exact Ht' |].
  intros l v Hl Hv. apply list_elem_of_lookup in Hl as [j Hj].
  apply (Hdone j l v); [| exact Hj | exact Hv].
  simpl. apply lookup_lt_Some in Hj.
  destruct Ht as [(Hwf & _) [Hc _]]. destruct Ht' as [(Hwf' & _) [Hc' _]].
  lia.
Qed.

(** The commit of a vehicle with a good staged speed. *)
Lemma commit_vehicle_healthy (lane : Z) (v : ref) (s : Track) (k : nat) :
  Inv.healthy_from w t0 s -> Inv.good_next w (vehicles s v) = true ->
  exists s' : Track,
    (t ← get; call v (Agent.update_state (Track.dt t) lane)) (Env s k)
    = (Env s' k, Ok tt)
    /\ Inv.healthy_from w t0 s' /\ lanes_list s' = lanes_list s
    /\ forall r, Inv.good_next w (vehicles s' r)
                 = Inv.good_next w (vehicles s r).
Proof.
  intros Hs Hgood.
  pose proof Hs as [(_ & _ & _ & Hdt & _ & _ & Hveh) _].
  rewrite bind_pure by apply pure_get. cbn [get snd obj].
  rewrite call_run.
  unfold Inv.good_next in Hgood.
  destruct (next_speed (vehicles s v)) as [x |] eqn:Hnext;
    [| discriminate].
  apply andb_true_iff in Hgood as [Hgood Hxw].
  destruct (nonneg_real x Hgood) as (q & -> & Hq).
  destruct (is_fin_real _ Hdt) as [d Hd].
  destruct (update_state_staged (Track.dt s) lane (vehicles s v) k (Fin q)
              Hnext) as (v' & Hrun & Hc & Hp & _).
  pose proof (update_state_settings (Track.dt s) lane
                (Env (vehicles s v) k)) as Hset.
  rewrite Hrun in Hset |- *. cbn [fst snd obj cursor] in Hset |- *.
  eexists. split; [reflexivity |].
  destruct (healthy_vehicle_reals w _ (Hveh v))
    as (p & _ & _ & _ & _ & _ & _ & Hpos & _).
  unfold Inv.settings in Hset.
  injection Hset as Hds Hms _ _ Has Hbs Htps _ _ Hns.
  split; [| split].
  - apply healthy_set_vehicle; [exact Hs |].
    pose proof (Hveh v) as Hv.
    unfold Inv.healthy_vehicle, Inv.healthy_numbers, Inv.below in Hv |- *.
    rewrite Hc, Hp, Hpos, Hd, Hds, Hms, Has, Hbs, Htps.
    cbn [Num.mul Num.add Num.is_fin andb].
    repeat match goal with
           | H : _ && _ = true |- _ => apply andb_true_iff in H as [? ?]
           end.
    repeat (apply andb_true_iff; split); assumption.
  - reflexivity.
  - intros r. simpl. destruct (decide (v = r)) as [<- | Hne].
    + rewrite fn_lookup_insert. unfold Inv.good_next.
      now rewrite Hns, Hnext.
    + now rewrite fn_lookup_insert_ne.
Qed.

Lemma commit_lane_healthy (lane : Z) (l : list ref) :
  forall (s : Track) (k : nat),
    Inv.healthy_from w t0 s ->
    (forall v, v ∈ l -> Inv.good_next w (vehicles s v) = true) ->
    exists s' : Track,
      for_each l (fun vehicle =>
        t ← get; call vehicle (Agent.update_state (Track.dt t) lane))
        (Env s k) = (Env s' k, Ok tt)
      /\ Inv.healthy_from w t0 s' /\ lanes_list s' = lanes_list s
      /\ forall r, Inv.good_next w (vehicles s' r)
                   = Inv.good_next w (vehicles s r).
Proof.
  induction l as [| x l IH]; intros s k Hs Hgood; cbn [for_each].
  - exists s. auto.
  - destruct (commit_vehicle_healthy lane x s k Hs)
      as (s1 & Hrun & Hs1 & Hll1 & Hn1); [apply Hgood; left |].
    rewrite bind_run. cbv beta. rewrite Hrun. cbv beta iota.
    destruct (IH s1 k Hs1) as (s2 & Hrun2 & Hs2 & Hll2 & Hn2).
    { intros v Hv. rewrite Hn1. apply Hgood. now right. }
    exists s2. split; [exact Hrun2 |]. split; [exact Hs2 |].
    split; [congruence |]. intros r. now rewrite Hn2, Hn1.
Qed.

Lemma commit_lanes_healthy (m : nat) :
  forall (a : nat) (s : Track) (k : nat),
    Inv.healthy_from w t0 s ->
    (a + m <= List.length (lanes_list s))%nat ->
    (forall l v, l ∈ lanes_list s -> v ∈ l ->
       Inv.good_next w (vehicles s v) = true) ->
    exists s' : Track,
      for_each (seq a m) (fun lane_numb =>
        lane ← get_lane (Z.of_nat lane_numb);
        for_each lane (fun vehicle =>
          t ← get;
          call vehicle
            (Agent.update_state (Track.dt t) (Z.of_nat lane_numb))))
        (Env s k) = (Env s' k, Ok tt)
      /\ Inv.healthy_from w t0 s' /\ lanes_list s' = lanes_list s.
Proof.
  induction m as [| m IH]; intros a s k Hs Hlen Hgood; cbn [seq for_each].
  - exists s. auto.
  - cbv beta.
    destruct (lookup_lt_is_Some_2 (lanes_list s) a) as [l Hl]; [lia |].
    rewrite bind_run, bind_run, (get_lane_nat _ _ _ _ Hl). cbv beta iota.
    destruct (commit_lane_healthy (Z.of_nat a) l s k Hs)
      as (s1 & Hrun & Hs1 & Hll1 & Hn1).
    { intros v Hv. apply (Hgood l); [| exact Hv].
      eapply list_elem_of_lookup_2. exact Hl. }
    rewrite Hrun. cbv beta iota.
    destruct (IH (S a) s1 k Hs1) as (s2 & Hrun2 & Hs2 & Hll2).
    { rewrite Hll1. lia. }
    { intros l' v Hl' Hv. rewrite Hn1. rewrite Hll1 in Hl'.
      now apply (Hgood l'). }
    exists s2. split; [exact Hrun2 |]. split; [exact Hs2 | congruence].
Qed.

(** The commit pass after the decision pass. *)
Lemma commit_pass_healthy (t : Track) (k : nat) :
  Inv.healthy_from w t0 t ->
  (forall l v, l ∈ lanes_list t -> v ∈ l ->
     Inv.good_next w (vehicles t v) = true) ->
  exists t' : Track,
    Track.update_state (Env t k) = (Env t' k, Ok tt)
    /\ Inv.healthy_from w t0 t' /\ lanes_list t' = lanes_list t.
Proof.
  intros Ht Hgood. unfold Track.update_state.
  rewrite bind_pure by apply pure_get. cbn [get snd obj].
  apply (commit_lanes_healthy _ 0 t k Ht); [simpl; lia | exact Hgood].
Qed.

(** The periodic boundary on the vehicles of a list. *)
Lemma boundary_healthy (road_length : num) (l : list ref) :
  Num.is_fin road_length = true ->
  forall (s : Track) (k : nat),
    Inv.healthy_from w t0 s ->
    exists (s' : Track) (crossings : list Z),
      map_m l (fun vehicle =>
        call vehicle (Model.periodic_boundary road_length)) (Env s k)
      = (Env s' k, Ok crossings)
      /\ Inv.healthy_from w t0 s' /\ lanes_list s' = lanes_list s.
Proof.
  intros Hfin. destruct (is_fin_real _ Hfin) as [len ->].
  induction l as [| x l IH]; intros s k Hs; cbn [map_m].
  - exists s, []. auto.
  - pose proof Hs as [(_ & _ & _ & _ & _ & _ & Hveh) _].
    assert (Hx : exists (v' : VehicleAgent) (c : Z),
               Model.periodic_boundary (Fin len) (Env (vehicles s x) k)
               = (Env v' k, Ok c)
               /\ Inv.healthy_vehicle w v' = true).
    { unfold Model.periodic_boundary.
      rewrite bind_pure by apply pure_get. cbn [get snd obj].
      destruct (_ >=? _)%num.
      - eexists. eexists. split; [reflexivity |].
        pose proof (Hveh x) as Hh. unfold Inv.healthy_vehicle in *.
        cbn [position current_speed desired_speed max_speed a_max b TP
             set_position].
        destruct (healthy_vehicle_reals w _ (Hveh x)) as (p & _ & _ & _ & _
          & _ & _ & Hp & _).
        rewrite Hp in Hh |- *. exact Hh.
      - eexists. eexists. split; [reflexivity | apply Hveh]. }
    destruct Hx as (v' & c & Hrun & Hv').
    rewrite bind_run, call_run, Hrun. cbn [fst snd obj cursor].
    cbv beta iota.
    destruct (IH (set_vehicles (<[x := v']> (vehicles s)) s) k)
      as (s2 & cs & Hrun2 & Hs2 & Hll2);
      [now apply healthy_set_vehicle |].
    rewrite bind_run, Hrun2. cbv beta iota.
    exists s2, (c :: cs). split; [reflexivity |]. split; [exact Hs2 |].
    exact Hll2.
Qed.

Lemma healthy_drivable (t : Track) : Inv.healthy w t -> Inv.drivable t.
Proof.
  intros (Hwf & _ & Hlen & _ & _ & _ & Hveh).
  split; [exact Hwf |]. split; [exact Hlen |].
  intros r. destruct (healthy_vehicle_reals w _ (Hveh r)) as (p & _ & _ & _
    & _ & _ & _ & -> & _). reflexivity.
Qed.

Lemma healthy_rearranged (t t' : Track) :
  Inv.healthy_from w t0 t -> Spec.rearranged t t' ->
  Inv.healthy_from w t0 t'.
Proof.
  intros [(Hwf & Hfin & Hlen & Hdt & Hma & Hsp & Hveh) [Hc Hl]]
    (Hc' & Hl' & Hdt' & _ & Hma' & Hsp' & Hveh' & Hlen' & _).
  split; [| split; congruence].
  unfold Inv.healthy. rewrite Hc', Hl', Hdt', Hma', Hsp', Hlen'.
  repeat (split; [assumption |]). intros r. rewrite Hveh'. apply Hveh.
Qed.

End HealthyRoad.
Section HealthySteps.

Import Agent Track.

Variable rand : nat -> num.
Variable coin : nat -> bool.
Hypothesis Hrand : Inv.unit_draws rand.

(** A larger bound keeps a road healthy. *)
Lemma healthy_from_mono (w w' : Q) (t0 t : Track) :
  (w <= w')%Q -> Inv.healthy_from w t0 t -> Inv.healthy_from w' t0 t.
Proof.
  intros Hw [(H1 & H2 & H3 & H4 & H5 & H6 & H7) Hframe].
  split; [| exact Hframe].
  repeat (split; [assumption |]).
  intros r. now apply (healthy_vehicle_mono w w').
Qed.

Lemma square_le (a c : Q) :
  (0 <= a)%Q -> (a <= c)%Q -> (c * c <= Num.float_max)%Q ->
  (a * a <= Num.float_max)%Q.
Proof. intros Ha Hac Hc. nra. Qed.

(** The bound on the speeds of a healthy road is not negative. *)
Lemma healthy_bound_nonneg (w : Q) (t : Track) :
  Inv.healthy w t -> (0 <= w)%Q.
Proof.
  intros (_ & _ & _ & _ & _ & _ & Hveh).
  destruct (healthy_vehicle_reals w _ (Hveh 0%nat))
    as (_ & c & _ & m & _ & _ & _ & _ & [Hc Hc0] & _ & [Hm _] & _).
  destruct (healthy_vehicle_below w _ c m (Hveh 0%nat) Hc Hm) as [Hcw _].
  lra.
Qed.

(** The lane-change pass of a time step, on a road of two lanes at
    most. *)
Lemma lane_change_pass_healthy (w : Q) (t0 : Track) (central : bool)
    (prefered_per_lane : list Z) (t : Track) (k : nat) :
  Inv.healthy_from w t0 t -> lanes_count t0 <= 2 ->
  (2 <= List.length prefered_per_lane)%nat ->
  exists (t' : Track) (k' : nat),
    (if lanes_count t0 >? 1 then
       if central then lane_switches_central coin prefered_per_lane
       else lane_switches
     else mret tt) (Env t k) = (Env t' k', Ok tt)
    /\ Inv.healthy_from w t0 t'.
Proof.
  intros Ht Htwo Hpref.
  destruct (lanes_count t0 >? 1) eqn:Hmany; [| now exists t, k].
  apply Z.gtb_lt in Hmany.
  pose proof Ht as [Hh [Hc Hl]].
  assert (Hcount : lanes_count t = 2) by lia.
  pose proof (healthy_drivable w t Hh) as Hd.
  assert (Hlen : List.length (lanes_list t) = 2%nat)
    by (destruct Hh as (Hwf & _); lia).
  assert (Hreached : Spec.reached t t)
    by (split; [apply Hd | apply rearranged_refl]).
  destruct central.
  - unfold lane_switches_central.
    rewrite bind_pure by apply pure_get. cbn [get snd obj].
    destruct (central_lanes_return coin t prefered_per_lane
                (seq 0 (Z.to_nat (lanes_count t))) Hd Hcount)
      with (t := t) (k := k) as [Hok Hre].
    + intros j Hj. apply elem_of_seq in Hj. lia.
    + exact Hreached.
    + destruct (for_each _ _ (Env t k)) as [[t' k'] r].
      cbn [fst snd obj] in Hok, Hre. subst r.
      exists t', k'. split; [reflexivity |].
      apply (healthy_rearranged t0 w t); [exact Ht | apply Hre].
  - unfold lane_switches.
    rewrite bind_pure by apply pure_get. cbn [get snd obj].
    destruct (lane_switches_lanes_return t
                (seq 0 (List.length (lanes_list t))) Hd Hcount)
      with (t := t) (k := k) as [Hok Hre].
    + intros j Hj. apply elem_of_seq in Hj. lia.
    + exact Hreached.
    + destruct (for_each _ _ (Env t k)) as [[t' k'] r].
      cbn [fst snd obj] in Hok, Hre. subst r.
      exists t', k'. split; [reflexivity |].
      apply (healthy_rearranged t0 w t); [exact Ht | apply Hre].
Qed.

(** One time step on a healthy road: the bound on the speeds grows by
    [speed_push] at most. *)
Lemma timestep_healthy (w push : Q) (t0 : Track) (central : bool)
    (prefered_per_lane : list Z) (t : Track) (k : nat) :
  speed_push t0 = Fin push -> (w * w <= Num.float_max)%Q ->
  Inv.healthy_from w t0 t -> lanes_count t0 <= 2 ->
  (2 <= List.length prefered_per_lane)%nat ->
  exists (t' : Track) (k' : nat) (crossings : Z),
    Model.timestep rand coin (lanes_count t0) central (length t0)
      prefered_per_lane (Env t k) = (Env t' k', Ok crossings)
    /\ Inv.healthy_from (w + push) t0 t'.
Proof using Hrand.
  intros Hpush Hw Ht Htwo Hpref. unfold Model.timestep.
  assert (Hpush0 : (0 <= push)%Q).
  { destruct Ht as [(_ & _ & _ & _ & _ & Hsp & _) (_ & _ & Heq)].
    rewrite Heq, Hpush in Hsp.
    destruct (nonneg_real _ Hsp) as (q & [= <-] & Hq). exact Hq. }
  destruct (lane_change_pass_healthy w t0 central prefered_per_lane t k
              Ht Htwo Hpref) as (t1 & k1 & Hrun1 & Ht1).
  rewrite bind_run, Hrun1. cbv beta iota.
  destruct (decision_pass_healthy rand Hrand t0 push Hpush w Hw t1 k1 Ht1)
    as (t2 & k2 & Hrun2 & Ht2 & Hgood).
  rewrite bind_run, Hrun2. cbv beta iota.
  assert (Ht2' : Inv.healthy_from (w + push) t0 t2)
    by (apply (healthy_from_mono w); [lra | exact Ht2]).
  destruct (commit_pass_healthy t0 (w + push) t2 k2 Ht2' Hgood)
    as (t3 & Hrun3 & Ht3 & Hll3).
  rewrite bind_run, Hrun3. cbv beta iota.
  unfold Model.boundary_pass.
  rewrite bind_pure by apply pure_get. cbn [get snd obj].
  assert (Hfin : Num.is_fin (length t0) = true).
  { destruct Ht3 as [(_ & Hfin & _) (_ & <- & _)]. exact Hfin. }
  destruct (boundary_healthy t0 (w + push) (length t0)
              (concat (lanes_list t3)) Hfin t3 k2 Ht3)
    as (t4 & cs & Hrun4 & Ht4 & _).
  rewrite bind_run, Hrun4. cbv beta iota.
  now exists t4, k2, (foldl Z.add 0 cs).
Qed.

Lemma timesteps_healthy (push : Q) (t0 : Track) (central : bool)
    (prefered_per_lane : list Z) (n : nat) :
  speed_push t0 = Fin push ->
  lanes_count t0 <= 2 -> (2 <= List.length prefered_per_lane)%nat ->
  forall (w : Q) (t : Track) (k : nat),
    Inv.healthy_from w t0 t ->
    ((w + inject_Z (Z.of_nat n) * push)
     * (w + inject_Z (Z.of_nat n) * push) <= Num.float_max)%Q ->
    exists (t' : Track) (k' : nat) (total : Z),
      Model.timesteps rand coin n (lanes_count t0) central (length t0)
        prefered_per_lane (Env t k) = (Env t' k', Ok total)
      /\ Inv.healthy_from (w + inject_Z (Z.of_nat n) * push) t0 t'.
Proof using Hrand.
  intros Hpush Htwo Hpref. induction n as [| n IH]; intros w t k Ht Hw;
    cbn [Model.timesteps].
  - exists t, k, 0. split; [reflexivity |].
    apply (healthy_from_mono w); [| exact Ht].
    change (inject_Z (Z.of_nat 0)) with 0%Q. lra.
  - assert (Hw0 : (0 <= w)%Q)
      by (destruct Ht as [Hh _]; exact (healthy_bound_nonneg w t Hh)).
    assert (Hpush0 : (0 <= push)%Q).
    { destruct Ht as [(_ & _ & _ & _ & _ & Hsp & _) (_ & _ & Heq)].
      rewrite Heq, Hpush in Hsp.
      destruct (nonneg_real _ Hsp) as (q & [= <-] & Hq). exact Hq. }
    assert (Hn0 : (0 <= inject_Z (Z.of_nat n))%Q)
      by (rewrite <- (Zle_Qle 0); lia).
    rewrite Nat2Z.inj_succ in Hw |- *. unfold Z.succ in Hw |- *.
    rewrite inject_Z_plus in Hw |- *.
    change (inject_Z 1) with 1%Q in Hw |- *.
    set (m := inject_Z (Z.of_nat n)) in *.
    assert (Hmp : (0 <= m * push)%Q) by now apply Qmult_le_0_compat.
    assert (Hw1 : (w * w <= Num.float_max)%Q)
      by (apply (square_le w (w + (m + 1) * push)); [lra | lra | exact Hw]).
    assert (Hw2 : ((w + push + m * push) * (w + push + m * push)
                   <= Num.float_max)%Q)
      by (apply (square_le _ (w + (m + 1) * push)); [lra | lra | exact Hw]).
    destruct (timestep_healthy w push t0 central prefered_per_lane t k
                Hpush Hw1 Ht Htwo Hpref)
      as (t1 & k1 & c & Hrun1 & Ht1).
    rewrite bind_run, Hrun1. cbv beta iota.
    destruct (IH (w + push)%Q t1 k1 Ht1 Hw2)
      as (t2 & k2 & total & Hrun2 & Ht2).
    rewrite bind_run, Hrun2. cbv beta iota.
    exists t2, k2, (c + total). split; [reflexivity |].
    apply (healthy_from_mono (w + push + m * push)); [lra | exact Ht2].
Qed.

Lemma speed_limit_square :
  (Inv.speed_limit * Inv.speed_limit <= Num.float_max)%Q.
Proof. apply Qle_bool_iff. vm_compute. reflexivity. Qed.


End HealthySteps.

Section HealthyStepsExamples.

Import Agent Track.


End HealthyStepsExamples.
